(** * Middleware stack: registry, resolver, composer and bulk transfer

    A shallow embedding of [packages/middleware-stack/src/MiddlewareStack.ts].

    The closure state of [constructStack] becomes the record [Stack]; every
    operation of the returned object is a computation in a small state and
    exception monad [M], which returns the state reached together with either
    the returned value or the thrown [Error].  A thrown error keeps the state
    reached at the [throw], as a JavaScript exception does.

    Modelling conventions:
    - a middleware function is known to the stack by reference only, so
      [MiddlewareType] is a reference (a [nat]); the Composer section takes the
      function behind each reference as a parameter [invoke];
    - an optional property is an [option]; [None] is an absent property;
    - [entriesNameSet] (a [Set<string>]) is a [gset string];
    - [normalizedEntriesNameMap] (an object used as a dictionary) is a
      [gmap string _] for the names stored in it, read through [getProperty],
      which also follows the prototype chain of the object;
      [Object.prototype] is the one of the language, with no property added;
    - every normalized entry built by a resolution is a fresh object; it is a
      pair of its reference [ref] and the copied entry, and its mutable
      [before] and [after] arrays live in a [Heap] indexed by [ref];
    - the recursion of [expandRelativeMiddlewareList] takes fuel; running out
      of fuel is the call stack overflowing ([RangeError]). *)

From Stdlib Require Import ZArith Sorting.Sorted.
From stdpp Require Import gmap strings list fin_maps.

Open Scope string_scope.
Open Scope list_scope.
Open Scope nat_scope.

(** ** Entry model *)

(** The keys of [stepWeights] and of [priorityWeights], and the two relations
    the attachment loop tests for. *)
Inductive Step := initialize | serialize | build | finalizeRequest | deserialize.
Inductive Priority := high | normal | low.
Inductive Relation := Before | After.

Definition MiddlewareType := nat.

(** Modelled from the spec: the type declarations of [./types] and of
    [@smithy/types] ([HandlerOptions], [AbsoluteLocation], [RelativeLocation],
    the entry types and [Normalized]).  An entry has a middleware, an optional
    primary name, optional aliases and tags and the override flag it was
    registered with (the spread [...options] keeps it); an absolute entry is
    bound to a concrete step and priority, a relative entry to an anchor name
    and a relation.  The fields below are the ones the code reads. *)
Record HandlerOptions := {
  name : option string;
  aliases : option (list string);
  tags : option (list string);
  override : option bool
}.

Record AbsoluteLocation := {
  o_step : option Step;
  o_priority : option Priority
}.

Record RelativeLocation := {
  relation : Relation;
  toMiddleware : string
}.

Record AbsoluteMiddlewareEntry := {
  step : Step;
  priority : Priority;
  abs_middleware : MiddlewareType;
  abs_options : HandlerOptions
}.

Record RelativeMiddlewareEntry := {
  rel_location : RelativeLocation;
  rel_middleware : MiddlewareType;
  rel_options : HandlerOptions
}.

Inductive MiddlewareEntry :=
| Absolute (e : AbsoluteMiddlewareEntry)
| Relative (e : RelativeMiddlewareEntry).

Definition middleware (e : MiddlewareEntry) : MiddlewareType :=
  match e with
  | Absolute a => abs_middleware a
  | Relative r => rel_middleware r
  end.

Definition entry_options (e : MiddlewareEntry) : HandlerOptions :=
  match e with
  | Absolute a => abs_options a
  | Relative r => rel_options r
  end.

Definition is_absolute (e : MiddlewareEntry) : bool :=
  match e with Absolute _ => true | Relative _ => false end.

#[global] Instance Step_eq_dec : EqDecision Step.
Proof. solve_decision. Defined.
#[global] Instance Priority_eq_dec : EqDecision Priority.
Proof. solve_decision. Defined.
#[global] Instance Relation_eq_dec : EqDecision Relation.
Proof. solve_decision. Defined.
#[global] Instance HandlerOptions_eq_dec : EqDecision HandlerOptions.
Proof. solve_decision. Defined.
#[global] Instance RelativeLocation_eq_dec : EqDecision RelativeLocation.
Proof. solve_decision. Defined.
#[global] Instance AbsoluteMiddlewareEntry_eq_dec : EqDecision AbsoluteMiddlewareEntry.
Proof. solve_decision. Defined.
#[global] Instance RelativeMiddlewareEntry_eq_dec : EqDecision RelativeMiddlewareEntry.
Proof. solve_decision. Defined.
#[global] Instance MiddlewareEntry_eq_dec : EqDecision MiddlewareEntry.
Proof. solve_decision. Defined.

(** The object spread [{ ...entry }] read back as the options of a call. *)
Definition abs_location (e : AbsoluteMiddlewareEntry) : AbsoluteLocation :=
  {| o_step := Some (step e); o_priority := Some (priority e) |}.

(** ** Names *)

(** JavaScript truthiness of a string and of an optional boolean. *)
Definition truthy (s : string) : bool := negb (String.eqb s EmptyString).

Definition truthy_flag (b : option bool) : bool := default false b.

Definition getAllAliases (name : option string) (aliases : option (list string))
  : list string :=
  (match name with
   | Some n => if truthy n then [n] else []
   | None => []
   end) ++ default [] aliases.

Definition join (sep : string) (l : list string) : string := String.concat sep l.

Definition getMiddlewareNameWithAliases (name : option string)
    (aliases : option (list string)) : string :=
  (match name with
   | Some n => if truthy n then n else "anonymous"
   | None => "anonymous"
   end) +:+
  (match aliases with
   | Some l => if (0 <? length l)%nat then " (a.k.a. " +:+ join "," l +:+ ")" else EmptyString
   | None => EmptyString
   end).

Definition entry_aliases (e : MiddlewareEntry) : list string :=
  getAllAliases (name (entry_options e)) (aliases (entry_options e)).

Definition step_string (s : Step) : string :=
  match s with
  | initialize => "initialize"
  | serialize => "serialize"
  | build => "build"
  | finalizeRequest => "finalizeRequest"
  | deserialize => "deserialize"
  end.

Definition priority_string (p : Priority) : string :=
  match p with high => "high" | normal => "normal" | low => "low" end.

Definition relation_string (r : Relation) : string :=
  match r with Before => "before" | After => "after" end.

(** ** Weights *)

Definition stepWeights (s : Step) : Z :=
  match s with
  | initialize => 5
  | serialize => 4
  | build => 3
  | finalizeRequest => 2
  | deserialize => 1
  end.

Definition priorityWeights (p : Priority) : Z :=
  match p with high => 3 | normal => 2 | low => 1 end.

(** ** Errors and the state monad of the stack *)

(** The errors met: the three the code constructs, told apart by their
    messages, and the two the engine raises. *)
Inductive ErrorKind :=
  DuplicateName | OverrideMismatch | AnchorNotFound | RangeError | TypeError.

Record Error := { kind : ErrorKind; message : string }.

Inductive Result (A : Type) :=
| Returned (a : A)
| Thrown (e : Error).
Arguments Returned {A} a.
Arguments Thrown {A} e.

Record Stack := {
  absoluteEntries : list AbsoluteMiddlewareEntry;
  relativeEntries : list RelativeMiddlewareEntry;
  identifyOnResolve : bool;
  entriesNameSet : gset string;
  cachedMiddlewareList : option (list MiddlewareEntry)
}.

Definition constructStack : Stack :=
  {| absoluteEntries := [];
     relativeEntries := [];
     identifyOnResolve := false;
     entriesNameSet := ∅;
     cachedMiddlewareList := None |}.

Definition M (A : Type) : Type := Stack -> Stack * Result A.

Definition ret {A} (a : A) : M A := fun s => (s, Returned a).

Definition throw {A} (e : Error) : M A := fun s => (s, Thrown e).

Definition bind {A B} (m : M A) (k : A -> M B) : M B :=
  fun s =>
    match m s with
    | (s', Returned a) => k a s'
    | (s', Thrown e) => (s', Thrown e)
    end.

Definition gets {A} (f : Stack -> A) : M A := fun s => (s, Returned (f s)).

Definition modify (f : Stack -> Stack) : M unit := fun s => (f s, Returned tt).

Notation "'let!' x ':=' m 'in' k" := (bind m (fun x => k))
  (at level 10, x name, m at level 100, k at level 200).
Notation "m ';;;' k" := (bind m (fun _ => k))
  (at level 100, k at level 200, right associativity).

(** [for (const x of l) body(x)]: stops at the first exception. *)
Fixpoint forEach {A} (body : A -> M unit) (l : list A) : M unit :=
  match l with
  | [] => ret tt
  | x :: l' => body x ;;; forEach body l'
  end.

Definition set_absoluteEntries (l : list AbsoluteMiddlewareEntry) (s : Stack) : Stack :=
  {| absoluteEntries := l;
     relativeEntries := relativeEntries s;
     identifyOnResolve := identifyOnResolve s;
     entriesNameSet := entriesNameSet s;
     cachedMiddlewareList := cachedMiddlewareList s |}.

Definition set_relativeEntries (l : list RelativeMiddlewareEntry) (s : Stack) : Stack :=
  {| absoluteEntries := absoluteEntries s;
     relativeEntries := l;
     identifyOnResolve := identifyOnResolve s;
     entriesNameSet := entriesNameSet s;
     cachedMiddlewareList := cachedMiddlewareList s |}.

Definition set_identifyOnResolve (b : bool) (s : Stack) : Stack :=
  {| absoluteEntries := absoluteEntries s;
     relativeEntries := relativeEntries s;
     identifyOnResolve := b;
     entriesNameSet := entriesNameSet s;
     cachedMiddlewareList := cachedMiddlewareList s |}.

Definition set_entriesNameSet (n : gset string) (s : Stack) : Stack :=
  {| absoluteEntries := absoluteEntries s;
     relativeEntries := relativeEntries s;
     identifyOnResolve := identifyOnResolve s;
     entriesNameSet := n;
     cachedMiddlewareList := cachedMiddlewareList s |}.

Definition set_cachedMiddlewareList (c : option (list MiddlewareEntry)) (s : Stack) : Stack :=
  {| absoluteEntries := absoluteEntries s;
     relativeEntries := relativeEntries s;
     identifyOnResolve := identifyOnResolve s;
     entriesNameSet := entriesNameSet s;
     cachedMiddlewareList := c |}.

Definition invalidateCache : M unit := modify (set_cachedMiddlewareList None).

(** [for (const alias of aliases) entriesNameSet.add(alias)] *)
Definition addNames (l : list string) (n : gset string) : gset string :=
  foldl (fun acc a => {[a]} ∪ acc) n l.

(** [for (const alias of aliases) entriesNameSet.delete(alias)] *)
Definition deleteNames (l : list string) (n : gset string) : gset string :=
  foldl (fun acc a => acc ∖ {[a]}) n l.

(** [aliases.some((alias) => entriesNameSet.has(alias))] *)
Definition someInNameSet (l : list string) (n : gset string) : bool :=
  existsb (fun a => bool_decide (a ∈ n)) l.

(** ** Sorting

    [Array.prototype.sort] is stable and the comparator below is a consistent
    ordering, so the result is the one of a stable insertion sort: a stable
    sort has one possible result ([sort_is_the_stable_sort]). *)

Record Normalized (T : Type) := { ref : nat; entry : T }.
Arguments ref {T} _.
Arguments entry {T} _.

(** [stepWeights[b.step] - stepWeights[a.step] ||
     priorityWeights[b.priority || "normal"] - priorityWeights[a.priority || "normal"]];
    an entry's [priority] is always present (its type is [Priority]), so
    [x.priority || "normal"] is [x.priority]. *)
Definition compareEntries (a b : AbsoluteMiddlewareEntry) : Z :=
  let d := (stepWeights (step b) - stepWeights (step a))%Z in
  if (d =? 0)%Z
  then (priorityWeights (priority b) - priorityWeights (priority a))%Z
  else d.

Fixpoint sort_insert (x : Normalized AbsoluteMiddlewareEntry)
    (l : list (Normalized AbsoluteMiddlewareEntry))
  : list (Normalized AbsoluteMiddlewareEntry) :=
  match l with
  | [] => [x]
  | y :: l' =>
      if (0 <? compareEntries (entry x) (entry y))%Z
      then y :: sort_insert x l'
      else x :: y :: l'
  end.

Definition sort (entries : list (Normalized AbsoluteMiddlewareEntry))
  : list (Normalized AbsoluteMiddlewareEntry) :=
  foldr sort_insert [] entries.

(** ** Registry *)

(** [entry.name === alias || entry.aliases?.some((a) => a === alias)] *)
Definition bearsAlias (alias : string) (o : HandlerOptions) : bool :=
  match name o with
  | Some n => String.eqb n alias
  | None => false
  end
  || match aliases o with
     | Some l => existsb (fun a => String.eqb a alias) l
     | None => false
     end.

(** [Array.prototype.findIndex], with the element found; [None] is [-1]. *)
Fixpoint findIndex {A} (p : A -> bool) (l : list A) : option (nat * A) :=
  match l with
  | [] => None
  | x :: l' =>
      if p x then Some (0, x)
      else match findIndex p l' with
           | Some (i, y) => Some (S i, y)
           | None => None
           end
  end.

Definition quote : string := String (Ascii.ascii_of_nat 34) EmptyString.

Definition duplicateNameError (o : HandlerOptions) : Error :=
  {| kind := DuplicateName;
     message := "Duplicate middleware name '"
                +:+ getMiddlewareNameWithAliases (name o) (aliases o) +:+ "'" |}.

Definition absoluteMismatchError (toOverride entry : AbsoluteMiddlewareEntry) : Error :=
  {| kind := OverrideMismatch;
     message :=
       quote +:+ getMiddlewareNameWithAliases (name (abs_options toOverride))
                   (aliases (abs_options toOverride)) +:+ quote
       +:+ " middleware with " +:+ priority_string (priority toOverride)
       +:+ " priority in " +:+ step_string (step toOverride) +:+ " step cannot "
       +:+ "be overridden by " +:+ quote
       +:+ getMiddlewareNameWithAliases (name (abs_options entry))
             (aliases (abs_options entry)) +:+ quote
       +:+ " middleware with " +:+ priority_string (priority entry)
       +:+ " priority in " +:+ step_string (step entry) +:+ " step." |}.

Definition relativeMismatchError (toOverride entry : RelativeMiddlewareEntry) : Error :=
  {| kind := OverrideMismatch;
     message :=
       quote +:+ getMiddlewareNameWithAliases (name (rel_options toOverride))
                   (aliases (rel_options toOverride)) +:+ quote
       +:+ " middleware " +:+ relation_string (relation (rel_location toOverride))
       +:+ " " +:+ quote +:+ toMiddleware (rel_location toOverride) +:+ quote
       +:+ " middleware cannot be overridden by " +:+ quote
       +:+ getMiddlewareNameWithAliases (name (rel_options entry))
             (aliases (rel_options entry)) +:+ quote
       +:+ " middleware " +:+ relation_string (relation (rel_location entry))
       +:+ " " +:+ quote +:+ toMiddleware (rel_location entry) +:+ quote
       +:+ " middleware." |}.

(** One turn of the [for (const alias of aliases)] loop of [add]. *)
Definition overrideAbsolute (entry : AbsoluteMiddlewareEntry) (alias : string) : M unit :=
  let! entries := gets absoluteEntries in
  match findIndex (fun e => bearsAlias alias (abs_options e)) entries with
  | None => ret tt
  | Some (toOverrideIndex, toOverride) =>
      if negb (bool_decide (step toOverride = step entry))
         || negb (bool_decide (priority entry = priority toOverride))
      then throw (absoluteMismatchError toOverride entry)
      else modify (set_absoluteEntries (delete toOverrideIndex entries))
  end.

(** [{ step: "initialize", priority: "normal", middleware, ...options }] *)
Definition makeAbsoluteEntry (middleware : MiddlewareType) (location : AbsoluteLocation)
    (options : HandlerOptions) : AbsoluteMiddlewareEntry :=
  {| step := default initialize (o_step location);
     priority := default normal (o_priority location);
     abs_middleware := middleware;
     abs_options := options |}.

Definition add (middleware : MiddlewareType) (location : AbsoluteLocation)
    (options : HandlerOptions) : M unit :=
  let entry := makeAbsoluteEntry middleware location options in
  let aliases := getAllAliases (name options) (aliases options) in
  (if (0 <? length aliases)%nat then
     (let! collides := gets (fun s => someInNameSet aliases (entriesNameSet s)) in
      if collides then
        if negb (truthy_flag (override options))
        then throw (duplicateNameError options)
        else forEach (overrideAbsolute entry) aliases
      else ret tt) ;;;
     modify (fun s => set_entriesNameSet (addNames aliases (entriesNameSet s)) s)
   else ret tt) ;;;
  modify (fun s => set_absoluteEntries (absoluteEntries s ++ [entry]) s) ;;;
  invalidateCache.

(** One turn of the [for (const alias of aliases)] loop of [addRelativeTo]. *)
Definition overrideRelative (entry : RelativeMiddlewareEntry) (alias : string) : M unit :=
  let! entries := gets relativeEntries in
  match findIndex (fun e => bearsAlias alias (rel_options e)) entries with
  | None => ret tt
  | Some (toOverrideIndex, toOverride) =>
      if negb (String.eqb (toMiddleware (rel_location toOverride))
                          (toMiddleware (rel_location entry)))
         || negb (bool_decide (relation (rel_location toOverride)
                               = relation (rel_location entry)))
      then throw (relativeMismatchError toOverride entry)
      else modify (set_relativeEntries (delete toOverrideIndex entries))
  end.

(** [{ middleware, ...options }] *)
Definition makeRelativeEntry (middleware : MiddlewareType) (location : RelativeLocation)
    (options : HandlerOptions) : RelativeMiddlewareEntry :=
  {| rel_location := location;
     rel_middleware := middleware;
     rel_options := options |}.

Definition addRelativeTo (middleware : MiddlewareType) (location : RelativeLocation)
    (options : HandlerOptions) : M unit :=
  let entry := makeRelativeEntry middleware location options in
  let aliases := getAllAliases (name options) (aliases options) in
  (if (0 <? length aliases)%nat then
     (let! collides := gets (fun s => someInNameSet aliases (entriesNameSet s)) in
      if collides then
        if negb (truthy_flag (override options))
        then throw (duplicateNameError options)
        else forEach (overrideRelative entry) aliases
      else ret tt) ;;;
     modify (fun s => set_entriesNameSet (addNames aliases (entriesNameSet s)) s)
   else ret tt) ;;;
  modify (fun s => set_relativeEntries (relativeEntries s ++ [entry]) s) ;;;
  invalidateCache.

(** The three removals share one shape: a filter callback that also deletes
    the aliases of every entry it rejects from [entriesNameSet]. *)
Definition removeWhere (hit : MiddlewareEntry -> bool) : M bool :=
  fun s =>
    let removedAbs := filter (fun e => hit (Absolute e) = true) (absoluteEntries s) in
    let removedRel := filter (fun e => hit (Relative e) = true) (relativeEntries s) in
    let names :=
      foldl (fun n e => deleteNames (entry_aliases (Relative e)) n)
        (foldl (fun n e => deleteNames (entry_aliases (Absolute e)) n)
           (entriesNameSet s) removedAbs)
        removedRel in
    let isRemoved := (0 <? length removedAbs)%nat || (0 <? length removedRel)%nat in
    let s' :=
      {| absoluteEntries := filter (fun e => hit (Absolute e) = false) (absoluteEntries s);
         relativeEntries := filter (fun e => hit (Relative e) = false) (relativeEntries s);
         identifyOnResolve := identifyOnResolve s;
         entriesNameSet := names;
         cachedMiddlewareList :=
           if isRemoved then None else cachedMiddlewareList s |} in
    (s', Returned isRemoved).

Definition removeByName (toRemove : string) : M bool :=
  removeWhere (fun e => existsb (String.eqb toRemove) (entry_aliases e)).

Definition removeByReference (toRemove : MiddlewareType) : M bool :=
  removeWhere (fun e => Nat.eqb (middleware e) toRemove).

(** [remove(toRemove)] dispatches on [typeof toRemove === "string"]. *)
Definition remove (toRemove : string + MiddlewareType) : M bool :=
  match toRemove with
  | inl n => removeByName n
  | inr r => removeByReference r
  end.

Definition removeByTag (toRemove : string) : M bool :=
  removeWhere (fun e =>
    match tags (entry_options e) with
    | Some l => existsb (String.eqb toRemove) l
    | None => false
    end).

(** ** Resolver *)

Abbreviation NormalizedEntry := (Normalized MiddlewareEntry).

Definition asAbsolute (n : Normalized AbsoluteMiddlewareEntry) : NormalizedEntry :=
  {| ref := ref n; entry := Absolute (entry n) |}.

Definition asRelative (n : Normalized RelativeMiddlewareEntry) : NormalizedEntry :=
  {| ref := ref n; entry := Relative (entry n) |}.

(** The [before] and [after] arrays of the normalized entries, by reference.
    An entry never pushed to has its initial [[]]. *)
Record Heap := {
  before : gmap nat (list (Normalized RelativeMiddlewareEntry));
  after : gmap nat (list (Normalized RelativeMiddlewareEntry))
}.

Definition emptyHeap : Heap := {| before := ∅; after := ∅ |}.

Definition beforeOf (h : Heap) (r : nat) : list (Normalized RelativeMiddlewareEntry) :=
  default [] (before h !! r).

Definition afterOf (h : Heap) (r : nat) : list (Normalized RelativeMiddlewareEntry) :=
  default [] (after h !! r).

Definition pushBefore (r : nat) (e : Normalized RelativeMiddlewareEntry) (h : Heap) : Heap :=
  {| before := <[r := beforeOf h r ++ [e]]> (before h); after := after h |}.

Definition pushAfter (r : nat) (e : Normalized RelativeMiddlewareEntry) (h : Heap) : Heap :=
  {| before := before h; after := <[r := afterOf h r ++ [e]]> (after h) |}.

Fixpoint expandRelativeMiddlewareList (fuel : nat) (h : Heap) (from : NormalizedEntry)
  : option (list NormalizedEntry) :=
  match fuel with
  | 0 => None
  | S fuel' =>
      let visit (e : Normalized RelativeMiddlewareEntry) :=
        if (length (beforeOf h (ref e)) =? 0)%nat && (length (afterOf h (ref e)) =? 0)%nat
        then Some [asRelative e]
        else expandRelativeMiddlewareList fuel' h (asRelative e) in
      match mapM visit (beforeOf h (ref from)) with
      | None => None
      | Some bs =>
          match mapM visit (rev (afterOf h (ref from))) with
          | None => None
          | Some afs => Some (concat bs ++ [from] ++ concat afs)
          end
      end
  end.

(** [for (const alias of getAllAliases(...)) normalizedEntriesNameMap[alias] = normalizedEntry] *)
Definition registerNames (m : gmap string NormalizedEntry) (n : NormalizedEntry)
  : gmap string NormalizedEntry :=
  foldl (fun acc alias => <[alias := n]> acc) m (entry_aliases (entry n)).

Definition anchorNotFoundError (e : RelativeMiddlewareEntry) : Error :=
  {| kind := AnchorNotFound;
     message :=
       toMiddleware (rel_location e) +:+ " is not found when adding "
       +:+ getMiddlewareNameWithAliases (name (rel_options e)) (aliases (rel_options e))
       +:+ " middleware " +:+ relation_string (relation (rel_location e))
       +:+ " " +:+ toMiddleware (rel_location e) |}.

(** The own property names of [Object.prototype] (ECMA-262, Annex B
    included), from which the object literal [{}] inherits. *)
Definition objectPrototypeKeys : list string :=
  [ "constructor"; "hasOwnProperty"; "isPrototypeOf"; "propertyIsEnumerable";
    "toLocaleString"; "toString"; "valueOf"; "__proto__";
    "__defineGetter__"; "__defineSetter__"; "__lookupGetter__"; "__lookupSetter__" ].

(** The own properties of a normalized entry that hold a value:
    [{ ...entry, before: [], after: [] }], where [entry] is
    [{ step, priority, middleware, ...options }] or [{ middleware, ...options }]. *)
Definition ownKeys (e : MiddlewareEntry) : list string :=
  (match e with
   | Absolute _ => ["step"; "priority"]
   | Relative _ => ["relation"; "toMiddleware"]
   end)
  ++ ["middleware"; "before"; "after"]
  ++ match name (entry_options e) with Some _ => ["name"] | None => [] end
  ++ match aliases (entry_options e) with Some _ => ["aliases"] | None => [] end
  ++ match tags (entry_options e) with Some _ => ["tags"] | None => [] end
  ++ match override (entry_options e) with Some _ => ["override"] | None => [] end.

(** What [normalizedEntriesNameMap[key]] evaluates to. *)
Inductive Property :=
| Registered (target : NormalizedEntry)
| Inherited
| Undefined.

(** Whether a key that [registerNames] has not stored is found along the
    prototype chain of the map: on the entry stored last under ["__proto__"],
    if one was (that assignment sets the prototype of the map instead of an
    own property, and reading ["__proto__"] gives the prototype back), and
    then on [Object.prototype]. *)
Definition inherits (nameMap : gmap string NormalizedEntry) (key : string) : bool :=
  match nameMap !! "__proto__" with
  | Some prototype => bool_decide (key ∈ ownKeys (entry prototype))
  | None => false
  end
  || bool_decide (key ∈ objectPrototypeKeys).

(** [normalizedEntriesNameMap[key]].  A key stored by [registerNames] gives
    the normalized entry stored last.  What another key finds along the
    prototype chain is a string, a boolean, an array or a function, or
    [Object.prototype] itself: a value other than [undefined] that has
    neither a [before] nor an [after] array. *)
Definition getProperty (nameMap : gmap string NormalizedEntry) (key : string)
  : Property :=
  match nameMap !! key with
  | Some target => Registered target
  | None => if inherits nameMap key then Inherited else Undefined
  end.

(** [toMiddleware.after.push(entry)] where [toMiddleware.after] is
    [undefined]; the wording of the message is the engine's. *)
Definition typeError : Error :=
  {| kind := TypeError;
     message := "Cannot read properties of undefined (reading 'push')" |}.

(** The callback of [normalizedRelativeEntries.forEach]. *)
Definition attach (debug : bool) (nameMap : gmap string NormalizedEntry)
    (e : Normalized RelativeMiddlewareEntry) (h : Heap) : Result Heap :=
  if truthy (toMiddleware (rel_location (entry e))) then
    match getProperty nameMap (toMiddleware (rel_location (entry e))) with
    | Undefined => if debug then Returned h else Thrown (anchorNotFoundError (entry e))
    | Inherited => Thrown typeError
    | Registered target =>
        match relation (rel_location (entry e)) with
        | After => Returned (pushAfter (ref target) e h)
        | Before => Returned (pushBefore (ref target) e h)
        end
    end
  else Returned h.

Fixpoint attachAll (debug : bool) (nameMap : gmap string NormalizedEntry)
    (l : list (Normalized RelativeMiddlewareEntry)) (h : Heap) : Result Heap :=
  match l with
  | [] => Returned h
  | e :: l' =>
      match attach debug nameMap e h with
      | Returned h' => attachAll debug nameMap l' h'
      | Thrown err => Thrown err
      end
  end.

(** The normalized copies: absolute entries take the references
    [0 .. n-1], relative entries the references from [n] on. *)
Definition normalizeAbsolute (l : list AbsoluteMiddlewareEntry)
  : list (Normalized AbsoluteMiddlewareEntry) :=
  imap (fun i e => {| ref := i; entry := e |}) l.

Definition normalizeRelative (n : nat) (l : list RelativeMiddlewareEntry)
  : list (Normalized RelativeMiddlewareEntry) :=
  imap (fun i e => {| ref := n + i; entry := e |}) l.

Definition buildNameMap (nabs : list (Normalized AbsoluteMiddlewareEntry))
    (nrel : list (Normalized RelativeMiddlewareEntry)) : gmap string NormalizedEntry :=
  foldl registerNames (foldl registerNames ∅ (map asAbsolute nabs)) (map asRelative nrel).

Definition rangeError : Error :=
  {| kind := RangeError; message := "Maximum call stack size exceeded" |}.

(** The body of [getMiddlewareList] past the cache test. *)
Definition resolveEntries (fuel : nat) (debug : bool)
    (absEntries : list AbsoluteMiddlewareEntry) (relEntries : list RelativeMiddlewareEntry)
  : Result (list NormalizedEntry) :=
  let normalizedAbsoluteEntries := normalizeAbsolute absEntries in
  let normalizedRelativeEntries := normalizeRelative (length absEntries) relEntries in
  let normalizedEntriesNameMap :=
    buildNameMap normalizedAbsoluteEntries normalizedRelativeEntries in
  match attachAll debug normalizedEntriesNameMap normalizedRelativeEntries emptyHeap with
  | Thrown err => Thrown err
  | Returned h =>
      match mapM (fun e => expandRelativeMiddlewareList fuel h (asAbsolute e))
                 (sort normalizedAbsoluteEntries) with
      | None => Thrown rangeError
      | Some parts => Returned (concat parts)
      end
  end.

(** The depth of recursion granted to a resolution: one frame more than there
    are relative entries. *)
Definition callDepth (s : Stack) : nat := S (length (relativeEntries s)).

Definition getMiddlewareList (debug : bool) : M (list MiddlewareEntry) :=
  fun s =>
    match (if debug then None else cachedMiddlewareList s) with
    | Some cached => (s, Returned cached)
    | None =>
        match resolveEntries (callDepth s) debug (absoluteEntries s) (relativeEntries s) with
        | Thrown err => (s, Thrown err)
        | Returned nodes =>
            let mainChain := map entry nodes in
            ((if debug then s else set_cachedMiddlewareList (Some mainChain) s),
             Returned mainChain)
        end
    end.

Definition describe (mw : MiddlewareEntry) : string :=
  getMiddlewareNameWithAliases (name (entry_options mw)) (aliases (entry_options mw))
  +:+ " - " +:+
  match mw with
  | Absolute a => step_string (step a)
  | Relative r =>
      relation_string (relation (rel_location r)) +:+ " " +:+ toMiddleware (rel_location r)
  end.

Definition identify : M (list string) :=
  let! l := getMiddlewareList true in
  ret (map describe l).

(** ** Transfer *)

(** The body of the first loop of [_addBulk]. *)
Definition bulkAbsolute (e : AbsoluteMiddlewareEntry) : M unit :=
  let aliases := getAllAliases (name (abs_options e)) (aliases (abs_options e)) in
  let! collides := gets (fun s => someInNameSet aliases (entriesNameSet s)) in
  if (0 <? length aliases) && collides
  then add (abs_middleware e) (abs_location e) (abs_options e)
  else
    modify (fun s => set_absoluteEntries (absoluteEntries s ++ [e]) s) ;;;
    modify (fun s => set_entriesNameSet (addNames aliases (entriesNameSet s)) s).

(** The body of the second loop of [_addBulk]. *)
Definition bulkRelative (e : RelativeMiddlewareEntry) : M unit :=
  let aliases := getAllAliases (name (rel_options e)) (aliases (rel_options e)) in
  let! collides := gets (fun s => someInNameSet aliases (entriesNameSet s)) in
  if (0 <? length aliases) && collides
  then addRelativeTo (rel_middleware e) (rel_location e) (rel_options e)
  else
    modify (fun s => set_relativeEntries (relativeEntries s ++ [e]) s) ;;;
    modify (fun s => set_entriesNameSet (addNames aliases (entriesNameSet s)) s).

Definition _addBulk (absEntries : list AbsoluteMiddlewareEntry)
    (relEntries : list RelativeMiddlewareEntry) : M unit :=
  forEach bulkAbsolute absEntries ;;;
  forEach bulkRelative relEntries ;;;
  invalidateCache.

(** The [else] branch of [cloneTo]: the public single-entry calls in a loop. *)
Definition addEach (absEntries : list AbsoluteMiddlewareEntry)
    (relEntries : list RelativeMiddlewareEntry) : M unit :=
  forEach (fun e => add (abs_middleware e) (abs_location e) (abs_options e)) absEntries ;;;
  forEach (fun e => addRelativeTo (rel_middleware e) (rel_location e) (rel_options e))
    relEntries.

(** [cloneTo(toStack)] run on the state of [toStack]; [hasAddBulk] is the test
    ["_addBulk" in toStack] and [source] the state of the stack cloned from. *)
Definition cloneTo (hasAddBulk : bool) (source : Stack) : M unit :=
  (if hasAddBulk
   then _addBulk (absoluteEntries source) (relativeEntries source)
   else addEach (absoluteEntries source) (relativeEntries source)) ;;;
  modify (set_identifyOnResolve (identifyOnResolve source)).

Definition clone (source : Stack) : Stack * Result unit :=
  cloneTo true source constructStack.

(** ** Composer *)

Section Composer.
Variables Handler Context : Type.
(** The function behind a middleware reference. *)
Variable invoke : MiddlewareType -> Handler -> Context -> Handler.

(** [for (let i = middlewareList.length - 1; i >= 0; i--)
       handler = middlewareList[i].middleware(handler, context)] *)
Definition composeHandlers (middlewareList : list MiddlewareEntry) (handler : Handler)
    (context : Context) : Handler :=
  foldl (fun h e => invoke (middleware e) h context) handler (rev middlewareList).

(** The handler returned, and what [console.log] received, if anything. *)
Definition resolve (handler : Handler) (context : Context)
  : M (Handler * option (list string)) :=
  let! middlewareList := getMiddlewareList false in
  let composed := composeHandlers middlewareList handler context in
  let! logging := gets identifyOnResolve in
  if logging
  then (let! listing := identify in ret (composed, Some listing))
  else ret (composed, None).
End Composer.

(** ** Plugins and concatenation *)

(** [identifyOnResolve(toggle?)]: sets the flag when [toggle] is a boolean,
    and returns the flag. *)
Definition identifyOnResolveMethod (toggle : option bool) : M bool :=
  (match toggle with
   | Some b => modify (set_identifyOnResolve b)
   | None => ret tt
   end) ;;;
  gets identifyOnResolve.

(** [applyToStack: cloneTo] *)
Definition applyToStack : bool -> Stack -> M unit := cloneTo.

(** [use(plugin)] calls [plugin.applyToStack(stack)]: a plugin is what its
    [applyToStack] does to the stack it is given. *)
Definition use (plugin : M unit) : M unit := plugin.

(** [concat(from)] (the name [concat] is the one of the list function), run
    on the state of the fresh stack [cloned]; [self] is the state of the
    stack the method belongs to and [from] the state of the argument, a stack
    built by [constructStack] too, so that its [applyToStack] is [cloneTo]
    and its [identifyOnResolve] is present. *)
Definition concatStack (self from : Stack) : Stack * Result unit :=
  (cloneTo true self ;;;
   use (applyToStack true from) ;;;
   (let! own := identifyOnResolveMethod None in
    identifyOnResolveMethod
      (Some (identifyOnResolve self || own || identifyOnResolve from))) ;;;
   ret tt) constructStack.

(** * Vocabulary of the properties *)

(** ** Order, anchors and expansion *)

(** [a] may stand before [b] in the sorted order. *)
Definition precedes (a b : AbsoluteMiddlewareEntry) : Prop :=
  (stepWeights (step b) < stepWeights (step a))%Z
  \/ (step a = step b
      /\ (priorityWeights (priority b) <= priorityWeights (priority a))%Z).

Definition sameKey (st : Step) (pr : Priority) (a : AbsoluteMiddlewareEntry) : Prop :=
  step a = st /\ priority a = pr.

#[global] Instance sameKey_dec st pr a : Decision (sameKey st pr a).
Proof. unfold sameKey. apply _. Defined.

Definition nodePrecedes (x y : Normalized AbsoluteMiddlewareEntry) : Prop :=
  precedes (entry x) (entry y).

(** The normalized entry a relative entry is attached to, if any. *)
Definition anchorOf (nm : gmap string NormalizedEntry)
    (e : Normalized RelativeMiddlewareEntry) : option NormalizedEntry :=
  if truthy (toMiddleware (rel_location (entry e)))
  then nm !! toMiddleware (rel_location (entry e))
  else None.

(** The relative entries attached to the entry of reference [r] with relation
    [rl], in registration order. *)
Definition childrenOf (nm : gmap string NormalizedEntry)
    (nrel : list (Normalized RelativeMiddlewareEntry)) (rl : Relation) (r : nat)
  : list (Normalized RelativeMiddlewareEntry) :=
  filter (fun e => ref <$> anchorOf nm e = Some r
                   /\ relation (rel_location (entry e)) = rl) nrel.

Definition absoluteNode (y : NormalizedEntry) : Prop := is_absolute (entry y) = true.

#[global] Instance absoluteNode_dec y : Decision (absoluteNode y).
Proof. unfold absoluteNode. apply _. Defined.

Section ExpansionSpec.
(** A resolution of [n] absolute entries and the relative entries [rel],
    normalized after them, with the name map [nm]. *)
Variable n : nat.
Variable rel : list RelativeMiddlewareEntry.
Variable nm : gmap string NormalizedEntry.

(** The reference of the anchor of the relative entry of reference [c];
    an absolute entry has no anchor. *)
Definition parentRef (c : nat) : option nat :=
  if c <? n then None
  else match (normalizeRelative n rel) !! (c - n) with
       | Some e => ref <$> anchorOf nm e
       | None => None
       end.

(** A path from an entry up to an absolute entry, following anchors. *)
Inductive Lineage : list nat -> Prop :=
| Lineage_root a : a < n -> Lineage [a]
| Lineage_child c p path :
    n <= c -> parentRef c = Some p -> Lineage (p :: path) ->
    Lineage (c :: p :: path).

(** The expansion, as the specification words it:

    An entry expands to the expansions of the entries attached before it,
    in registration order, then the entry itself, then the expansions of
    the entries attached after it, in reverse registration order. *)
Inductive Expansion : NormalizedEntry -> list NormalizedEntry -> Prop :=
| Expansion_entry x bs afs :
    Expansions (childrenOf nm (normalizeRelative n rel) Before (ref x)) bs ->
    Expansions (rev (childrenOf nm (normalizeRelative n rel) After (ref x))) afs ->
    Expansion x (bs ++ [x] ++ afs)
with Expansions
  : list (Normalized RelativeMiddlewareEntry) -> list NormalizedEntry -> Prop :=
| Expansions_nil : Expansions [] []
| Expansions_cons c cs l ls :
    Expansion (asRelative c) l -> Expansions cs ls ->
    Expansions (c :: cs) (l ++ ls).

Scheme Expansion_mut := Minimality for Expansion Sort Prop
  with Expansions_mut := Minimality for Expansions Sort Prop.

(** A relative entry whose anchor resolves. *)
Definition attached (c : Normalized RelativeMiddlewareEntry) : Prop :=
  c ∈ (normalizeRelative n rel) /\ is_Some (anchorOf nm c).

(** The anchor of the anchor ... of [c], [k] steps up. *)
Fixpoint ancestor (k : nat) (c : nat) : option nat :=
  match k with
  | 0 => Some c
  | S k' =>
      match parentRef c with
      | Some p => ancestor k' p
      | None => None
      end
  end.
End ExpansionSpec.

(** The subsequence of absolute entries of a chain. *)
Definition absolutePart (chain : list MiddlewareEntry) : list AbsoluteMiddlewareEntry :=
  omap (fun e => match e with Absolute a => Some a | Relative _ => None end) chain.

Definition pushAbsolute (entry : AbsoluteMiddlewareEntry) (s : Stack) : Stack :=
  set_cachedMiddlewareList None (set_absoluteEntries (absoluteEntries s ++ [entry]) s).

Definition pushRelative (entry : RelativeMiddlewareEntry) (s : Stack) : Stack :=
  set_cachedMiddlewareList None (set_relativeEntries (relativeEntries s ++ [entry]) s).

Definition reserve (names : list string) (s : Stack) : Stack :=
  set_entriesNameSet (addNames names (entriesNameSet s)) s.

(** No entry, absolute or relative, bears the name [a]. *)
Definition unnamed (absEntries : list AbsoluteMiddlewareEntry)
    (relEntries : list RelativeMiddlewareEntry) (a : string) : Prop :=
  Forall (fun e => a ∉ entry_aliases (Absolute e)) absEntries
  /\ Forall (fun e => a ∉ entry_aliases (Relative e)) relEntries.

(** The attachment loop stops at [e] with an exception: its anchor, a
    non-empty name, is stored under no key, and is found along the prototype
    chain or, in execution mode, not found at all. *)
Definition stopsAt (debug : bool) (nm : gmap string NormalizedEntry)
    (e : Normalized RelativeMiddlewareEntry) : Prop :=
  truthy (toMiddleware (rel_location (entry e))) = true
  /\ nm !! toMiddleware (rel_location (entry e)) = None
  /\ (inherits nm (toMiddleware (rel_location (entry e))) = true \/ debug = false).

#[global] Instance stopsAt_dec debug nm e : Decision (stopsAt debug nm e).
Proof. unfold stopsAt. apply _. Defined.

(** The exception the loop stops with. *)
Definition stopError (nm : gmap string NormalizedEntry)
    (e : Normalized RelativeMiddlewareEntry) : Error :=
  if inherits nm (toMiddleware (rel_location (entry e)))
  then typeError
  else anchorNotFoundError (entry e).

(** The entry registered last that bears the name [a]. *)
Definition lastBearer (a : string) (l : list MiddlewareEntry) : option MiddlewareEntry :=
  last (filter (fun e => a ∈ entry_aliases e) l).

(** The name [a] is the name of a property found along the prototype chain
    of the name map of a resolution: a property of the entry registered last
    under ["__proto__"], relative entries counting as registered after the
    absolute ones, or a property of [Object.prototype]. *)
Definition inheritedName (absEntries : list AbsoluteMiddlewareEntry)
    (relEntries : list RelativeMiddlewareEntry) (a : string) : Prop :=
  (exists p, lastBearer "__proto__" (map Absolute absEntries ++ map Relative relEntries)
             = Some p
             /\ a ∈ ownKeys p)
  \/ a ∈ objectPrototypeKeys.

(** A relative entry whose anchor, a non-empty name, is borne by no entry. *)
Definition anchorMissing (absEntries : list AbsoluteMiddlewareEntry)
    (relEntries : list RelativeMiddlewareEntry) (e : RelativeMiddlewareEntry) : Prop :=
  truthy (toMiddleware (rel_location e)) = true
  /\ unnamed absEntries relEntries (toMiddleware (rel_location e)).

#[global] Instance unnamed_dec absEntries relEntries a :
  Decision (unnamed absEntries relEntries a).
Proof. unfold unnamed. apply _. Defined.

#[global] Instance anchorMissing_dec absEntries relEntries e :
  Decision (anchorMissing absEntries relEntries e).
Proof. unfold anchorMissing. apply _. Defined.

Definition entriesOf (s : Stack) : list MiddlewareEntry :=
  map Absolute (absoluteEntries s) ++ map Relative (relativeEntries s).

(** The alias loop of [add] and of [addRelativeTo] on the list of entries
    alone: the list reached, and the entry that stopped the loop, if any. *)
Fixpoint overrideLoop {E} (bears : string -> E -> bool) (mismatch : E -> bool)
    (names : list string) (l : list E) : list E * option E :=
  match names with
  | [] => (l, None)
  | a :: names' =>
      match findIndex (bears a) l with
      | None => overrideLoop bears mismatch names' l
      | Some (i, t) =>
          if mismatch t then (l, Some t)
          else overrideLoop bears mismatch names' (delete i l)
      end
  end.

(** The entry bears one of the names. *)
Definition bearsAny (names : list string) (o : HandlerOptions) : bool :=
  existsb (fun a => bearsAlias a o) names.

(** No two entries of the list bear the same one of the names. *)
Definition bornOnce {E} (opts : E -> HandlerOptions) (names : list string)
    (l : list E) : Prop :=
  forall a, a ∈ names ->
    length (filter (fun x => bearsAlias a (opts x) = true) l) <= 1.

(** ** Names, removals and normalized entries *)

(** The names and aliases of the registered entries, absolute entries
    first, in registration order. *)
Definition namesOf (s : Stack) : list string :=
  concat (map entry_aliases (entriesOf s)).

(** Every reserved name is borne by an entry, every name borne is reserved,
    and no name is borne twice. *)
Definition wellNamed (s : Stack) : Prop :=
  NoDup (namesOf s) /\ entriesNameSet s = list_to_set (namesOf s).

(** No entry was registered with a truthy [override]. *)
Definition overrideFree (l : list MiddlewareEntry) : Prop :=
  Forall (fun e => truthy_flag (override (entry_options e)) = false) l.

(** [out] is what removing the entries selected by [hit] makes of [s]: the
    entries selected are gone and the others stay in order, the names of the
    entries selected are no longer reserved and the other reserved names
    stay, the cache is dropped if an entry was selected, and the value
    returned tells whether one was; if none was, nothing has changed. *)
Definition removes (hit : MiddlewareEntry -> bool) (s : Stack)
    (out : Stack * Result bool) : Prop :=
  let removed := filter (fun e => hit e = true) (entriesOf s) in
  snd out = Returned (bool_decide (removed <> []))
  /\ entriesOf (fst out) = filter (fun e => hit e = false) (entriesOf s)
  /\ (forall a, a ∈ entriesNameSet (fst out)
                <-> a ∈ entriesNameSet s
                    /\ forall e, e ∈ removed -> a ∉ entry_aliases e)
  /\ identifyOnResolve (fst out) = identifyOnResolve s
  /\ (removed <> [] -> cachedMiddlewareList (fst out) = None)
  /\ (removed = [] -> fst out = s).

(** The names and aliases of every registered entry are reserved. *)
Definition namesReserved (s : Stack) : Prop :=
  forall e a, e ∈ entriesOf s -> a ∈ entry_aliases e -> a ∈ entriesNameSet s.

(** From [s] to [s'] no reserved name is given back, and the names of the
    registered entries stay reserved if they were. *)
Definition keepsNames (s s' : Stack) : Prop :=
  (forall a, a ∈ entriesNameSet s -> a ∈ entriesNameSet s')
  /\ (namesReserved s -> namesReserved s').

(** One call of the public interface that neither sets [override] nor
    transfers entries in bulk: the state it leaves, whether it returns or
    throws. *)
Inductive plainCall : Stack -> Stack -> Prop :=
| call_add mw location o s :
    truthy_flag (override o) = false -> plainCall s (fst (add mw location o s))
| call_addRelativeTo mw location o s :
    truthy_flag (override o) = false -> plainCall s (fst (addRelativeTo mw location o s))
| call_remove toRemove s : plainCall s (fst (remove toRemove s))
| call_removeByTag toRemove s : plainCall s (fst (removeByTag toRemove s))
| call_identify s : plainCall s (fst (identify s))
| call_identifyOnResolve toggle s : plainCall s (fst (identifyOnResolveMethod toggle s))
| call_resolve (Handler Context : Type)
    (invoke : MiddlewareType -> Handler -> Context -> Handler)
    (handler : Handler) (context : Context) s :
    plainCall s (fst (resolve Handler Context invoke handler context s)).

(** The states a fresh stack reaches by such calls. *)
Definition plainlyReachable (s : Stack) : Prop := rtc plainCall constructStack s.

(** The normalized copies a resolution makes of the registered entries. *)
Definition normalizedEntries (absEntries : list AbsoluteMiddlewareEntry)
    (relEntries : list RelativeMiddlewareEntry) : list NormalizedEntry :=
  map asAbsolute (normalizeAbsolute absEntries)
  ++ map asRelative (normalizeRelative (length absEntries) relEntries).

(** ** Worked registries *)

Definition named (n : string) : HandlerOptions :=
  {| name := Some n; aliases := None; tags := None; override := None |}.

Definition overriding (n : string) (al : list string) : HandlerOptions :=
  {| name := Some n; aliases := Some al; tags := None; override := Some true |}.

Definition inStep (st : Step) : AbsoluteLocation :=
  {| o_step := Some st; o_priority := None |}.

Definition entryA : AbsoluteMiddlewareEntry :=
  makeAbsoluteEntry 1 (inStep initialize) (named "A").

Definition entryB : AbsoluteMiddlewareEntry :=
  makeAbsoluteEntry 2 (inStep serialize) (named "B").

Definition entryC : AbsoluteMiddlewareEntry :=
  makeAbsoluteEntry 3 (inStep build) (named "C").

(** [add A; add B; resolve]: the chain [A; B] is cached. *)
Definition stackAB : Stack :=
  fst ((add 1 (inStep initialize) (named "A") ;;;
        add 2 (inStep serialize) (named "B") ;;;
        getMiddlewareList false) constructStack).

(** Overrides [A], which matches, and [B], which does not. *)
Definition overrideAB : M unit :=
  add 4 (inStep initialize) (overriding "A" ["B"]).

(** [add A; resolve]: the chain [A] is cached. *)
Definition stackA : Stack :=
  fst ((add 1 (inStep initialize) (named "A") ;;; getMiddlewareList false) constructStack).

(** Two entries of equal step and priority. *)
Definition entryA' : AbsoluteMiddlewareEntry :=
  makeAbsoluteEntry 5 (inStep initialize) (named "A'").

Definition stackAA' : Stack :=
  fst ((add 1 (inStep initialize) (named "A") ;;;
        add 5 (inStep initialize) (named "A'")) constructStack).

Definition entryX : RelativeMiddlewareEntry :=
  makeRelativeEntry 6 {| relation := Before; toMiddleware := "A" |} (named "X").

Definition stackAX : Stack :=
  fst ((add 1 (inStep initialize) (named "A") ;;;
        addRelativeTo 6 {| relation := Before; toMiddleware := "A" |} (named "X"))
       constructStack).

(** [Y] and [Z] are anchored to each other, [W] to itself. *)
Definition entryY : RelativeMiddlewareEntry :=
  makeRelativeEntry 7 {| relation := Before; toMiddleware := "Z" |} (named "Y").

Definition entryZ : RelativeMiddlewareEntry :=
  makeRelativeEntry 8 {| relation := After; toMiddleware := "Y" |} (named "Z").

Definition entryW : RelativeMiddlewareEntry :=
  makeRelativeEntry 9 {| relation := Before; toMiddleware := "W" |} (named "W").

Definition cyclicStack : Stack :=
  fst ((add 1 (inStep initialize) (named "A") ;;;
        addRelativeTo 7 {| relation := Before; toMiddleware := "Z" |} (named "Y") ;;;
        addRelativeTo 8 {| relation := After; toMiddleware := "Y" |} (named "Z") ;;;
        addRelativeTo 9 {| relation := Before; toMiddleware := "W" |} (named "W"))
       constructStack).

(** A registry of its own, holding [B] alone. *)
Definition stackB : Stack :=
  fst (add 2 (inStep serialize) (named "B") constructStack).



(** [C], [A], [A'], [B] registered in this order, then [X] before [A]. *)
Definition stackCAA'BX : Stack :=
  fst ((add 3 (inStep build) (named "C") ;;;
        add 1 (inStep initialize) (named "A") ;;;
        add 5 (inStep initialize) (named "A'") ;;;
        add 2 (inStep serialize) (named "B") ;;;
        addRelativeTo 6 {| relation := Before; toMiddleware := "A" |} (named "X"))
       constructStack).

(** The normalized entries of its chain. *)
Definition resolvedNodes : list NormalizedEntry :=
  [ {| ref := 4; entry := Relative entryX |};
    {| ref := 1; entry := Absolute entryA |};
    {| ref := 2; entry := Absolute entryA' |};
    {| ref := 3; entry := Absolute entryB |};
    {| ref := 0; entry := Absolute entryC |} ].

Definition anonymousOptions : HandlerOptions :=
  {| name := None; aliases := Some []; tags := Some ["t"]; override := Some false |}.

(** Options whose name is the empty string. *)
Definition emptyNameOptions : HandlerOptions :=
  {| name := Some EmptyString; aliases := None; tags := None; override := None |}.

Definition entryE : AbsoluteMiddlewareEntry :=
  makeAbsoluteEntry 16 (inStep initialize) emptyNameOptions.

(** [add A; add E], where [E] has the empty string for a name. *)
Definition stackAE : Stack :=
  fst ((add 1 (inStep initialize) (named "A") ;;;
        add 16 (inStep initialize) emptyNameOptions) constructStack).

(** A relative entry anchored to a name of [Object.prototype]. *)
Definition entryT : RelativeMiddlewareEntry :=
  makeRelativeEntry 14 {| relation := After; toMiddleware := "toString" |} (named "T").

Definition inheritedAnchorStack : Stack :=
  fst ((add 1 (inStep initialize) (named "A") ;;;
        addRelativeTo 14 {| relation := After; toMiddleware := "toString" |} (named "T"))
       constructStack).



(** The cached chain, if any, is the chain the registry resolves to. *)
Definition cacheConsistent (s : Stack) : Prop :=
  forall cached, cachedMiddlewareList s = Some cached ->
    exists nodes,
      resolveEntries (callDepth s) false (absoluteEntries s) (relativeEntries s)
      = Returned nodes
      /\ cached = map entry nodes.

(** Two registry states that differ in the cached chain at most. *)
Definition sameRegistry (s1 s2 : Stack) : Prop :=
  absoluteEntries s1 = absoluteEntries s2
  /\ relativeEntries s1 = relativeEntries s2
  /\ identifyOnResolve s1 = identifyOnResolve s2
  /\ entriesNameSet s1 = entriesNameSet s2.

(** Two computations that do the same to the registry, cache apart. *)
Definition sameEffect {A} (f g : M A) : Prop :=
  forall s1 s2, sameRegistry s1 s2 ->
    snd (f s1) = snd (g s2) /\ sameRegistry (fst (f s1)) (fst (g s2)).

(** * Properties *)

(** ** The sort *)

Lemma stepWeights_inj a b : stepWeights a = stepWeights b -> a = b.
Proof. destruct a, b; simpl; intros H; try reflexivity; discriminate H. Qed.

Lemma priorityWeights_inj a b : priorityWeights a = priorityWeights b -> a = b.
Proof. destruct a, b; simpl; intros H; try reflexivity; discriminate H. Qed.

Lemma compareEntries_pos a b :
  (0 < compareEntries a b)%Z <-> ~ precedes a b.
Proof.
  unfold compareEntries, precedes.
  destruct (Z.eqb_spec (stepWeights (step b) - stepWeights (step a)) 0) as [E|E].
  - assert (step a = step b) by (apply stepWeights_inj; lia).
    split; [intros H1 [H2|[_ H2]]; lia | intros H1].
    destruct (Z_lt_le_dec 0 (priorityWeights (priority b) - priorityWeights (priority a)));
      [assumption | exfalso; apply H1; right; split; [assumption | lia]].
  - split; [intros H1 [H2|[H2 _]]; [lia | rewrite H2 in E; lia] | intros H1].
    destruct (Z_lt_le_dec 0 (stepWeights (step b) - stepWeights (step a)));
      [assumption | exfalso; apply H1; left; lia].
Qed.

Lemma precedes_refl a : precedes a a.
Proof. right. split; [reflexivity | lia]. Qed.

Lemma precedes_total a b : precedes a b \/ precedes b a.
Proof.
  unfold precedes.
  destruct (Z_lt_le_dec (stepWeights (step b)) (stepWeights (step a))); [tauto|].
  destruct (Z_lt_le_dec (stepWeights (step a)) (stepWeights (step b))); [tauto|].
  assert (step a = step b) as -> by (apply stepWeights_inj; lia).
  destruct (Z_lt_le_dec (priorityWeights (priority a)) (priorityWeights (priority b)));
    [right | left]; right; split; (reflexivity || lia).
Qed.

Lemma precedes_trans a b c : precedes a b -> precedes b c -> precedes a c.
Proof.
  unfold precedes. intros [H1|[H1 H1']] [H2|[H2 H2']].
  - left; lia.
  - left; rewrite <- H2; lia.
  - left; rewrite H1; lia.
  - right; split; [congruence | lia].
Qed.

Lemma precedes_sameKey st pr a b :
  sameKey st pr a -> sameKey st pr b -> precedes a b.
Proof. intros [<- <-] [E1 E2]. right. rewrite E1, E2. split; [reflexivity | lia]. Qed.

Lemma sort_insert_Permutation x l : sort_insert x l ≡ₚ x :: l.
Proof.
  induction l as [|y l IH]; simpl; [reflexivity|].
  destruct (0 <? compareEntries (entry x) (entry y))%Z; [|reflexivity].
  rewrite IH. apply perm_swap.
Qed.

Lemma sort_Permutation l : sort l ≡ₚ l.
Proof.
  induction l as [|x l IH]; simpl; [reflexivity|].
  rewrite sort_insert_Permutation. by rewrite IH.
Qed.

Lemma sort_insert_sorted x l :
  StronglySorted nodePrecedes l -> StronglySorted nodePrecedes (sort_insert x l).
Proof.
  induction 1 as [|y l Hs IH Hy]; simpl; [repeat constructor|].
  destruct (Z.ltb_spec 0 (compareEntries (entry x) (entry y))) as [Hc|Hc].
  - constructor; [assumption|].
    rewrite sort_insert_Permutation. constructor; [|assumption].
    apply compareEntries_pos in Hc.
    destruct (precedes_total (entry x) (entry y)); [contradiction | assumption].
  - assert (precedes (entry x) (entry y)) as Hxy.
    { destruct (precedes_total (entry x) (entry y)) as [H|H]; [assumption|].
      destruct (decide (precedes (entry x) (entry y))) as [H'|H'] ; [assumption|].
      apply compareEntries_pos in H'. lia. }
    constructor; [by constructor|].
    constructor; [assumption|].
    eapply Forall_impl; [exact Hy|].
    intros z Hz. eapply precedes_trans; eassumption.
Qed.

Lemma sort_sorted l : StronglySorted nodePrecedes (sort l).
Proof.
  induction l as [|x l IH]; simpl; [constructor | by apply sort_insert_sorted].
Qed.

Lemma sort_insert_stable st pr x l :
  filter (fun n => sameKey st pr (entry n)) (sort_insert x l)
  = filter (fun n => sameKey st pr (entry n)) (x :: l).
Proof.
  induction l as [|y l IH]; simpl; [reflexivity|].
  destruct (Z.ltb_spec 0 (compareEntries (entry x) (entry y))) as [Hc|Hc]; [|reflexivity].
  apply compareEntries_pos in Hc.
  rewrite (filter_cons _ y (sort_insert x l)), IH.
  rewrite !filter_cons.
  destruct (decide (sameKey st pr (entry y))) as [Hy|Hy];
    destruct (decide (sameKey st pr (entry x))) as [Hx|Hx]; try reflexivity.
  exfalso. apply Hc. eapply precedes_sameKey; eassumption.
Qed.

Lemma sort_stable st pr l :
  filter (fun n => sameKey st pr (entry n)) (sort l)
  = filter (fun n => sameKey st pr (entry n)) l.
Proof.
  induction l as [|x l IH]; simpl; [reflexivity|].
  rewrite sort_insert_stable, !filter_cons, IH. reflexivity.
Qed.

Lemma precedes_antisym a b :
  precedes a b -> precedes b a -> sameKey (step a) (priority a) b.
Proof.
  unfold precedes, sameKey. intros [H1|[H1 H1']] [H2|[H2 H2']]; try lia.
  - rewrite H2 in H1. lia.
  - rewrite H1 in H2. lia.
  - split; [congruence|]. apply priorityWeights_inj. lia.
Qed.

(** The list a stable sort returns is determined by the order and by the
    registration order among entries of equal step and priority: whatever
    algorithm [Array.prototype.sort] runs, it returns what [sort] returns. *)
Lemma stable_sort_unique (l1 l2 : list (Normalized AbsoluteMiddlewareEntry)) :
  StronglySorted nodePrecedes l1 ->
  StronglySorted nodePrecedes l2 ->
  (forall st pr,
     filter (fun n => sameKey st pr (entry n)) l1
     = filter (fun n => sameKey st pr (entry n)) l2) ->
  l1 = l2.
Proof.
  intros H1. revert l2. induction H1 as [|x l1 Hs1 IH Hx]; intros l2 H2 Hf.
  - destruct l2 as [|y l2]; [reflexivity|].
    specialize (Hf (step (entry y)) (priority (entry y))).
    rewrite filter_nil, filter_cons_True in Hf by (by split). discriminate.
  - destruct H2 as [|y l2 Hs2 Hy].
    { specialize (Hf (step (entry x)) (priority (entry x))).
      rewrite filter_nil, filter_cons_True in Hf by (by split). discriminate. }
    assert (sameKey (step (entry x)) (priority (entry x)) (entry y)) as Hxy.
    { apply precedes_antisym.
      - pose proof (Hf (step (entry y)) (priority (entry y))) as Hk.
        rewrite (filter_cons_True _ y l2) in Hk by (by split).
        assert (y ∈ filter (fun n => sameKey (step (entry y)) (priority (entry y)) (entry n))
                      (x :: l1)) as Hin by (rewrite Hk; left).
        apply list_elem_of_filter in Hin as [_ Hin].
        apply elem_of_cons in Hin as [->|Hin]; [apply precedes_refl|].
        rewrite Forall_forall in Hx. by apply Hx.
      - pose proof (Hf (step (entry x)) (priority (entry x))) as Hk.
        rewrite (filter_cons_True _ x l1) in Hk by (by split).
        assert (x ∈ filter (fun n => sameKey (step (entry x)) (priority (entry x)) (entry n))
                      (y :: l2)) as Hin by (rewrite <- Hk; left).
        apply list_elem_of_filter in Hin as [_ Hin].
        apply elem_of_cons in Hin as [->|Hin]; [apply precedes_refl|].
        rewrite Forall_forall in Hy. by apply Hy. }
    pose proof (Hf (step (entry x)) (priority (entry x))) as Hk.
    rewrite (filter_cons_True _ x l1), (filter_cons_True _ y l2) in Hk
      by (assumption || by split).
    inversion Hk; subst y. f_equal. apply IH; [assumption|].
    intros st pr. specialize (Hf st pr). rewrite !filter_cons in Hf.
    case_decide; [by inversion Hf | assumption].
Qed.

Lemma sort_is_the_stable_sort (l l' : list (Normalized AbsoluteMiddlewareEntry)) :
  StronglySorted nodePrecedes l' ->
  (forall st pr,
     filter (fun n => sameKey st pr (entry n)) l'
     = filter (fun n => sameKey st pr (entry n)) l) ->
  l' = sort l.
Proof.
  intros Hs Hf. apply stable_sort_unique; [assumption | apply sort_sorted|].
  intros st pr. by rewrite Hf, sort_stable.
Qed.

(** ** The links built by a resolution *)

Lemma beforeOf_pushBefore t e h r :
  beforeOf (pushBefore t e h) r
  = if decide (t = r) then beforeOf h r ++ [e] else beforeOf h r.
Proof.
  unfold beforeOf at 1, pushBefore; simpl. rewrite lookup_insert.
  destruct (decide (t = r)) as [->|]; reflexivity.
Qed.

Lemma afterOf_pushAfter t e h r :
  afterOf (pushAfter t e h) r
  = if decide (t = r) then afterOf h r ++ [e] else afterOf h r.
Proof.
  unfold afterOf at 1, pushAfter; simpl. rewrite lookup_insert.
  destruct (decide (t = r)) as [->|]; reflexivity.
Qed.

Lemma childrenOf_singleton nm e rl r :
  childrenOf nm [e] rl r
  = if decide (ref <$> anchorOf nm e = Some r
               /\ relation (rel_location (entry e)) = rl)
    then [e] else [].
Proof. unfold childrenOf. by rewrite filter_cons, filter_nil. Qed.

Ltac links_cases :=
  repeat case_decide; simpl in *;
  try (by rewrite ?app_nil_r);
  try (exfalso; intuition congruence);
  try (exfalso; match goal with H : ~ _ |- _ => apply H; split; congruence end).

Lemma attach_links debug nm e h h' :
  attach debug nm e h = Returned h' ->
  forall r, beforeOf h' r = beforeOf h r ++ childrenOf nm [e] Before r
         /\ afterOf h' r = afterOf h r ++ childrenOf nm [e] After r.
Proof.
  intros H r. rewrite !childrenOf_singleton.
  unfold attach, getProperty in H. unfold anchorOf.
  destruct (truthy (toMiddleware (rel_location (entry e)))).
  2:{ inversion H; subst. split; links_cases. }
  destruct (nm !! toMiddleware (rel_location (entry e))) as [target|] eqn:Hl.
  2:{ destruct (inherits _ _); [discriminate|].
      destruct debug; inversion H; subst. split; links_cases. }
  destruct (relation (rel_location (entry e))) eqn:Hr;
    inversion H; subst; simpl.
  - rewrite beforeOf_pushBefore. unfold afterOf at 1; simpl. split; links_cases.
  - rewrite afterOf_pushAfter. unfold beforeOf at 1; simpl. split; links_cases.
Qed.

Lemma attachAll_links debug nm l : forall h h',
  attachAll debug nm l h = Returned h' ->
  forall r, beforeOf h' r = beforeOf h r ++ childrenOf nm l Before r
         /\ afterOf h' r = afterOf h r ++ childrenOf nm l After r.
Proof.
  induction l as [|e l IH]; simpl; intros h h' H r.
  - inversion H; subst. unfold childrenOf. rewrite !filter_nil, !app_nil_r. done.
  - destruct (attach debug nm e h) as [h1|] eqn:Ha; [|discriminate].
    destruct (attach_links _ _ _ _ _ Ha r) as [Hb1 Ha1].
    destruct (IH _ _ H r) as [Hb2 Ha2].
    rewrite Hb2, Ha2, Hb1, Ha1. unfold childrenOf.
    rewrite !(filter_cons _ e l), <- !app_assoc.
    split; f_equal; rewrite filter_cons, filter_nil; by case_decide.
Qed.

Lemma beforeOf_emptyHeap r : beforeOf emptyHeap r = [].
Proof. reflexivity. Qed.

Lemma afterOf_emptyHeap r : afterOf emptyHeap r = [].
Proof. reflexivity. Qed.

(** After the attachment loop the [before] and [after] arrays are exactly
    the attached entries, in registration order. *)
Lemma attachAll_children debug nm l h :
  attachAll debug nm l emptyHeap = Returned h ->
  forall r, beforeOf h r = childrenOf nm l Before r
         /\ afterOf h r = childrenOf nm l After r.
Proof.
  intros H r. destruct (attachAll_links _ _ _ _ _ H r) as [-> ->].
  by rewrite beforeOf_emptyHeap, afterOf_emptyHeap.
Qed.

(** A turn of the loop throws exactly where the loop stops. *)
Lemma attach_stops debug nm e h :
  stopsAt debug nm e -> attach debug nm e h = Thrown (stopError nm e).
Proof.
  unfold stopsAt, stopError, attach, getProperty. intros (-> & -> & Hstop).
  destruct (inherits _ _); [reflexivity|].
  destruct Hstop as [?| ->]; [discriminate | reflexivity].
Qed.

Lemma attach_goes_on debug nm e h :
  ~ stopsAt debug nm e -> exists h', attach debug nm e h = Returned h'.
Proof.
  unfold stopsAt, attach, getProperty. intros Hgo.
  destruct (truthy _); [|eauto].
  destruct (nm !! _); [destruct (relation _); eauto|].
  destruct (inherits _ _); [exfalso; apply Hgo; auto|].
  destruct debug; [eauto|]. exfalso. apply Hgo. auto.
Qed.

(** The loop returns when it stops nowhere. *)
Lemma attachAll_goes_on debug nm l :
  Forall (fun e => ~ stopsAt debug nm e) l ->
  forall h, exists h', attachAll debug nm l h = Returned h'.
Proof.
  induction 1 as [|e l He _ IH]; simpl; intros h; [eauto|].
  destruct (attach_goes_on debug nm e h He) as [h1 ->]. apply IH.
Qed.

(** The loop throws at the first entry it stops at. *)
Lemma attachAll_stops debug nm l1 e l2 :
  Forall (fun x => ~ stopsAt debug nm x) l1 -> stopsAt debug nm e ->
  forall h, attachAll debug nm (l1 ++ e :: l2) h = Thrown (stopError nm e).
Proof.
  induction 1 as [|x l1 Hx _ IH]; simpl; intros He h.
  - by rewrite attach_stops.
  - destruct (attach_goes_on debug nm x h Hx) as [h1 ->]. by apply IH.
Qed.

(** A list splits at the first entry the loop stops at, if there is one. *)
Lemma first_stop debug nm l :
  Forall (fun e => ~ stopsAt debug nm e) l
  \/ exists l1 e l2,
       l = l1 ++ e :: l2
       /\ Forall (fun x => ~ stopsAt debug nm x) l1 /\ stopsAt debug nm e.
Proof.
  induction l as [|x l IH]; [left; constructor|].
  destruct (decide (stopsAt debug nm x)) as [Hx|Hx].
  - right. exists [], x, l. split; [reflexivity|]. split; [constructor | assumption].
  - destruct IH as [IH|(l1 & e & l2 & -> & Hl1 & He)].
    + left. by constructor.
    + right. exists (x :: l1), e, l2. split; [reflexivity|].
      split; [by constructor | assumption].
Qed.

(** ** Termination of the expansion *)

Lemma normalizeRelative_lookup n rel i :
  normalizeRelative n rel !! i = (fun e => {| ref := n + i; entry := e |}) <$> rel !! i.
Proof. unfold normalizeRelative. by rewrite list_lookup_imap. Qed.

Lemma normalizeAbsolute_lookup l i :
  normalizeAbsolute l !! i = (fun e => {| ref := i; entry := e |}) <$> l !! i.
Proof. unfold normalizeAbsolute. by rewrite list_lookup_imap. Qed.

Lemma elem_of_rev {A} (x : A) (l : list A) : x ∈ rev l <-> x ∈ l.
Proof. rewrite !list_elem_of_In. symmetry. apply in_rev. Qed.

Section Expansion.
(** A heap as the attachment loop leaves it: [n] absolute entries, the
    relative entries [rel] normalized after them, and [before]/[after]
    arrays holding exactly the attached entries. *)
Variable n : nat.
Variable rel : list RelativeMiddlewareEntry.
Variable nm : gmap string NormalizedEntry.
Variable h : Heap.

Hypothesis h_before :
  forall r, beforeOf h r = childrenOf nm (normalizeRelative n rel) Before r.
Hypothesis h_after :
  forall r, afterOf h r = childrenOf nm (normalizeRelative n rel) After r.

Lemma childrenOf_parent rl r e :
  e ∈ childrenOf nm (normalizeRelative n rel) rl r ->
  n <= ref e /\ parentRef n rel nm (ref e) = Some r /\ e ∈ normalizeRelative n rel.
Proof.
  unfold childrenOf. rewrite list_elem_of_filter. intros [[Hp _] Hin].
  pose proof Hin as Hin'. apply list_elem_of_lookup in Hin as [i Hi].
  pose proof Hi as Hi'. rewrite normalizeRelative_lookup in Hi.
  destruct (rel !! i) as [x|]; simpl in Hi; [|discriminate].
  inversion Hi; subst e; simpl in *.
  split; [lia|]. split; [|assumption].
  unfold parentRef. destruct (Nat.ltb_spec (n + i) n) as [?|_]; [lia|].
  replace (n + i - n) with i by lia. by rewrite Hi'.
Qed.

Lemma child_parent e r :
  e ∈ beforeOf h r \/ e ∈ afterOf h r ->
  n <= ref e /\ parentRef n rel nm (ref e) = Some r /\ e ∈ normalizeRelative n rel.
Proof.
  rewrite h_before, h_after. intros [H|H]; eapply childrenOf_parent; exact H.
Qed.

Lemma parentRef_range c p : n <= c -> parentRef n rel nm c = Some p -> c < n + length rel.
Proof.
  unfold parentRef. intros Hc H.
  destruct (c <? n); [discriminate|].
  destruct ((normalizeRelative n rel) !! (c - n)) as [e|] eqn:He; [|discriminate].
  apply lookup_lt_Some in He. unfold normalizeRelative in He.
  rewrite length_imap in He. lia.
Qed.

Lemma Lineage_shape path :
  Lineage n rel nm path ->
  exists l a, path = l ++ [a] /\ a < n
              /\ Forall (fun c => c ∈ seq n (length rel)) l.
Proof.
  induction 1 as [a Ha|c p path Hc Hp _ (l & a & E & Ha & Hl)].
  - exists [], a. repeat split; [assumption | constructor].
  - exists (c :: l), a. rewrite E. repeat split; [assumption|].
    constructor; [|assumption].
    apply elem_of_seq. split; [assumption|]. eapply parentRef_range; eassumption.
Qed.

Lemma Lineage_length path :
  Lineage n rel nm path -> NoDup path -> length path <= S (length rel).
Proof.
  intros (l & a & -> & _ & Hl)%Lineage_shape Hnd.
  apply NoDup_app in Hnd as (Hnd & _ & _).
  rewrite length_app; simpl.
  assert (length l <= length (seq n (length rel))) as Hle.
  { apply submseteq_length, NoDup_submseteq; [assumption|].
    by apply Forall_forall. }
  rewrite length_seq in Hle. lia.
Qed.

Lemma Lineage_successor path c :
  Lineage n rel nm path -> c ∈ path -> n <= c ->
  exists l1 q l2, path = l1 ++ c :: q :: l2 /\ parentRef n rel nm c = Some q.
Proof.
  induction 1 as [a Ha|c0 p path Hc0 Hp Hl IH]; intros Hin Hc.
  - apply list_elem_of_singleton in Hin. lia.
  - apply elem_of_cons in Hin as [->|Hin].
    + exists [], p, path. split; [reflexivity | assumption].
    + destruct (IH Hin Hc) as (l1 & q & l2 & E & Hq).
      exists (c0 :: l1), q, l2. rewrite E. split; [reflexivity | assumption].
Qed.

Lemma Lineage_fresh x path c :
  Lineage n rel nm (x :: path) -> NoDup (x :: path) ->
  n <= c -> parentRef n rel nm c = Some x -> c ∉ x :: path.
Proof.
  intros Hl Hnd Hc Hp Hin.
  destruct (Lineage_successor _ _ Hl Hin Hc) as (l1 & q & l2 & E & Hq).
  assert (q = x) as -> by congruence.
  apply NoDup_cons in Hnd as [Hx _]. apply Hx.
  destruct l1 as [|y l1]; simpl in E; inversion E; subst.
  - left.
  - apply elem_of_app. right. right. left.
Qed.

(** Entered at the end of a lineage that leaves enough fuel for the
    entries not yet on it, the expansion returns. *)
Lemma expand_lineage fuel : forall x path,
  Lineage n rel nm (ref x :: path) -> NoDup (ref x :: path) ->
  S (length rel) < fuel + length (ref x :: path) ->
  is_Some (expandRelativeMiddlewareList fuel h x).
Proof.
  induction fuel as [|fuel IH]; intros x path Hl Hnd Hf.
  - pose proof (Lineage_length _ Hl Hnd). simpl in *. lia.
  - assert (forall c, c ∈ beforeOf h (ref x) \/ c ∈ afterOf h (ref x) ->
              is_Some (if (length (beforeOf h (ref c)) =? 0)
                          && (length (afterOf h (ref c)) =? 0)
                       then Some [asRelative c]
                       else expandRelativeMiddlewareList fuel h (asRelative c)))
      as Hvisit.
    { intros c Hc. destruct (child_parent _ _ Hc) as (Hn & Hp & _).
      case_match; [eauto|].
      apply (IH (asRelative c) (ref x :: path)); simpl.
      - by constructor.
      - apply NoDup_cons. split; [|assumption]. by apply Lineage_fresh.
      - simpl in Hf. lia. }
    simpl.
    match goal with |- context [mapM ?f (beforeOf h (ref x))] =>
      assert (is_Some (mapM f (beforeOf h (ref x)))) as [bs ->] end.
    { apply mapM_is_Some, Forall_forall. intros c Hc.
      unfold compose. apply Hvisit. by left. }
    match goal with |- context [mapM ?f (rev (afterOf h (ref x)))] =>
      assert (is_Some (mapM f (rev (afterOf h (ref x))))) as [afs ->] end.
    { apply mapM_is_Some, Forall_forall. intros c Hc.
      rewrite elem_of_rev in Hc. unfold compose. apply Hvisit. by right. }
    eauto.
Qed.

(** From an absolute entry, one frame more than there are relative
    entries is enough. *)
Lemma expand_root fuel (a : Normalized AbsoluteMiddlewareEntry) :
  ref a < n -> length rel < fuel ->
  is_Some (expandRelativeMiddlewareList fuel h (asAbsolute a)).
Proof.
  intros Ha Hf. apply (expand_lineage fuel (asAbsolute a) []); simpl.
  - by constructor.
  - apply NoDup_singleton.
  - lia.
Qed.

Lemma Expansion_leaf x :
  childrenOf nm (normalizeRelative n rel) Before (ref x) = [] ->
  childrenOf nm (normalizeRelative n rel) After (ref x) = [] ->
  Expansion n rel nm x [x].
Proof.
  intros Hb Ha. apply (Expansion_entry n rel nm x [] []).
  - rewrite Hb. constructor.
  - rewrite Ha. constructor.
Qed.

Lemma Expansions_concat cs parts :
  Forall2 (fun c l => Expansion n rel nm (asRelative c) l) cs parts ->
  Expansions n rel nm cs (concat parts).
Proof. induction 1; simpl; by constructor. Qed.

Lemma length_zero_nil {A} (l : list A) : (length l =? 0) = true -> l = [].
Proof. destruct l; [reflexivity | discriminate]. Qed.

(** The function computes the specified expansion. *)
Lemma expand_Expansion fuel : forall x l,
  expandRelativeMiddlewareList fuel h x = Some l -> Expansion n rel nm x l.
Proof.
  induction fuel as [|fuel IH]; intros x l H; [discriminate|].
  simpl in H.
  match type of H with context [mapM ?f (beforeOf h (ref x))] =>
    assert (forall c k, f c = Some k -> Expansion n rel nm (asRelative c) k) as Hvisit end.
  { intros c k Hk. case_match eqn:Hleaf; [|by apply IH].
    inversion Hk; subst. apply andb_true_iff in Hleaf as [Hb Ha].
    apply length_zero_nil in Hb, Ha. rewrite h_before in Hb. rewrite h_after in Ha.
    by apply Expansion_leaf. }
  destruct (mapM _ (beforeOf h (ref x))) as [bs|] eqn:Hbs; [|discriminate].
  destruct (mapM _ (rev (afterOf h (ref x)))) as [afs|] eqn:Hafs; [|discriminate].
  inversion H; subst. apply mapM_Some in Hbs, Hafs.
  constructor; apply Expansions_concat.
  - rewrite <- h_before. eapply Forall2_impl; [exact Hbs|]. exact Hvisit.
  - rewrite <- h_after. eapply Forall2_impl; [exact Hafs|]. exact Hvisit.
Qed.

(** An expansion holds its entry and relative entries only. *)
Lemma Expansion_absolute x l :
  Expansion n rel nm x l ->
  filter absoluteNode l = if is_absolute (entry x) then [x] else [].
Proof.
  revert x l.
  apply (Expansion_mut n rel nm
    (fun x l => filter absoluteNode l = if is_absolute (entry x) then [x] else [])
    (fun cs l => filter absoluteNode l = [])).
  - intros x bs afs _ Hb _ Ha.
    rewrite !filter_app, Hb, Ha, filter_cons, filter_nil.
    case_decide as Hd; unfold absoluteNode in Hd;
      destruct (is_absolute (entry x)); simpl; congruence.
  - reflexivity.
  - intros c cs l ls _ Hl _ Hls. rewrite filter_app, Hl, Hls. reflexivity.
Qed.

Lemma childrenOf_attached rl r c :
  c ∈ childrenOf nm (normalizeRelative n rel) rl r -> attached n rel nm c.
Proof.
  unfold childrenOf. rewrite list_elem_of_filter. intros [[Hp _] Hin].
  split; [assumption|]. destruct (anchorOf nm c); [eauto | discriminate].
Qed.

Lemma Expansion_members x l :
  Expansion n rel nm x l ->
  forall y, y ∈ l -> y = x \/ exists c, y = asRelative c /\ attached n rel nm c.
Proof.
  revert x l.
  apply (Expansion_mut n rel nm
    (fun x l => forall y, y ∈ l -> y = x \/ exists c, y = asRelative c /\ attached n rel nm c)
    (fun cs l => (forall c, c ∈ cs -> attached n rel nm c) ->
                 forall y, y ∈ l -> exists c, y = asRelative c /\ attached n rel nm c)).
  - intros x bs afs _ Hb _ Ha y Hy.
    rewrite !elem_of_app, list_elem_of_singleton in Hy.
    destruct Hy as [Hy|[->|Hy]]; [right|by left|right].
    + apply Hb; [|assumption]. intros c. apply childrenOf_attached.
    + apply Ha; [|assumption]. intros c Hc. rewrite elem_of_rev in Hc.
      by eapply childrenOf_attached.
  - intros _ y Hy. by apply elem_of_nil in Hy.
  - intros c cs l ls _ Hl _ Hls Hcs y Hy.
    apply elem_of_app in Hy as [Hy|Hy].
    + destruct (Hl y Hy) as [->|?]; [|assumption].
      exists c. split; [reflexivity|]. apply Hcs. left.
    + apply Hls; [|assumption]. intros c' Hc'. apply Hcs. by right.
Qed.

(** Every entry of an expansion comes with its own expansion, as one
    contiguous block. *)
Lemma Expansion_block x l :
  Expansion n rel nm x l ->
  forall a, a ∈ l -> exists pre la post, l = pre ++ la ++ post /\ Expansion n rel nm a la.
Proof.
  intros Hx. pose proof Hx as Hx'. revert x l Hx Hx'.
  apply (Expansion_mut n rel nm
    (fun x l => Expansion n rel nm x l -> forall a, a ∈ l ->
       exists pre la post, l = pre ++ la ++ post /\ Expansion n rel nm a la)
    (fun cs l => forall a, a ∈ l ->
       exists pre la post, l = pre ++ la ++ post /\ Expansion n rel nm a la)).
  - intros x bs afs _ Hb _ Ha Hx a Hin.
    rewrite !elem_of_app, list_elem_of_singleton in Hin.
    destruct Hin as [Hin|[->|Hin]].
    + destruct (Hb a Hin) as (pre & la & post & -> & Hla).
      exists pre, la, (post ++ [x] ++ afs). split; [|assumption].
      by rewrite <- !app_assoc.
    + exists [], (bs ++ [x] ++ afs), []. split; [|assumption].
      by rewrite app_nil_r.
    + destruct (Ha a Hin) as (pre & la & post & -> & Hla).
      exists (bs ++ [x] ++ pre), la, post. split; [|assumption].
      by rewrite <- !app_assoc.
  - intros a Hin. by apply elem_of_nil in Hin.
  - intros c cs l ls Hc Hl _ Hls a Hin.
    apply elem_of_app in Hin as [Hin|Hin].
    + destruct (Hl Hc a Hin) as (pre & la & post & -> & Hla).
      exists pre, la, (post ++ ls). split; [|assumption].
      by rewrite <- !app_assoc.
    + destruct (Hls a Hin) as (pre & la & post & -> & Hla).
      exists (l ++ pre), la, post. split; [|assumption].
      by rewrite <- !app_assoc.
Qed.

(** Entries of an expansion are anchored, step by step, to its root. *)

Lemma Expansion_lineage x l :
  Expansion n rel nm x l ->
  forall p, Lineage n rel nm (ref x :: p) ->
  forall y, y ∈ l -> exists p', Lineage n rel nm (ref y :: p').
Proof.
  revert x l.
  apply (Expansion_mut n rel nm
    (fun x l => forall p, Lineage n rel nm (ref x :: p) ->
                forall y, y ∈ l -> exists p', Lineage n rel nm (ref y :: p'))
    (fun cs l => forall r p, Lineage n rel nm (r :: p) ->
                 (forall c, c ∈ cs -> n <= ref c /\ parentRef n rel nm (ref c) = Some r) ->
                 forall y, y ∈ l -> exists p', Lineage n rel nm (ref y :: p'))).
  - intros x bs afs _ Hb _ Ha p Hp y Hy.
    rewrite !elem_of_app, list_elem_of_singleton in Hy.
    destruct Hy as [Hy|[->|Hy]]; [|eauto|].
    + apply (Hb (ref x) p Hp); [|assumption].
      intros c Hc. by destruct (childrenOf_parent _ _ _ Hc) as (? & ? & _).
    + apply (Ha (ref x) p Hp); [|assumption].
      intros c Hc. rewrite elem_of_rev in Hc.
      by destruct (childrenOf_parent _ _ _ Hc) as (? & ? & _).
  - intros r p _ _ y Hy. by apply elem_of_nil in Hy.
  - intros c cs l ls _ Hl _ Hls r p Hp Hcs y Hy.
    apply elem_of_app in Hy as [Hy|Hy].
    + destruct (Hcs c) as [Hn Hpar]; [left|].
      apply (Hl (r :: p)); [|assumption]. simpl. by constructor.
    + apply (Hls r p Hp); [|assumption]. intros c' Hc'. apply Hcs. by right.
Qed.

Lemma Lineage_ancestor k : forall c p d,
  Lineage n rel nm (c :: p) -> ancestor n rel nm k c = Some d ->
  exists p', Lineage n rel nm (d :: p') /\ length p' + k = length p.
Proof.
  induction k as [|k IH]; intros c p d Hl Hk; simpl in Hk.
  - inversion Hk; subst. exists p. split; [assumption | lia].
  - destruct (parentRef n rel nm c) as [q|] eqn:Hq; [|discriminate].
    inversion Hl as [a Ha|c' q' path Hc Hq' Hl']; subst.
    + unfold parentRef in Hq. destruct (Nat.ltb_spec c n); [discriminate | lia].
    + assert (q' = q) as -> by congruence.
      destruct (IH _ _ _ Hl' Hk) as (p' & Hp' & Hlen).
      exists p'. split; [assumption | simpl; lia].
Qed.

(** An entry with a lineage is not anchored to itself, however far up. *)
Lemma Lineage_acyclic c p :
  Lineage n rel nm (c :: p) -> forall k, 0 < k -> ancestor n rel nm k c <> Some c.
Proof.
  remember (length p) as len eqn:Hlen. revert p Hlen.
  induction len as [len IH] using lt_wf_ind. intros p -> Hl k Hk Hcyc.
  destruct (Lineage_ancestor _ _ _ _ Hl Hcyc) as (p' & Hl' & Hlen).
  apply (IH (length p')) with (p := p') (k := k); (lia || done).
Qed.

(** An entry has one expansion only. *)
Lemma Expansion_functional x l :
  Expansion n rel nm x l -> forall l', Expansion n rel nm x l' -> l = l'.
Proof.
  revert x l.
  apply (Expansion_mut n rel nm
    (fun x l => forall l', Expansion n rel nm x l' -> l = l')
    (fun cs l => forall l', Expansions n rel nm cs l' -> l = l')).
  - intros x bs afs _ Hb _ Ha l' Hl'. inversion Hl'; subst.
    f_equal; [by apply Hb|]. f_equal. by apply Ha.
  - intros l' Hl'. by inversion Hl'.
  - intros c cs l ls _ Hl _ Hls l' Hl'. inversion Hl'; subst.
    f_equal; [by apply Hl | by apply Hls].
Qed.

(** Entered at an entry attached before itself, the function never
    returns: nothing in it guards against a cycle. *)
Lemma expand_self_anchored x :
  x ∈ beforeOf h (ref x) ->
  forall fuel, expandRelativeMiddlewareList fuel h (asRelative x) = None.
Proof.
  intros Hx fuel. induction fuel as [|fuel IH]; [reflexivity|].
  simpl. 
  match goal with |- context [mapM ?f (beforeOf h (ref x))] =>
    assert (mapM f (beforeOf h (ref x)) = None) as -> end; [|reflexivity].
  apply mapM_None, Exists_exists. exists x. split; [assumption|].
  destruct (beforeOf h (ref x)) as [|b bs] eqn:Hb; [by apply elem_of_nil in Hx|].
  simpl. exact IH.
Qed.
End Expansion.

(** ** The resolution as a whole *)

Lemma normalizeAbsolute_ref l a : a ∈ normalizeAbsolute l -> ref a < length l.
Proof.
  intros [i Hi]%list_elem_of_lookup. rewrite normalizeAbsolute_lookup in Hi.
  destruct (l !! i) as [x|] eqn:Hx; simpl in Hi; [|discriminate].
  inversion Hi; subst; simpl. by eapply lookup_lt_Some.
Qed.

Lemma sort_elem_of a l : a ∈ sort l <-> a ∈ l.
Proof. by rewrite sort_Permutation. Qed.

(** The loop throws only at the first entry it stops at. *)
Lemma attachAll_Thrown debug nm l h err :
  attachAll debug nm l h = Thrown err ->
  exists l1 e l2,
    l = l1 ++ e :: l2
    /\ Forall (fun x => ~ stopsAt debug nm x) l1
    /\ stopsAt debug nm e
    /\ err = stopError nm e.
Proof.
  destruct (first_stop debug nm l) as [Hgo|(l1 & e & l2 & -> & Hl1 & He)].
  - destruct (attachAll_goes_on _ _ _ Hgo h) as [h' ->]. discriminate.
  - rewrite attachAll_stops by assumption. intros H. inversion H. eauto 10.
Qed.

(** Execution mode attaches every entry unless some anchor is missing. *)
Lemma attachAll_Returned nm l : forall h,
  (forall e, e ∈ l -> truthy (toMiddleware (rel_location (entry e))) = true ->
             nm !! toMiddleware (rel_location (entry e)) <> None) ->
  exists h', attachAll false nm l h = Returned h'.
Proof.
  intros h Hok. apply attachAll_goes_on, Forall_forall.
  intros e He (Ht & Hl & _). by apply (Hok e He Ht).
Qed.

(** What a resolution that returns has computed. *)
Lemma resolveEntries_Returned fuel debug absEntries relEntries chain :
  resolveEntries fuel debug absEntries relEntries = Returned chain ->
  exists parts,
    chain = concat parts
    /\ Forall2
         (fun a l =>
            Expansion (length absEntries) relEntries
              (buildNameMap (normalizeAbsolute absEntries)
                 (normalizeRelative (length absEntries) relEntries))
              (asAbsolute a) l)
         (sort (normalizeAbsolute absEntries)) parts.
Proof.
  unfold resolveEntries. intros H.
  destruct (attachAll _ _ _ _) as [h|] eqn:Hh; [|discriminate].
  destruct (mapM _ _) as [parts|] eqn:Hparts; [|discriminate].
  inversion H; subst. exists parts. split; [reflexivity|].
  apply mapM_Some in Hparts. eapply Forall2_impl; [exact Hparts|].
  intros a l Hl. simpl in Hl.
  eapply expand_Expansion; [| |exact Hl]; intros r;
    by destruct (attachAll_children _ _ _ _ Hh r).
Qed.

(** With a depth above the number of relative entries the stack never
    overflows: a resolution returns a chain, or throws what the attachment
    loop throws at the first entry it stops at. *)
Lemma resolveEntries_total fuel debug absEntries relEntries :
  length relEntries < fuel ->
  let nm := buildNameMap (normalizeAbsolute absEntries)
              (normalizeRelative (length absEntries) relEntries) in
  (exists chain, resolveEntries fuel debug absEntries relEntries = Returned chain)
  \/ (exists l1 e l2,
        normalizeRelative (length absEntries) relEntries = l1 ++ e :: l2
        /\ Forall (fun x => ~ stopsAt debug nm x) l1
        /\ stopsAt debug nm e
        /\ resolveEntries fuel debug absEntries relEntries = Thrown (stopError nm e)).
Proof.
  intros Hf nm. unfold resolveEntries. fold nm.
  destruct (attachAll _ _ _ _) as [h|err] eqn:Hh.
  - left.
    destruct (mapM_is_Some_2
      (fun e => expandRelativeMiddlewareList fuel h (asAbsolute e))
      (sort (normalizeAbsolute absEntries))) as [parts ->]; [|eauto].
    apply Forall_forall. intros a Ha. unfold compose.
    apply (expand_root (length absEntries) relEntries nm).
    + intros r. by destruct (attachAll_children _ _ _ _ Hh r).
    + intros r. by destruct (attachAll_children _ _ _ _ Hh r).
    + apply normalizeAbsolute_ref. by apply sort_elem_of.
    + assumption.
  - right. destruct (attachAll_Thrown _ _ _ _ _ Hh) as (l1 & e & l2 & E & Hl1 & He & ->).
    exists l1, e, l2. split; [exact E|]. split; [exact Hl1|].
    split; [exact He | reflexivity].
Qed.

(** What a resolution throws: the error of the attachment loop, never the
    overflow of the call stack. *)
Lemma resolveEntries_Thrown fuel debug absEntries relEntries err :
  length relEntries < fuel ->
  resolveEntries fuel debug absEntries relEntries = Thrown err ->
  let nm := buildNameMap (normalizeAbsolute absEntries)
              (normalizeRelative (length absEntries) relEntries) in
  exists l1 e l2,
    normalizeRelative (length absEntries) relEntries = l1 ++ e :: l2
    /\ Forall (fun x => ~ stopsAt debug nm x) l1
    /\ stopsAt debug nm e
    /\ err = stopError nm e.
Proof.
  intros Hf Hr nm.
  destruct (resolveEntries_total fuel debug absEntries relEntries Hf)
    as [[chain Hc]|(l1 & e & l2 & E & Hl1 & He & Hthrown)]; [congruence|].
  exists l1, e, l2. split; [exact E|]. split; [exact Hl1|].
  split; [exact He|]. rewrite Hthrown in Hr. by inversion Hr.
Qed.

Lemma stopError_kind nm e :
  kind (stopError nm e) = AnchorNotFound \/ kind (stopError nm e) = TypeError.
Proof. unfold stopError. destruct (inherits _ _); [by right | by left]. Qed.

(** ** The absolute entries of the chain *)

Lemma absolutePart_app l k : absolutePart (l ++ k) = absolutePart l ++ absolutePart k.
Proof. apply omap_app. Qed.

Lemma absolutePart_filter (l : list NormalizedEntry) :
  absolutePart (map entry l) = absolutePart (map entry (filter absoluteNode l)).
Proof.
  induction l as [|x l IH]; [reflexivity|].
  rewrite filter_cons. case_decide as Hx; unfold absoluteNode in Hx; simpl.
  - destruct (entry x); simpl; [by rewrite IH | discriminate].
  - destruct (entry x); simpl; [by destruct Hx | exact IH].
Qed.

Lemma absolutePart_expansions n rel nm roots parts :
  Forall2 (fun a l => Expansion n rel nm (asAbsolute a) l) roots parts ->
  absolutePart (map entry (concat parts)) = map entry roots.
Proof.
  induction 1 as [|a l roots parts Ha _ IH]; [reflexivity|].
  change (concat (l :: parts)) with (l ++ concat parts).
  rewrite List.map_app, absolutePart_app, IH.
  rewrite absolutePart_filter, (Expansion_absolute _ _ _ _ _ Ha). reflexivity.
Qed.

Lemma normalizeAbsolute_entries l : map entry (normalizeAbsolute l) = l.
Proof.
  unfold normalizeAbsolute.
  induction l as [|x l IH] using rev_ind; [reflexivity|].
  rewrite imap_app, List.map_app, IH. reflexivity.
Qed.

Lemma StronglySorted_map_entry l :
  StronglySorted nodePrecedes l -> StronglySorted precedes (map entry l).
Proof.
  induction 1 as [|x l _ IH Hx]; simpl; constructor; [assumption|].
  apply Forall_forall. intros y Hy. apply list_elem_of_In, in_map_iff in Hy.
  destruct Hy as (z & <- & Hz). rewrite Forall_forall in Hx.
  apply Hx. by apply list_elem_of_In.
Qed.

Lemma filter_map_entry st pr (l : list (Normalized AbsoluteMiddlewareEntry)) :
  filter (sameKey st pr) (map entry l)
  = map entry (filter (fun x => sameKey st pr (entry x)) l).
Proof.
  induction l as [|x l IH]; [reflexivity|].
  simpl. rewrite !filter_cons, IH. by case_decide.
Qed.

(** ** [add] and [addRelativeTo], case by case *)

Lemma add_cases middleware location options s :
  add middleware location options s =
  let entry := makeAbsoluteEntry middleware location options in
  let names := getAllAliases (name options) (aliases options) in
  if 0 <? length names then
    if someInNameSet names (entriesNameSet s) then
      if negb (truthy_flag (override options))
      then (s, Thrown (duplicateNameError options))
      else match forEach (overrideAbsolute entry) names s with
           | (s1, Returned _) => (pushAbsolute entry (reserve names s1), Returned tt)
           | (s1, Thrown e) => (s1, Thrown e)
           end
    else (pushAbsolute entry (reserve names s), Returned tt)
  else (pushAbsolute entry s, Returned tt).
Proof.
  unfold add, bind, gets, modify, invalidateCache, throw, ret; simpl.
  destruct (0 <? length _); [|reflexivity].
  destruct (someInNameSet _ _); [|reflexivity].
  destruct (negb _); [reflexivity|].
  destruct (forEach _ _ s) as [s1 [[]|e]]; reflexivity.
Qed.

Lemma addRelativeTo_cases middleware location options s :
  addRelativeTo middleware location options s =
  let entry := makeRelativeEntry middleware location options in
  let names := getAllAliases (name options) (aliases options) in
  if 0 <? length names then
    if someInNameSet names (entriesNameSet s) then
      if negb (truthy_flag (override options))
      then (s, Thrown (duplicateNameError options))
      else match forEach (overrideRelative entry) names s with
           | (s1, Returned _) => (pushRelative entry (reserve names s1), Returned tt)
           | (s1, Thrown e) => (s1, Thrown e)
           end
    else (pushRelative entry (reserve names s), Returned tt)
  else (pushRelative entry s, Returned tt).
Proof.
  unfold addRelativeTo, bind, gets, modify, invalidateCache, throw, ret; simpl.
  destruct (0 <? length _); [|reflexivity].
  destruct (someInNameSet _ _); [|reflexivity].
  destruct (negb _); [reflexivity|].
  destruct (forEach _ _ s) as [s1 [[]|e]]; reflexivity.
Qed.

Lemma cacheConsistent_None s : cachedMiddlewareList s = None -> cacheConsistent s.
Proof. intros H c Hc. congruence. Qed.

(** What a resolution that returns has returned, when the cache is
    consistent: the chain of some run of the resolver on the entries. *)
Lemma getMiddlewareList_Returned (debug : bool) (s s' : Stack) chain :
  cacheConsistent s ->
  getMiddlewareList debug s = (s', Returned chain) ->
  exists d nodes,
    resolveEntries (callDepth s) d (absoluteEntries s) (relativeEntries s)
    = Returned nodes
    /\ chain = map entry nodes.
Proof.
  intros Hs. unfold getMiddlewareList.
  destruct (if debug then None else cachedMiddlewareList s) as [cached|] eqn:Hc.
  - intros H; inversion H; subst.
    destruct debug; [discriminate|].
    destruct (Hs _ Hc) as (nodes & Hn & ->). eauto.
  - destruct (resolveEntries _ debug _ _) as [nodes|err] eqn:Hr; [|discriminate].
    intros H; inversion H; subst. eauto.
Qed.

(** The absolute entries of a returned chain are the sorted absolute
    entries of the registry. *)
Lemma getMiddlewareList_absolutePart (debug : bool) (s s' : Stack) chain :
  cacheConsistent s ->
  getMiddlewareList debug s = (s', Returned chain) ->
  absolutePart chain = map entry (sort (normalizeAbsolute (absoluteEntries s))).
Proof.
  intros Hs Hg.
  destruct (getMiddlewareList_Returned _ _ _ _ Hs Hg) as (d & nodes & Hr & ->).
  apply resolveEntries_Returned in Hr as (parts & -> & Hparts).
  by rewrite (absolutePart_expansions _ _ _ _ _ Hparts).
Qed.

Lemma getMiddlewareList_stable (debug : bool) (s s' : Stack) chain st pr :
  cacheConsistent s ->
  getMiddlewareList debug s = (s', Returned chain) ->
  filter (sameKey st pr) (absolutePart chain)
  = filter (sameKey st pr) (absoluteEntries s).
Proof.
  intros Hs Hg. rewrite (getMiddlewareList_absolutePart _ _ _ _ Hs Hg).
  rewrite filter_map_entry, sort_stable, <- filter_map_entry.
  by rewrite normalizeAbsolute_entries.
Qed.

(** ** Claims about the resolved order *)

(** C5: in the chain returned by a resolution, in either mode, the
    subsequence of absolute entries is sorted by step weight descending
    (initialize > serialize > build > finalizeRequest > deserialize), then by
    priority weight descending (high > normal > low, a priority left
    unspecified on [add] being normal); it holds the registered absolute
    entries, all of them and nothing else, and entries of equal step and
    priority keep their registration order. *)
Theorem absolute_subsequence_sorted_stable (s s' : Stack) (debug : bool)
    (chain : list MiddlewareEntry) :
  cacheConsistent s ->
  getMiddlewareList debug s = (s', Returned chain) ->
  StronglySorted precedes (absolutePart chain)
  /\ absolutePart chain ≡ₚ absoluteEntries s
  /\ (forall st pr,
        filter (sameKey st pr) (absolutePart chain)
        = filter (sameKey st pr) (absoluteEntries s))
  /\ (stepWeights initialize > stepWeights serialize
      /\ stepWeights serialize > stepWeights build
      /\ stepWeights build > stepWeights finalizeRequest
      /\ stepWeights finalizeRequest > stepWeights deserialize)%Z
  /\ (priorityWeights high > priorityWeights normal
      /\ priorityWeights normal > priorityWeights low)%Z
  /\ (forall middleware st options,
        priority (makeAbsoluteEntry middleware
                    {| o_step := st; o_priority := None |} options) = normal).
Proof.
  intros Hs Hg.
  repeat split; try reflexivity.
  - rewrite (getMiddlewareList_absolutePart _ _ _ _ Hs Hg).
    apply StronglySorted_map_entry, sort_sorted.
  - rewrite (getMiddlewareList_absolutePart _ _ _ _ Hs Hg).
    rewrite sort_Permutation. by rewrite normalizeAbsolute_entries.
  - intros st pr. by eapply getMiddlewareList_stable.
Qed.

(** C4, as amended: for every entry [A] of the resolved chain, the chain
    holds, as one contiguous block, the expansions of the relative entries
    attached before [A] in registration order, then [A], then the expansions
    of the relative entries attached after [A] in reverse registration order,
    each of these expanded in the same way; a relative entry whose anchor
    resolves to [A] is one of those attached entries. *)
Theorem relative_entries_placed_around_anchor fuel debug absEntries relEntries nodes :
  resolveEntries fuel debug absEntries relEntries = Returned nodes ->
  let nrel := normalizeRelative (length absEntries) relEntries in
  let nm := buildNameMap (normalizeAbsolute absEntries) nrel in
  forall A, A ∈ nodes ->
    (exists pre bs afs post,
       nodes = pre ++ (bs ++ [A] ++ afs) ++ post
       /\ Expansions (length absEntries) relEntries nm
            (childrenOf nm nrel Before (ref A)) bs
       /\ Expansions (length absEntries) relEntries nm
            (rev (childrenOf nm nrel After (ref A))) afs)
    /\ (forall e, e ∈ nrel -> ref <$> anchorOf nm e = Some (ref A) ->
          e ∈ childrenOf nm nrel (relation (rel_location (entry e))) (ref A)).
Proof.
  intros (parts & -> & Hparts)%resolveEntries_Returned nrel nm A HA.
  split.
  - assert (exists pre la post,
              concat parts = pre ++ la ++ post
              /\ Expansion (length absEntries) relEntries nm A la)
      as (pre & la & post & E & Hla).
    { clear -Hparts HA. induction Hparts as [|a l roots parts Ha _ IH].
      - by apply elem_of_nil in HA.
      - change (concat (l :: parts)) with (l ++ concat parts) in *.
        apply elem_of_app in HA as [HA|HA].
        + destruct (Expansion_block _ _ _ _ _ Ha A HA) as (pre & la & post & -> & Hla).
          exists pre, la, (post ++ concat parts). split; [|assumption].
          by rewrite <- !app_assoc.
        + destruct (IH HA) as (pre & la & post & -> & Hla).
          exists (l ++ pre), la, post. split; [|assumption].
          by rewrite <- !app_assoc. }
    inversion Hla; subst. exists pre, bs, afs, post. by rewrite E.
  - intros e He Ha. unfold childrenOf. apply list_elem_of_filter. by repeat split.
Qed.

(** ** Anchors *)

Lemma registerNames_None m x a :
  registerNames m x !! a = None <-> m !! a = None /\ a ∉ entry_aliases (entry x).
Proof.
  unfold registerNames. generalize (entry_aliases (entry x)) as l. intros l.
  revert m. induction l as [|b l IH]; intros m; simpl.
  - split; [intros H; split; [assumption | apply not_elem_of_nil] | by intros [H _]].
  - rewrite IH, lookup_insert_None, not_elem_of_cons. intuition congruence.
Qed.

Lemma registerNames_lookup m x a :
  registerNames m x !! a
  = if decide (a ∈ entry_aliases (entry x)) then Some x else m !! a.
Proof.
  unfold registerNames. generalize (entry_aliases (entry x)) as l. intros l.
  revert m. induction l as [|b l IH]; intros m.
  - destruct (decide (a ∈ [])) as [H|H]; [by apply elem_of_nil in H | reflexivity].
  - simpl. rewrite IH.
    destruct (decide (a ∈ l)) as [Hl|Hl], (decide (a ∈ b :: l)) as [Hbl|Hbl];
      try reflexivity.
    + exfalso. apply Hbl. by right.
    + apply elem_of_cons in Hbl as [->|?]; [|contradiction].
      by rewrite lookup_insert_eq.
    + apply lookup_insert_ne. intros ->. apply Hbl. left.
Qed.

Lemma foldl_registerNames_None l : forall m a,
  foldl registerNames m l !! a = None
  <-> m !! a = None /\ Forall (fun x => a ∉ entry_aliases (entry x)) l.
Proof.
  induction l as [|x l IH]; intros m a; simpl.
  - split; [intros H; split; [assumption | constructor] | by intros [H _]].
  - rewrite IH, registerNames_None, Forall_cons. tauto.
Qed.

Lemma normalizeRelative_entries n l : map entry (normalizeRelative n l) = l.
Proof.
  unfold normalizeRelative.
  induction l as [|x l IH] using rev_ind; [reflexivity|].
  rewrite imap_app, List.map_app, IH. reflexivity.
Qed.

Lemma buildNameMap_None absEntries relEntries n a :
  buildNameMap (normalizeAbsolute absEntries) (normalizeRelative n relEntries) !! a = None
  <-> unnamed absEntries relEntries a.
Proof.
  unfold buildNameMap, unnamed.
  rewrite !foldl_registerNames_None, lookup_empty.
  rewrite <- (normalizeAbsolute_entries absEntries) at 2.
  rewrite <- (normalizeRelative_entries n relEntries) at 2.
  rewrite !Forall_map. simpl. tauto.
Qed.



Lemma normalizeAbsolute_asAbsolute l :
  map entry (map asAbsolute (normalizeAbsolute l)) = map Absolute l.
Proof.
  rewrite <- (normalizeAbsolute_entries l) at 2.
  rewrite !List.map_map. reflexivity.
Qed.

Lemma normalizeRelative_asRelative n l :
  map entry (map asRelative (normalizeRelative n l)) = map Relative l.
Proof.
  rewrite <- (normalizeRelative_entries n l) at 2.
  rewrite !List.map_map. reflexivity.
Qed.

(** A key is stored with the last entry registered that bears it. *)
Lemma foldl_registerNames_lastBearer k l : forall m,
  entry <$> (foldl registerNames m l !! k)
  = match lastBearer k (map entry l) with
    | Some p => Some p
    | None => entry <$> (m !! k)
    end.
Proof.
  unfold lastBearer.
  induction l as [|x l IH] using rev_ind; intros m; [reflexivity|].
  rewrite foldl_app, List.map_app, filter_app. simpl.
  rewrite registerNames_lookup, filter_cons, filter_nil.
  destruct (decide (k ∈ entry_aliases (entry x))) as [Hx|Hx].
  - by rewrite last_snoc.
  - rewrite app_nil_r. apply IH.
Qed.

Lemma buildNameMap_lastBearer absEntries relEntries n k :
  entry <$> (buildNameMap (normalizeAbsolute absEntries)
               (normalizeRelative n relEntries) !! k)
  = lastBearer k (map Absolute absEntries ++ map Relative relEntries).
Proof.
  unfold buildNameMap. rewrite <- foldl_app, foldl_registerNames_lastBearer.
  rewrite List.map_app, normalizeAbsolute_asAbsolute, normalizeRelative_asRelative.
  rewrite lookup_empty. by destruct (lastBearer _ _).
Qed.

(** What the name map of a resolution finds along its prototype chain. *)
Lemma inherits_inheritedName absEntries relEntries n a :
  inherits (buildNameMap (normalizeAbsolute absEntries)
              (normalizeRelative n relEntries)) a = true
  <-> inheritedName absEntries relEntries a.
Proof.
  pose proof (buildNameMap_lastBearer absEntries relEntries n "__proto__") as H.
  unfold inherits, inheritedName. rewrite <- H, orb_true_iff, bool_decide_eq_true.
  destruct (buildNameMap _ _ !! "__proto__") as [P|]; simpl.
  - rewrite bool_decide_eq_true. split.
    + intros [?|?]; [left; eauto | by right].
    + intros [(p & Hp & ?)|?]; [left; inversion Hp; by subst | by right].
  - split.
    + intros [?|?]; [discriminate | by right].
    + intros [(p & Hp & ?)|?]; [discriminate | by right].
Qed.










(** The chain computed does not depend on the depth granted, once above the
    number of relative entries. *)
Lemma resolveEntries_fuel fuel1 fuel2 debug absEntries relEntries :
  length relEntries < fuel1 -> length relEntries < fuel2 ->
  resolveEntries fuel1 debug absEntries relEntries
  = resolveEntries fuel2 debug absEntries relEntries.
Proof.
  intros H1 H2.
  assert (forall nm e, Thrown (A := list NormalizedEntry) rangeError
                       <> Thrown (stopError nm e)) as Hkinds.
  { intros nm e H. inversion H as [Hk].
    destruct (stopError_kind nm e) as [Hs|Hs]; rewrite <- Hk in Hs; discriminate Hs. }
  destruct (resolveEntries_total fuel1 debug absEntries relEntries H1)
    as [[c1 Hc1]|(? & e1 & ? & _ & _ & _ & He1)];
  destruct (resolveEntries_total fuel2 debug absEntries relEntries H2)
    as [[c2 Hc2]|(? & e2 & ? & _ & _ & _ & He2)].
  - rewrite Hc1, Hc2. f_equal.
    apply resolveEntries_Returned in Hc1 as (parts1 & -> & Hp1).
    apply resolveEntries_Returned in Hc2 as (parts2 & -> & Hp2).
    f_equal. revert parts2 Hp2.
    induction Hp1 as [|a l roots parts Ha _ IH]; intros parts2 Hp2;
      inversion Hp2; subst; [reflexivity|].
    f_equal; [by eapply Expansion_functional | by apply IH].
  - exfalso. unfold resolveEntries in Hc1, He2.
    destruct (attachAll _ _ _ _); [|discriminate Hc1].
    destruct (mapM _ _) in He2; [discriminate He2|].
    by apply Hkinds in He2.
  - exfalso. unfold resolveEntries in He1, Hc2.
    destruct (attachAll _ _ _ _); [|discriminate Hc2].
    destruct (mapM _ _) in He1; [discriminate He1|].
    by apply Hkinds in He1.
  - unfold resolveEntries in *.
    destruct (attachAll _ _ _ _); [|reflexivity].
    destruct (mapM _ _) in He1; [discriminate He1|].
    by apply Hkinds in He1.
Qed.

Lemma resolveEntries_lineage fuel debug absEntries relEntries nodes y :
  resolveEntries fuel debug absEntries relEntries = Returned nodes ->
  y ∈ nodes ->
  exists p,
    Lineage (length absEntries) relEntries
      (buildNameMap (normalizeAbsolute absEntries)
         (normalizeRelative (length absEntries) relEntries))
      (ref y :: p).
Proof.
  intros (parts & -> & Hparts)%resolveEntries_Returned Hy.
  assert (Forall (fun a => ref a < length absEntries) (sort (normalizeAbsolute absEntries)))
    as Hroots.
  { apply Forall_forall. intros a Ha. apply normalizeAbsolute_ref. by apply sort_elem_of. }
  induction Hparts as [|a l roots parts Ha _ IH]; [by apply elem_of_nil in Hy|].
  apply Forall_cons in Hroots as [Hroot Hroots].
  change (concat (l :: parts)) with (l ++ concat parts) in Hy.
  apply elem_of_app in Hy as [Hy|Hy]; [|by apply IH].
  eapply (Expansion_lineage _ _ _ _ _ Ha []); [|exact Hy].
  simpl. by constructor.
Qed.

(** What [getMiddlewareList] does when it resolves afresh. *)
Lemma getMiddlewareList_fresh (debug : bool) (s : Stack) :
  (if debug then @None (list MiddlewareEntry) else cachedMiddlewareList s) = None ->
  getMiddlewareList debug s =
  match resolveEntries (callDepth s) debug (absoluteEntries s) (relativeEntries s) with
  | Thrown err => (s, Thrown err)
  | Returned nodes =>
      ((if debug then s else set_cachedMiddlewareList (Some (map entry nodes)) s),
       Returned (map entry nodes))
  end.
Proof. unfold getMiddlewareList. by intros ->. Qed.

Lemma getMiddlewareList_Thrown debug s s' err :
  getMiddlewareList debug s = (s', Thrown err) ->
  s' = s
  /\ resolveEntries (callDepth s) debug (absoluteEntries s) (relativeEntries s)
     = Thrown err.
Proof.
  unfold getMiddlewareList.
  destruct (if debug then None else cachedMiddlewareList s); [discriminate|].
  destruct (resolveEntries _ _ _ _); [discriminate|].
  intros H; by inversion H.
Qed.


(** C9, as amended: granted a recursion depth above the number of relative
    entries, the expansion performed by a resolution returns for every
    registry, whether or not its anchoring is cyclic: the resolution yields a
    finite chain, the same for every such depth, or what the attachment loop
    throws before any expansion (AnchorNotFound, or the TypeError of an
    inherited anchor name), never a stack overflow.  The expansion function has no guard against cycles: it
    would not return if entered at an entry attached to itself.  But every
    entry of the chain is linked by anchors to an absolute entry, so an entry
    anchored, directly or transitively, to itself is never expanded and is
    left out of the chain. *)
Theorem expansion_terminates_for_every_registry (s : Stack) (debug : bool) (fuel : nat) :
  length (relativeEntries s) < fuel ->
  let nm := buildNameMap (normalizeAbsolute (absoluteEntries s))
              (normalizeRelative (length (absoluteEntries s)) (relativeEntries s)) in
  resolveEntries fuel debug (absoluteEntries s) (relativeEntries s)
  = resolveEntries (callDepth s) debug (absoluteEntries s) (relativeEntries s)
  /\ ((exists nodes,
         resolveEntries fuel debug (absoluteEntries s) (relativeEntries s)
         = Returned nodes
         /\ forall y, y ∈ nodes -> forall k, 0 < k ->
              ancestor (length (absoluteEntries s)) (relativeEntries s) nm k (ref y)
              <> Some (ref y))
      \/ (exists err,
            resolveEntries fuel debug (absoluteEntries s) (relativeEntries s)
            = Thrown err
            /\ (kind err = AnchorNotFound \/ kind err = TypeError)))
  /\ (forall s' err, getMiddlewareList debug s = (s', Thrown err) ->
                     kind err = AnchorNotFound \/ kind err = TypeError)
  /\ (forall h x, x ∈ beforeOf h (ref x) ->
        forall depth, expandRelativeMiddlewareList depth h (asRelative x) = None).
Proof.
  intros Hf nm.
  assert (length (relativeEntries s) < callDepth s) as Hd by (unfold callDepth; lia).
  split; [by apply resolveEntries_fuel|]. split; [|split].
  - destruct (resolveEntries_total fuel debug (absoluteEntries s) (relativeEntries s) Hf)
      as [[nodes Hn]|(l1 & c & l2 & _ & _ & _ & Hc)].
    + left. exists nodes. split; [assumption|]. intros y Hy.
      destruct (resolveEntries_lineage _ _ _ _ _ _ Hn Hy) as [p Hp].
      by eapply Lineage_acyclic.
    + right. eexists. split; [exact Hc | apply stopError_kind].
  - intros s' err [_ Hr]%getMiddlewareList_Thrown.
    destruct (resolveEntries_Thrown _ _ _ _ _ Hd Hr) as (l1 & c & l2 & _ & _ & _ & ->).
    apply stopError_kind.
  - intros h x Hx depth. by apply expand_self_anchored.
Qed.

(** ** Composition *)

(** Where execution mode attaches every entry, inspection mode builds the
    same links. *)
Lemma attachAll_inspection nm l : forall h h',
  attachAll false nm l h = Returned h' -> attachAll true nm l h = Returned h'.
Proof.
  induction l as [|e l IH]; intros h h' H; simpl in *; [assumption|].
  destruct (attach false nm e h) as [h1|err] eqn:Ha; [|discriminate].
  assert (attach true nm e h = Returned h1) as ->; [|by apply IH].
  unfold attach in *. destruct (truthy _); [|assumption].
  destruct (getProperty _ _); [assumption | discriminate | discriminate].
Qed.

Lemma resolveEntries_inspection fuel absEntries relEntries nodes :
  resolveEntries fuel false absEntries relEntries = Returned nodes ->
  resolveEntries fuel true absEntries relEntries = Returned nodes.
Proof.
  unfold resolveEntries.
  destruct (attachAll false _ _ _) as [h|err] eqn:Hh; [|discriminate].
  by rewrite (attachAll_inspection _ _ _ _ Hh).
Qed.


(** [identify] returns the description of the chain of an inspection-mode
    resolution, or throws what that resolution throws. *)
Lemma identify_cases s :
  (exists chain, getMiddlewareList true s = (s, Returned chain)
                 /\ identify s = (s, Returned (map describe chain)))
  \/ (exists err, getMiddlewareList true s = (s, Thrown err)
                  /\ identify s = (s, Thrown err)).
Proof.
  unfold identify, bind, ret. rewrite getMiddlewareList_fresh by reflexivity.
  destruct (resolveEntries _ _ _ _) as [nodes|err]; [left | right]; eauto.
Qed.

Lemma identify_state s : fst (identify s) = s.
Proof. by destruct (identify_cases s) as [(? & _ & ->)|(? & _ & ->)]. Qed.




(** ** The entries a removal keeps *)

Lemma filter_map_inj {A B} (f : A -> B) (p : B -> bool) (l : list A) :
  map f (filter (fun x => p (f x) = false) l) = filter (fun y => p y = false) (map f l).
Proof.
  induction l as [|x l IH]; [reflexivity|].
  simpl. rewrite !filter_cons, <- IH. by destruct (p (f x)).
Qed.

Lemma removeWhere_entries hit s :
  entriesOf (fst (removeWhere hit s)) = filter (fun e => hit e = false) (entriesOf s).
Proof.
  unfold entriesOf, removeWhere; simpl.
  by rewrite filter_app, <- !filter_map_inj.
Qed.

Lemma anonymous_no_names o :
  name o = None \/ name o = Some EmptyString ->
  aliases o = None \/ aliases o = Some [] ->
  getAllAliases (name o) (aliases o) = [].
Proof. unfold getAllAliases. intros [->| ->] [->| ->]; reflexivity. Qed.

Lemma existsb_eqb_elem_of (t : string) (l : list string) :
  t ∈ l -> existsb (String.eqb t) l = true.
Proof.
  intros Ht. apply existsb_exists. exists t.
  split; [by apply list_elem_of_In | apply String.eqb_refl].
Qed.

(** ** Override *)

Lemma set_absoluteEntries_id s : set_absoluteEntries (absoluteEntries s) s = s.
Proof. by destruct s. Qed.

Lemma set_relativeEntries_id s : set_relativeEntries (relativeEntries s) s = s.
Proof. by destruct s. Qed.

Lemma overrideAbsolute_step entry a s :
  overrideAbsolute entry a s =
  match findIndex (fun e => bearsAlias a (abs_options e)) (absoluteEntries s) with
  | None => (s, Returned tt)
  | Some (i, t) =>
      if negb (bool_decide (step t = step entry))
         || negb (bool_decide (priority entry = priority t))
      then (s, Thrown (absoluteMismatchError t entry))
      else (set_absoluteEntries (delete i (absoluteEntries s)) s, Returned tt)
  end.
Proof.
  unfold overrideAbsolute, bind, gets, ret, throw, modify.
  destruct (findIndex _ _) as [[i t]|]; [|reflexivity].
  by destruct (negb _ || negb _).
Qed.

Lemma overrideRelative_step entry a s :
  overrideRelative entry a s =
  match findIndex (fun e => bearsAlias a (rel_options e)) (relativeEntries s) with
  | None => (s, Returned tt)
  | Some (i, t) =>
      if negb (String.eqb (toMiddleware (rel_location t))
                          (toMiddleware (rel_location entry)))
         || negb (bool_decide (relation (rel_location t)
                               = relation (rel_location entry)))
      then (s, Thrown (relativeMismatchError t entry))
      else (set_relativeEntries (delete i (relativeEntries s)) s, Returned tt)
  end.
Proof.
  unfold overrideRelative, bind, gets, ret, throw, modify.
  destruct (findIndex _ _) as [[i t]|]; [|reflexivity].
  by destruct (negb _ || negb _).
Qed.

Lemma forEach_overrideAbsolute entry names : forall s,
  forEach (overrideAbsolute entry) names s =
  let '(l, stopped) :=
    overrideLoop (fun a e => bearsAlias a (abs_options e))
      (fun t => negb (bool_decide (step t = step entry))
                || negb (bool_decide (priority entry = priority t)))
      names (absoluteEntries s) in
  (set_absoluteEntries l s,
   match stopped with
   | None => Returned tt
   | Some t => Thrown (absoluteMismatchError t entry)
   end).
Proof.
  induction names as [|a names IH]; intros s; simpl.
  - unfold ret. by rewrite set_absoluteEntries_id.
  - unfold bind. rewrite overrideAbsolute_step.
    destruct (findIndex _ (absoluteEntries s)) as [[i t]|]; [|apply IH].
    destruct (negb _ || negb _).
    + by rewrite set_absoluteEntries_id.
    + rewrite IH. simpl. by destruct (overrideLoop _ _ _ _) as [l [t'|]].
Qed.

Lemma forEach_overrideRelative entry names : forall s,
  forEach (overrideRelative entry) names s =
  let '(l, stopped) :=
    overrideLoop (fun a e => bearsAlias a (rel_options e))
      (fun t => negb (String.eqb (toMiddleware (rel_location t))
                                 (toMiddleware (rel_location entry)))
                || negb (bool_decide (relation (rel_location t)
                                      = relation (rel_location entry))))
      names (relativeEntries s) in
  (set_relativeEntries l s,
   match stopped with
   | None => Returned tt
   | Some t => Thrown (relativeMismatchError t entry)
   end).
Proof.
  induction names as [|a names IH]; intros s; simpl.
  - unfold ret. by rewrite set_relativeEntries_id.
  - unfold bind. rewrite overrideRelative_step.
    destruct (findIndex _ (relativeEntries s)) as [[i t]|]; [|apply IH].
    destruct (negb _ || negb _).
    + by rewrite set_relativeEntries_id.
    + rewrite IH. simpl. by destruct (overrideLoop _ _ _ _) as [l [t'|]].
Qed.

Section OverrideLoop.
Context {E : Type}.
Variable opts : E -> HandlerOptions.
Variable mismatch : E -> bool.

Lemma findIndex_None (p : E -> bool) l :
  findIndex p l = None -> Forall (fun x => p x = false) l.
Proof.
  induction l as [|x l IH]; simpl; [constructor|].
  destruct (p x) eqn:Hx; [discriminate|].
  destruct (findIndex p l) as [[i y]|]; [discriminate|].
  intros _. constructor; [assumption | by apply IH].
Qed.

Lemma filter_none (p : E -> bool) l :
  filter (fun x => p x = true) l = [] -> filter (fun x => p x = false) l = l.
Proof.
  induction l as [|x l IH]; [reflexivity|].
  rewrite !filter_cons. destruct (p x); simpl; [discriminate|].
  intros H. by rewrite IH.
Qed.

Lemma findIndex_Some_unique (p : E -> bool) l i t :
  findIndex p l = Some (i, t) ->
  length (filter (fun x => p x = true) l) <= 1 ->
  delete i l = filter (fun x => p x = false) l /\ p t = true /\ t ∈ l.
Proof.
  revert i. induction l as [|x l IH]; intros i; simpl; [discriminate|].
  rewrite !filter_cons. destruct (p x) eqn:Hx; simpl.
  - intros H Hlen. inversion H; subst. simpl.
    split; [|split; [assumption | left]].
    symmetry. apply filter_none.
    destruct (filter _ l); [reflexivity | simpl in Hlen; lia].
  - destruct (findIndex p l) as [[j y]|]; [|discriminate].
    intros H Hlen. inversion H; subst.
    destruct (IH j eq_refl Hlen) as (Hd & Ht & Hin).
    simpl. rewrite Hd. split; [reflexivity|]. split; [assumption | by right].
Qed.

Lemma uniqueBearers_filter names (q : E -> bool) l :
  bornOnce opts (names) l ->
  bornOnce opts names (filter (fun x => q x = false) l).
Proof.
  intros Hu a Ha. specialize (Hu a Ha).
  etransitivity; [|exact Hu]. clear Hu.
  induction l as [|x l IH]; [reflexivity|].
  rewrite !filter_cons.
  destruct (q x); simpl; destruct (bearsAlias a (opts x)) eqn:Hb; simpl;
    rewrite ?filter_cons, ?Hb; simpl; lia.
Qed.

Lemma uniqueBearers_tail a names l :
  bornOnce opts (a :: names) l -> bornOnce opts names l.
Proof. intros Hu b Hb. apply Hu. by right. Qed.

Lemma filter_ext_in (P Q : E -> Prop) `{!forall x, Decision (P x)}
    `{!forall x, Decision (Q x)} (l : list E) :
  (forall x, x ∈ l -> P x <-> Q x) -> filter P l = filter Q l.
Proof.
  induction l as [|x l IH]; intros Hext; [reflexivity|].
  rewrite !filter_cons, IH by (intros y Hy; apply Hext; by right).
  specialize (Hext x (list_elem_of_here _ _)).
  repeat case_decide; tauto || reflexivity.
Qed.

(** When every colliding entry matches, the loop removes them all. *)
Lemma overrideLoop_all_match names : forall l,
  bornOnce opts names l ->
  (forall x, x ∈ l -> bearsAny names (opts x) = true -> mismatch x = false) ->
  overrideLoop (fun a x => bearsAlias a (opts x)) mismatch names l
  = (filter (fun x => bearsAny names (opts x) = false) l, None).
Proof.
  induction names as [|a names IH]; intros l Hu Hm; simpl.
  - f_equal. clear. induction l as [|x l IH]; [reflexivity|].
    rewrite filter_cons_True by reflexivity. by rewrite <- IH.
  - pose proof (uniqueBearers_tail _ _ _ Hu) as Hu'.
    destruct (findIndex (fun x => bearsAlias a (opts x)) l) as [[i t]|] eqn:Hf.
    + destruct (findIndex_Some_unique _ _ _ _ Hf (Hu a (list_elem_of_here _ _)))
        as (Hd & Ht & Hin).
      rewrite (Hm t Hin) by (simpl; by rewrite Ht).
      rewrite Hd, IH.
      * f_equal. rewrite list_filter_filter. apply filter_ext_in.
        intros x _. destruct (bearsAlias a (opts x)); simpl; intuition congruence.
      * by apply uniqueBearers_filter.
      * intros x [Hx Hin']%list_elem_of_filter Hc. apply Hm; [assumption|].
        simpl. by rewrite Hc, orb_true_r.
    + apply findIndex_None in Hf. rewrite Forall_forall in Hf.
      rewrite IH; [|assumption|].
      * f_equal. apply filter_ext_in. intros x Hx. by rewrite (Hf x Hx).
      * intros x Hx Hc. apply Hm; [assumption|]. simpl. by rewrite Hc, orb_true_r.
Qed.

Lemma filter_le_one_eq (p : E -> bool) l x y :
  length (filter (fun z => p z = true) l) <= 1 ->
  x ∈ l -> y ∈ l -> p x = true -> p y = true -> x = y.
Proof.
  intros Hlen Hx Hy Hpx Hpy.
  assert (x ∈ filter (fun z => p z = true) l) as Hx'
    by (by apply list_elem_of_filter).
  assert (y ∈ filter (fun z => p z = true) l) as Hy'
    by (by apply list_elem_of_filter).
  destruct (filter _ l) as [|z [|z' k]]; simpl in Hlen; [| |lia].
  - by apply elem_of_nil in Hx'.
  - apply list_elem_of_singleton in Hx', Hy'. congruence.
Qed.

(** When some colliding entry differs, the loop stops at such an entry. *)
Lemma overrideLoop_mismatch names : forall l x,
  bornOnce opts names l ->
  x ∈ l -> bearsAny names (opts x) = true -> mismatch x = true ->
  exists l' t,
    overrideLoop (fun a x => bearsAlias a (opts x)) mismatch names l = (l', Some t)
    /\ mismatch t = true /\ t ∈ l /\ bearsAny names (opts t) = true.
Proof.
  induction names as [|a names IH]; intros l x Hu Hx Hc Hm; simpl in *;
    [discriminate|].
  pose proof (uniqueBearers_tail _ _ _ Hu) as Hu'.
  destruct (findIndex (fun x => bearsAlias a (opts x)) l) as [[i t]|] eqn:Hf.
  - destruct (findIndex_Some_unique _ _ _ _ Hf (Hu a (list_elem_of_here _ _)))
      as (Hd & Ht & Hin).
    destruct (mismatch t) eqn:Hmt.
    + exists l, t. repeat split; try assumption. by rewrite Ht.
    + assert (bearsAlias a (opts x) = false) as Hbx.
      { destruct (bearsAlias a (opts x)) eqn:Hbx; [|reflexivity].
        assert (x = t) as -> by (eapply (filter_le_one_eq (fun x => bearsAlias a (opts x))); eauto;
                                 apply Hu; left).
        congruence. }
      rewrite Hbx in Hc. simpl in Hc. rewrite Hd.
      destruct (IH (filter (fun z => bearsAlias a (opts z) = false) l) x)
        as (l' & t' & -> & ? & Hin' & Hc');
        try assumption.
      * by apply uniqueBearers_filter.
      * by apply list_elem_of_filter.
      * exists l', t'. repeat split; try assumption.
        -- by apply list_elem_of_filter in Hin' as [_ ?].
        -- by rewrite Hc', orb_true_r.
  - apply findIndex_None in Hf. rewrite Forall_forall in Hf.
    rewrite (Hf x Hx) in Hc. simpl in Hc.
    destruct (IH l x Hu' Hx Hc Hm) as (l' & t' & -> & ? & ? & Hc').
    exists l', t'. repeat split; try assumption. by rewrite Hc', orb_true_r.
Qed.
End OverrideLoop.

Lemma someInNameSet_nonempty names n :
  someInNameSet names n = true -> (0 <? length names) = true.
Proof. by destruct names. Qed.

(** C2, as amended: a call to [add] (resp. [addRelativeTo]) with a true
    override flag and a name in the set of names compares the new entry with
    the prior absolute (resp. relative) entries only.  When no two of these
    bear the same name: if each one bearing a name of the new entry has its
    step and priority (resp. anchor and relation), they are all removed, the
    new entry is appended at the end of the absolute (resp. relative) entries
    as any newly added entry is, its names are added to the set and the cache
    is dropped, while the entries of the other kind stay as they are,
    colliding or not; the new absolute entry then comes last, in the chain,
    among the absolute entries of its step and priority.  If one of the
    entries bearing a name of the new entry differs, the call fails with
    OverrideMismatch. *)
Theorem override_replaces_entries_of_same_kind (s : Stack) (mw : MiddlewareType)
    (o : HandlerOptions) :
  truthy_flag (override o) = true ->
  someInNameSet (getAllAliases (name o) (aliases o)) (entriesNameSet s) = true ->
  let names := getAllAliases (name o) (aliases o) in
  (forall location,
     let new := makeAbsoluteEntry mw location o in
     let kept :=
       filter (fun e => bearsAny names (abs_options e) = false) (absoluteEntries s) in
     bornOnce abs_options names (absoluteEntries s) ->
     (Forall (fun e => bearsAny names (abs_options e) = true ->
                       step e = step new /\ priority e = priority new)
        (absoluteEntries s) ->
      exists s',
        add mw location o s = (s', Returned tt)
        /\ absoluteEntries s' = kept ++ [new]
        /\ relativeEntries s' = relativeEntries s
        /\ entriesNameSet s' = addNames names (entriesNameSet s)
        /\ cachedMiddlewareList s' = None
        /\ (forall debug s'' chain,
              getMiddlewareList debug s' = (s'', Returned chain) ->
              filter (sameKey (step new) (priority new)) (absolutePart chain)
              = filter (sameKey (step new) (priority new)) kept ++ [new]))
     /\ (Exists (fun e => bearsAny names (abs_options e) = true
                          /\ ~ (step e = step new /\ priority e = priority new))
           (absoluteEntries s) ->
         exists s' err,
           add mw location o s = (s', Thrown err) /\ kind err = OverrideMismatch))
  /\ (forall location,
        let new := makeRelativeEntry mw location o in
        bornOnce rel_options names (relativeEntries s) ->
        (Forall (fun e => bearsAny names (rel_options e) = true ->
                          rel_location e = location)
           (relativeEntries s) ->
         exists s',
           addRelativeTo mw location o s = (s', Returned tt)
           /\ relativeEntries s'
              = filter (fun e => bearsAny names (rel_options e) = false) (relativeEntries s)
                ++ [new]
           /\ absoluteEntries s' = absoluteEntries s
           /\ entriesNameSet s' = addNames names (entriesNameSet s)
           /\ cachedMiddlewareList s' = None)
        /\ (Exists (fun e => bearsAny names (rel_options e) = true
                             /\ rel_location e <> location)
              (relativeEntries s) ->
            exists s' err,
              addRelativeTo mw location o s = (s', Thrown err)
              /\ kind err = OverrideMismatch)).
Proof.
  intros Hov Hcol names. subst names. pose proof (someInNameSet_nonempty _ _ Hcol) as Hlen.
  split.
  - intros location new kept Hu. subst new kept. split.
    + intros Hall. rewrite add_cases. cbv zeta. rewrite Hlen, Hcol, Hov. cbn [negb].
      rewrite forEach_overrideAbsolute.
      rewrite (overrideLoop_all_match abs_options);
        [|exact Hu|].
      * eexists. split; [reflexivity|]. simpl. repeat split; try reflexivity.
        intros debug s'' chain Hg.
        erewrite getMiddlewareList_stable; [| |exact Hg];
          [|by apply cacheConsistent_None].
        simpl. rewrite filter_app, filter_cons_True, filter_nil by (by split).
        reflexivity.
      * intros x Hx Hc. rewrite Forall_forall in Hall.
        destruct (Hall x Hx Hc) as [-> ->].
        by rewrite !bool_decide_eq_true_2.
    + intros (x & Hx & Hc & Hne)%Exists_exists.
      rewrite add_cases. cbv zeta. rewrite Hlen, Hcol, Hov. cbn [negb].
      rewrite forEach_overrideAbsolute.
      destruct (overrideLoop_mismatch abs_options
                  (fun t => negb (bool_decide (step t = step (makeAbsoluteEntry mw location o)))
                            || negb (bool_decide (priority (makeAbsoluteEntry mw location o)
                                                  = priority t)))
                  _ (absoluteEntries s) x Hu Hx Hc)
        as (l' & t & -> & _).
      * destruct (decide (step x = step (makeAbsoluteEntry mw location o))) as [Hs|Hs];
          [|by rewrite (bool_decide_eq_false_2 _ Hs)].
        destruct (decide (priority (makeAbsoluteEntry mw location o) = priority x)) as [Hp|Hp];
          [|by rewrite (bool_decide_eq_false_2 _ Hp), orb_true_r].
        exfalso. apply Hne. by split.
      * eexists _, _. split; reflexivity.
  - intros location new Hu. subst new. split.
    + intros Hall. rewrite addRelativeTo_cases. cbv zeta. rewrite Hlen, Hcol, Hov. cbn [negb].
      rewrite forEach_overrideRelative.
      rewrite (overrideLoop_all_match rel_options);
        [|exact Hu|].
      * eexists. split; [reflexivity|]. simpl. repeat split; reflexivity.
      * intros x Hx Hc. rewrite Forall_forall in Hall.
        rewrite (Hall x Hx Hc). simpl.
        by rewrite String.eqb_refl, bool_decide_eq_true_2.
    + intros (x & Hx & Hc & Hne)%Exists_exists.
      rewrite addRelativeTo_cases. cbv zeta. rewrite Hlen, Hcol, Hov. cbn [negb].
      rewrite forEach_overrideRelative.
      destruct (overrideLoop_mismatch rel_options
                  (fun t =>
                     negb (String.eqb
                             (toMiddleware (rel_location t))
                             (toMiddleware (rel_location (makeRelativeEntry mw location o))))
                     || negb (bool_decide
                                (relation (rel_location t)
                                 = relation (rel_location (makeRelativeEntry mw location o)))))
                  _ (relativeEntries s) x Hu Hx Hc)
        as (l' & t & -> & _).
      * simpl.
        destruct (String.eqb_spec (toMiddleware (rel_location x)) (toMiddleware location))
          as [Ht|Ht]; [|reflexivity].
        destruct (decide (relation (rel_location x) = relation location)) as [Hr|Hr];
          [|by rewrite (bool_decide_eq_false_2 _ Hr)].
        exfalso. apply Hne. destruct (rel_location x), location; simpl in *; congruence.
      * eexists _, _. split; reflexivity.
Qed.

(** ** What does hold of failed calls, of the cache and of the bulk transfer *)

Lemma overrideLoop_forEach_kind entry names s s' err :
  forEach (overrideAbsolute entry) names s = (s', Thrown err) ->
  kind err = OverrideMismatch.
Proof.
  rewrite forEach_overrideAbsolute.
  destruct (overrideLoop _ _ _ _) as [l [t|]]; intros H; inversion H; reflexivity.
Qed.

Lemma overrideLoop_forEach_kind_relative entry names s s' err :
  forEach (overrideRelative entry) names s = (s', Thrown err) ->
  kind err = OverrideMismatch.
Proof.
  rewrite forEach_overrideRelative.
  destruct (overrideLoop _ _ _ _) as [l [t|]]; intros H; inversion H; reflexivity.
Qed.

(** X1: a call of [add] or of [addRelativeTo] that fails with the
    duplicate-name error has changed nothing: the entries, the reserved
    names, the flag and the cache are those before the call. *)
Lemma duplicate_name_leaves_registry_unchanged mw o s s' err :
  kind err = DuplicateName ->
  ((exists location, add mw location o s = (s', Thrown err))
   \/ (exists location, addRelativeTo mw location o s = (s', Thrown err))) ->
  s' = s.
Proof.
  intros Hk [[location H]|[location H]].
  - rewrite add_cases in H. cbv zeta in H.
    destruct (0 <? length _); [|discriminate].
    destruct (someInNameSet _ _); [|discriminate].
    destruct (negb _); [by inversion H|].
    destruct (forEach _ _ s) as [s1 [[]|e]] eqn:Hf; [discriminate|].
    inversion H; subst. apply overrideLoop_forEach_kind in Hf. congruence.
  - rewrite addRelativeTo_cases in H. cbv zeta in H.
    destruct (0 <? length _); [|discriminate].
    destruct (someInNameSet _ _); [|discriminate].
    destruct (negb _); [by inversion H|].
    destruct (forEach _ _ s) as [s1 [[]|e]] eqn:Hf; [discriminate|].
    inversion H; subst. apply overrideLoop_forEach_kind_relative in Hf. congruence.
Qed.

Lemma add_Returned_cache mw location o s s' :
  add mw location o s = (s', Returned tt) -> cachedMiddlewareList s' = None.
Proof.
  rewrite add_cases. cbv zeta.
  destruct (0 <? length _); [|by intros H; inversion H].
  destruct (someInNameSet _ _); [|by intros H; inversion H].
  destruct (negb _); [discriminate|].
  destruct (forEach _ _ s) as [s1 [[]|e]]; [|discriminate].
  by intros H; inversion H.
Qed.

Lemma addRelativeTo_Returned_cache mw location o s s' :
  addRelativeTo mw location o s = (s', Returned tt) -> cachedMiddlewareList s' = None.
Proof.
  rewrite addRelativeTo_cases. cbv zeta.
  destruct (0 <? length _); [|by intros H; inversion H].
  destruct (someInNameSet _ _); [|by intros H; inversion H].
  destruct (negb _); [discriminate|].
  destruct (forEach _ _ s) as [s1 [[]|e]]; [|discriminate].
  by intros H; inversion H.
Qed.

Lemma filter_all {A} (p : A -> bool) (l : list A) :
  length (filter (fun x => p x = true) l) = 0 -> filter (fun x => p x = false) l = l.
Proof.
  induction l as [|x l IH]; [reflexivity|].
  rewrite !filter_cons. destruct (p x); simpl; [discriminate|].
  intros H. by rewrite IH.
Qed.

Lemma removeWhere_consistent hit s :
  cacheConsistent s -> cacheConsistent (fst (removeWhere hit s)).
Proof.
  intros Hs. unfold removeWhere. simpl.
  destruct (filter (fun e => hit (Absolute e) = true) (absoluteEntries s)) as [|a la] eqn:Ha;
    [|by apply cacheConsistent_None].
  destruct (filter (fun e => hit (Relative e) = true) (relativeEntries s)) as [|r lr] eqn:Hr;
    [|by apply cacheConsistent_None].
  simpl. intros c Hc. simpl in Hc.
  unfold callDepth. simpl.
  rewrite (filter_all (fun e => hit (Absolute e))) by (by rewrite Ha).
  rewrite (filter_all (fun e => hit (Relative e))) by (by rewrite Hr).
  by apply Hs.
Qed.

Lemma getMiddlewareList_consistent debug s :
  cacheConsistent s -> cacheConsistent (fst (getMiddlewareList debug s)).
Proof.
  intros Hs. unfold getMiddlewareList.
  destruct debug; simpl.
  - by destruct (resolveEntries _ _ _ _).
  - destruct (cachedMiddlewareList s) eqn:Hc; [assumption|].
    destruct (resolveEntries _ _ _ _) as [nodes|err] eqn:Hr; [|assumption].
    simpl. intros c Hc'. simpl in Hc'. inversion Hc'; subst.
    exists nodes. split; [exact Hr | reflexivity].
Qed.

(** X2: in a registry whose cached chain, if any, is the one its entries
    resolve to, every call that returns leaves such a cache: [add],
    [addRelativeTo] and the bulk transfer drop it, a removal drops it or
    removes nothing, a resolution stores the chain it computed; and a second
    execution-mode resolution returns what the first returned, without
    changing the state. *)
Lemma cache_consistent_when_calls_return (s : Stack) :
  cacheConsistent s ->
  (forall mw location o s', add mw location o s = (s', Returned tt) -> cacheConsistent s')
  /\ (forall mw location o s',
        addRelativeTo mw location o s = (s', Returned tt) -> cacheConsistent s')
  /\ (forall toRemove, cacheConsistent (fst (remove toRemove s)))
  /\ (forall tag, cacheConsistent (fst (removeByTag tag s)))
  /\ (forall absEntries relEntries s',
        _addBulk absEntries relEntries s = (s', Returned tt) -> cacheConsistent s')
  /\ (forall debug, cacheConsistent (fst (getMiddlewareList debug s)))
  /\ (forall s1 chain,
        getMiddlewareList false s = (s1, Returned chain) ->
        getMiddlewareList false s1 = (s1, Returned chain)).
Proof.
  intros Hs. repeat split.
  - intros mw location o s' H. by eapply cacheConsistent_None, add_Returned_cache.
  - intros mw location o s' H. by eapply cacheConsistent_None, addRelativeTo_Returned_cache.
  - intros [name|reference]; by apply removeWhere_consistent.
  - intros tag. by apply removeWhere_consistent.
  - intros absEntries relEntries s' H. apply cacheConsistent_None.
    unfold _addBulk, bind in H.
    destruct (forEach _ absEntries s) as [s1 [[]|e1]]; [|discriminate].
    destruct (forEach _ relEntries s1) as [s2 [[]|e2]]; [|discriminate].
    by inversion H.
  - intros debug. by apply getMiddlewareList_consistent.
  - intros s1 chain. unfold getMiddlewareList at 1. simpl.
    destruct (cachedMiddlewareList s) eqn:Hc.
    + intros H; inversion H; subst. unfold getMiddlewareList. simpl. by rewrite Hc.
    + destruct (resolveEntries _ _ _ _); intros H; inversion H; subst.
      reflexivity.
Qed.

(** Inspection-mode resolution neither reads nor writes the cache. *)
Lemma debug_resolution_ignores_cache (s : Stack) cached :
  fst (getMiddlewareList true s) = s
  /\ snd (getMiddlewareList true (set_cachedMiddlewareList cached s))
     = snd (getMiddlewareList true s).
Proof.
  unfold getMiddlewareList, callDepth. simpl.
  split; by destruct (resolveEntries _ _ _ _).
Qed.

Lemma sameEffect_bind {A B} (f g : M A) (k k' : A -> M B) :
  sameEffect f g -> (forall a, sameEffect (k a) (k' a)) ->
  sameEffect (bind f k) (bind g k').
Proof.
  intros Hf Hk s1 s2 Hs. unfold bind.
  destruct (Hf s1 s2 Hs) as [Hr Hs'].
  destruct (f s1) as [s1' [a|e]], (g s2) as [s2' [a'|e']]; simpl in *;
    try discriminate.
  - inversion Hr; subst. by apply Hk.
  - inversion Hr; subst. by split.
Qed.

Lemma sameEffect_forEach {A} (f g : A -> M unit) l :
  (forall x, sameEffect (f x) (g x)) -> sameEffect (forEach f l) (forEach g l).
Proof.
  intros H. induction l as [|x l IH]; simpl.
  - intros s1 s2 Hs. by split.
  - apply sameEffect_bind; [apply H | intros _; exact IH].
Qed.

Lemma sameRegistry_destruct s1 s2 :
  sameRegistry s1 s2 ->
  s2 = set_cachedMiddlewareList (cachedMiddlewareList s2) s1.
Proof.
  destruct s1, s2. unfold sameRegistry. simpl.
  intros (-> & -> & -> & ->). reflexivity.
Qed.

Lemma add_sameEffect mw location o : sameEffect (add mw location o) (add mw location o).
Proof.
  intros s1 s2 Hs. rewrite (sameRegistry_destruct _ _ Hs).
  generalize (cachedMiddlewareList s2) as c. intros c.
  rewrite !add_cases. cbv zeta. simpl entriesNameSet.
  destruct (0 <? length _); [|by repeat split].
  destruct (someInNameSet _ _); [|by repeat split].
  destruct (negb _); [by repeat split|].
  rewrite !forEach_overrideAbsolute. simpl absoluteEntries.
  destruct (overrideLoop _ _ _ _) as [l [t|]]; by repeat split.
Qed.

Lemma addRelativeTo_sameEffect mw location o :
  sameEffect (addRelativeTo mw location o) (addRelativeTo mw location o).
Proof.
  intros s1 s2 Hs. rewrite (sameRegistry_destruct _ _ Hs).
  generalize (cachedMiddlewareList s2) as c. intros c.
  rewrite !addRelativeTo_cases. cbv zeta. simpl entriesNameSet.
  destruct (0 <? length _); [|by repeat split].
  destruct (someInNameSet _ _); [|by repeat split].
  destruct (negb _); [by repeat split|].
  rewrite !forEach_overrideRelative. simpl relativeEntries.
  destruct (overrideLoop _ _ _ _) as [l [t|]]; by repeat split.
Qed.

Lemma bulkAbsolute_step e s :
  bulkAbsolute e s =
  let names := getAllAliases (name (abs_options e)) (aliases (abs_options e)) in
  if (0 <? length names) && someInNameSet names (entriesNameSet s)
  then add (abs_middleware e) (abs_location e) (abs_options e) s
  else (reserve names (set_absoluteEntries (absoluteEntries s ++ [e]) s), Returned tt).
Proof.
  unfold bulkAbsolute, bind, gets, modify. cbv zeta.
  by destruct ((0 <? length _) && someInNameSet _ _).
Qed.

Lemma bulkRelative_step e s :
  bulkRelative e s =
  let names := getAllAliases (name (rel_options e)) (aliases (rel_options e)) in
  if (0 <? length names) && someInNameSet names (entriesNameSet s)
  then addRelativeTo (rel_middleware e) (rel_location e) (rel_options e) s
  else (reserve names (set_relativeEntries (relativeEntries s ++ [e]) s), Returned tt).
Proof.
  unfold bulkRelative, bind, gets, modify. cbv zeta.
  by destruct ((0 <? length _) && someInNameSet _ _).
Qed.

Lemma bulkAbsolute_sameEffect e :
  sameEffect (bulkAbsolute e) (add (abs_middleware e) (abs_location e) (abs_options e)).
Proof.
  intros t1 t2 Ht. rewrite bulkAbsolute_step. cbv zeta.
  destruct ((0 <? length _) && someInNameSet _ (entriesNameSet t1)) eqn:Hc;
    [by apply add_sameEffect|].
  rewrite add_cases. cbv zeta.
  destruct Ht as (Ha & Hr & Hi & Hn). rewrite <- Hn.
  destruct e as [st pr m o]. simpl in *.
  destruct (0 <? length _) eqn:Hlen; simpl in Hc.
  - rewrite Hc. unfold makeAbsoluteEntry, makeRelativeEntry, abs_location.
    repeat split; simpl; congruence.
  - destruct (getAllAliases (name o) (aliases o)) as [|? ?] eqn:Hal;
      [|discriminate Hlen].
    unfold makeAbsoluteEntry, makeRelativeEntry, abs_location.
    repeat split; simpl; congruence.
Qed.

Lemma bulkRelative_sameEffect e :
  sameEffect (bulkRelative e)
    (addRelativeTo (rel_middleware e) (rel_location e) (rel_options e)).
Proof.
  intros t1 t2 Ht. rewrite bulkRelative_step. cbv zeta.
  destruct ((0 <? length _) && someInNameSet _ (entriesNameSet t1)) eqn:Hc;
    [by apply addRelativeTo_sameEffect|].
  rewrite addRelativeTo_cases. cbv zeta.
  destruct Ht as (Ha & Hr & Hi & Hn). rewrite <- Hn.
  destruct e as [loc m o]. simpl in *.
  destruct (0 <? length _) eqn:Hlen; simpl in Hc.
  - rewrite Hc. unfold makeAbsoluteEntry, makeRelativeEntry, abs_location.
    repeat split; simpl; congruence.
  - destruct (getAllAliases (name o) (aliases o)) as [|? ?] eqn:Hal;
      [|discriminate Hlen].
    unfold makeAbsoluteEntry, makeRelativeEntry, abs_location.
    repeat split; simpl; congruence.
Qed.

(** X3: cache apart, the bulk transfer does to the registry what the
    loop of single [add] and [addRelativeTo] calls does: started from
    registries that differ in the cache at most, the two return or throw the
    same, and leave the same entries, reserved names and flag. *)
Lemma bulk_transfer_agrees_on_the_registry absEntries relEntries :
  sameEffect (_addBulk absEntries relEntries) (addEach absEntries relEntries).
Proof.
  intros s1 s2 Hs. unfold _addBulk, addEach, bind.
  destruct (sameEffect_forEach _ _ absEntries bulkAbsolute_sameEffect s1 s2 Hs)
    as [Hr1 Hs1].
  destruct (forEach bulkAbsolute absEntries s1) as [s1' [[]|e1]],
           (forEach _ absEntries s2) as [s2' [[]|e2]]; simpl in *; try discriminate;
    [|by split].
  destruct (sameEffect_forEach _ _ relEntries bulkRelative_sameEffect s1' s2' Hs1)
    as [Hr2 Hs2].
  destruct (forEach bulkRelative relEntries s1') as [s1'' [[]|e1]],
           (forEach _ relEntries s2') as [s2'' [[]|e2]]; simpl in *; try discriminate;
    [|by split].
  unfold invalidateCache, modify. simpl. split; [reflexivity|].
  destruct Hs2 as (? & ? & ? & ?). by repeat split.
Qed.

(** ** Reserved names and removals *)

Lemma elem_of_addNames a l : forall n, a ∈ addNames l n <-> a ∈ l \/ a ∈ n.
Proof.
  unfold addNames. induction l as [|b l IH]; intros n; simpl.
  - rewrite elem_of_nil. tauto.
  - rewrite IH, elem_of_union, elem_of_singleton, elem_of_cons. tauto.
Qed.

Lemma elem_of_deleteNames a l : forall n, a ∈ deleteNames l n <-> a ∈ n /\ a ∉ l.
Proof.
  unfold deleteNames. induction l as [|b l IH]; intros n; simpl.
  - rewrite elem_of_nil. tauto.
  - rewrite IH, elem_of_difference, elem_of_singleton, not_elem_of_cons. tauto.
Qed.

Lemma addNames_union l n : addNames l n = list_to_set l ∪ n.
Proof.
  apply set_eq. intros a.
  rewrite elem_of_addNames, elem_of_union, elem_of_list_to_set. tauto.
Qed.

Lemma someInNameSet_true l n :
  someInNameSet l n = true <-> exists a, a ∈ l /\ a ∈ n.
Proof.
  unfold someInNameSet. rewrite existsb_exists.
  split; intros (a & Ha & Hn); exists a.
  - apply list_elem_of_In in Ha. by apply bool_decide_eq_true in Hn.
  - split; [by apply list_elem_of_In | by apply bool_decide_eq_true].
Qed.

Lemma someInNameSet_false l n :
  someInNameSet l n = false <-> forall a, a ∈ l -> a ∉ n.
Proof.
  rewrite <- not_true_iff_false, someInNameSet_true. split.
  - intros H a Ha Hn. apply H. eauto.
  - intros H (a & Ha & Hn). by apply (H a).
Qed.

(** The names deleted by a removal: those of the entries rejected. *)
Lemma elem_of_foldl_deleteNames {E} (f : E -> list string) a (l : list E) : forall n,
  a ∈ foldl (fun n e => deleteNames (f e) n) n l
  <-> a ∈ n /\ forall e, e ∈ l -> a ∉ f e.
Proof.
  induction l as [|x l IH]; intros n; simpl.
  - split; [intros H; split; [assumption|] | tauto].
    intros e He. by apply elem_of_nil in He.
  - rewrite IH, elem_of_deleteNames. split.
    + intros [[Hn Hx] Hl]. split; [assumption|].
      intros e [->|He]%elem_of_cons; [assumption | by apply Hl].
    + intros [Hn Hl]. repeat split; [assumption | apply Hl; left |].
      intros e He. apply Hl. by right.
Qed.

Lemma filter_true_false_nil {A} (p : A -> bool) (l : list A) :
  filter (fun x => p x = true) l = [] -> filter (fun x => p x = false) l = l.
Proof. intros H. apply filter_all. by rewrite H. Qed.

Lemma filter_map_hit {A B} (f : A -> B) (p : B -> bool) (b : bool) (l : list A) :
  map f (filter (fun x => p (f x) = b) l) = filter (fun y => p y = b) (map f l).
Proof.
  induction l as [|x l IH]; [reflexivity|].
  simpl. rewrite !filter_cons, <- IH. by repeat case_decide.
Qed.

Lemma removeWhere_removes hit s : removes hit s (removeWhere hit s).
Proof.
  unfold removes. cbv zeta.
  assert (filter (fun e => hit e = true) (entriesOf s)
          = map Absolute (filter (fun e => hit (Absolute e) = true) (absoluteEntries s))
            ++ map Relative (filter (fun e => hit (Relative e) = true) (relativeEntries s)))
    as Hrem.
  { unfold entriesOf. by rewrite filter_app, !filter_map_hit. }
  rewrite Hrem. clear Hrem. split; [|split; [|split; [|split; [|split]]]].
  - unfold removeWhere. simpl. f_equal.
    destruct (filter _ (absoluteEntries s)) as [|a la];
      destruct (filter _ (relativeEntries s)) as [|r lr]; reflexivity.
  - apply removeWhere_entries.
  - intros a. unfold removeWhere. simpl.
    rewrite !elem_of_foldl_deleteNames. split.
    + intros [[Hn Ha] Hr]. split; [assumption|].
      intros e [He|He]%elem_of_app;
        apply list_elem_of_In, in_map_iff in He as (x & <- & Hx);
        apply list_elem_of_In in Hx; [by apply Ha | by apply Hr].
    + intros [Hn H]. repeat split; [assumption| |];
        intros e He; apply H; apply elem_of_app; [left|right];
        apply list_elem_of_In, in_map, list_elem_of_In, He.
  - reflexivity.
  - unfold removeWhere. simpl.
    destruct (filter _ (absoluteEntries s)) as [|a la];
      destruct (filter _ (relativeEntries s)) as [|r lr]; simpl; congruence.
  - intros [Ha Hr]%app_eq_nil.
    apply map_eq_nil in Ha, Hr.
    unfold removeWhere. simpl. rewrite Ha, Hr. simpl.
    rewrite !filter_true_false_nil by assumption. by destruct s.
Qed.

Lemma filter_bool_ext {A} (p q : A -> bool) (b : bool) (l : list A) :
  (forall x, p x = q x) ->
  filter (fun x => p x = b) l = filter (fun x => q x = b) l.
Proof.
  intros H. induction l as [|x l IH]; [reflexivity|].
  rewrite !filter_cons, IH, H. reflexivity.
Qed.

Lemma removeWhere_ext hit hit' s :
  (forall e, hit e = hit' e) -> removeWhere hit s = removeWhere hit' s.
Proof.
  intros H. unfold removeWhere.
  rewrite !(filter_bool_ext (fun e => hit (Absolute e)) (fun e => hit' (Absolute e)))
    by (intros x; apply H).
  rewrite !(filter_bool_ext (fun e => hit (Relative e)) (fun e => hit' (Relative e)))
    by (intros x; apply H).
  reflexivity.
Qed.

Lemma existsb_eqb_decide (t : string) (l : list string) :
  existsb (String.eqb t) l = bool_decide (t ∈ l).
Proof.
  destruct (decide (t ∈ l)) as [Hin|Hnot].
  - rewrite bool_decide_eq_true_2 by assumption. by apply existsb_eqb_elem_of.
  - rewrite bool_decide_eq_false_2 by assumption.
    apply not_true_iff_false. intros (x & Hx & Heq)%existsb_exists.
    apply String.eqb_eq in Heq. subst x. by apply Hnot, list_elem_of_In.
Qed.

(** X4: [remove], by name or by reference, and [removeByTag] take out
    exactly the entries that bear the name, hold the reference or carry the
    tag, and leave the others in order; the names and aliases of the
    entries taken out are no longer reserved, every other reserved name
    stays; the call returns [true] and drops the cache if an entry was
    taken out, and returns [false] and changes nothing otherwise. *)
Theorem removals_take_out_the_entries_hit (s : Stack) :
  (forall toRemove,
     removes (fun e => bool_decide (toRemove ∈ entry_aliases e)) s
       (remove (inl toRemove) s))
  /\ (forall toRemove,
        removes (fun e => bool_decide (middleware e = toRemove)) s
          (remove (inr toRemove) s))
  /\ (forall toRemove,
        removes (fun e => bool_decide (toRemove ∈ default [] (tags (entry_options e)))) s
          (removeByTag toRemove s)).
Proof.
  split; [|split]; intros toRemove.
  - simpl. unfold removeByName.
    rewrite (removeWhere_ext _ (fun e => bool_decide (toRemove ∈ entry_aliases e)))
      by (intros e; apply existsb_eqb_decide).
    apply removeWhere_removes.
  - simpl. unfold removeByReference.
    rewrite (removeWhere_ext _ (fun e => bool_decide (middleware e = toRemove))).
    + apply removeWhere_removes.
    + intros e. destruct (Nat.eqb_spec (middleware e) toRemove) as [Heq|Hne].
      * by rewrite bool_decide_eq_true_2.
      * by rewrite bool_decide_eq_false_2.
  - unfold removeByTag.
    rewrite (removeWhere_ext _
               (fun e => bool_decide (toRemove ∈ default [] (tags (entry_options e))))).
    + apply removeWhere_removes.
    + intros e. destruct (tags (entry_options e)) as [l|].
      * apply existsb_eqb_decide.
      * symmetry. apply bool_decide_eq_false_2, not_elem_of_nil.
Qed.

(** ** A registration undone by a removal *)

Lemma reserve_nil s : reserve [] s = s.
Proof. by destruct s. Qed.

(** With names that are all free, [add] takes the short path. *)
Lemma add_fresh mw location o s :
  someInNameSet (getAllAliases (name o) (aliases o)) (entriesNameSet s) = false ->
  add mw location o s
  = (pushAbsolute (makeAbsoluteEntry mw location o)
       (reserve (getAllAliases (name o) (aliases o)) s), Returned tt).
Proof.
  intros Hfree. rewrite add_cases. cbv zeta. rewrite Hfree.
  destruct (getAllAliases (name o) (aliases o)) as [|a l]; [|reflexivity].
  simpl. by rewrite reserve_nil.
Qed.

Lemma addRelativeTo_fresh mw location o s :
  someInNameSet (getAllAliases (name o) (aliases o)) (entriesNameSet s) = false ->
  addRelativeTo mw location o s
  = (pushRelative (makeRelativeEntry mw location o)
       (reserve (getAllAliases (name o) (aliases o)) s), Returned tt).
Proof.
  intros Hfree. rewrite addRelativeTo_cases. cbv zeta. rewrite Hfree.
  destruct (getAllAliases (name o) (aliases o)) as [|a l]; [|reflexivity].
  simpl. by rewrite reserve_nil.
Qed.

Lemma filter_Forall_id {A} (p : A -> bool) (b : bool) (l : list A) :
  Forall (fun x => p x = b) l -> filter (fun x => p x = b) l = l.
Proof.
  induction 1 as [|x l Hx _ IH]; [reflexivity|].
  by rewrite filter_cons_True, IH.
Qed.

Lemma filter_Forall_nil {A} (p : A -> bool) (b : bool) (l : list A) :
  Forall (fun x => p x = negb b) l -> filter (fun x => p x = b) l = [].
Proof.
  induction 1 as [|x l Hx _ IH]; [reflexivity|].
  rewrite filter_cons_False; [assumption|]. rewrite Hx. by destruct b.
Qed.

Lemma deleteNames_addNames names n :
  (forall a, a ∈ names -> a ∉ n) -> deleteNames names (addNames names n) = n.
Proof.
  intros Hfree. apply set_eq. intros a.
  rewrite elem_of_deleteNames, elem_of_addNames. split; [tauto|].
  intros Ha. split; [by right|]. intros Hin. by apply (Hfree a).
Qed.

Lemma entriesOf_Forall (P : MiddlewareEntry -> Prop) s :
  Forall P (entriesOf s)
  <-> Forall (fun e => P (Absolute e)) (absoluteEntries s)
      /\ Forall (fun e => P (Relative e)) (relativeEntries s).
Proof. unfold entriesOf. by rewrite Forall_app, !Forall_map. Qed.

(** Removing the entry just pushed, and nothing else, gives the registry
    back. *)
Lemma pushAbsolute_removeWhere hit s entry :
  Forall (fun e => hit e = false) (entriesOf s) ->
  (forall a, a ∈ entry_aliases (Absolute entry) -> a ∉ entriesNameSet s) ->
  hit (Absolute entry) = true ->
  removeWhere hit (pushAbsolute entry (reserve (entry_aliases (Absolute entry)) s))
  = (set_cachedMiddlewareList None s, Returned true).
Proof.
  intros [Ha Hr]%entriesOf_Forall Hfree Hhit.
  unfold removeWhere, pushAbsolute, reserve. simpl.
  rewrite !filter_app, !filter_cons, !filter_nil.
  rewrite (filter_Forall_nil (fun e => hit (Absolute e)) true) by exact Ha.
  rewrite (filter_Forall_nil (fun e => hit (Relative e)) true) by exact Hr.
  rewrite (filter_Forall_id (fun e => hit (Absolute e)) false) by exact Ha.
  rewrite (filter_Forall_id (fun e => hit (Relative e)) false) by exact Hr.
  rewrite Hhit. simpl. rewrite app_nil_r, deleteNames_addNames by assumption.
  by destruct s.
Qed.

Lemma pushRelative_removeWhere hit s entry :
  Forall (fun e => hit e = false) (entriesOf s) ->
  (forall a, a ∈ entry_aliases (Relative entry) -> a ∉ entriesNameSet s) ->
  hit (Relative entry) = true ->
  removeWhere hit (pushRelative entry (reserve (entry_aliases (Relative entry)) s))
  = (set_cachedMiddlewareList None s, Returned true).
Proof.
  intros [Ha Hr]%entriesOf_Forall Hfree Hhit.
  unfold removeWhere, pushRelative, reserve. simpl.
  rewrite !filter_app, !filter_cons, !filter_nil.
  rewrite (filter_Forall_nil (fun e => hit (Absolute e)) true) by exact Ha.
  rewrite (filter_Forall_nil (fun e => hit (Relative e)) true) by exact Hr.
  rewrite (filter_Forall_id (fun e => hit (Absolute e)) false) by exact Ha.
  rewrite (filter_Forall_id (fun e => hit (Relative e)) false) by exact Hr.
  rewrite Hhit. simpl. rewrite app_nil_r, deleteNames_addNames by assumption.
  by destruct s.
Qed.

Lemma existsb_eqb_false (t : string) (l : list string) :
  t ∉ l -> existsb (String.eqb t) l = false.
Proof. intros H. rewrite existsb_eqb_decide. by apply bool_decide_eq_false_2. Qed.

(** X5: registering an entry whose names are all free and borne by no
    entry, and then removing it by one of its names, gives back the
    registry as it was, with the cache dropped: the entries, the reserved
    names and the flag are those before the two calls.  The same holds of
    removing it by its middleware reference when no other entry holds that
    reference. *)
Theorem add_then_remove_gives_the_registry_back (s : Stack) (mw : MiddlewareType)
    (o : HandlerOptions) :
  (forall a, a ∈ getAllAliases (name o) (aliases o) ->
     (a ∉ entriesNameSet s) /\ unnamed (absoluteEntries s) (relativeEntries s) a) ->
  (forall n, n ∈ getAllAliases (name o) (aliases o) ->
     (forall location,
        (add mw location o ;;; remove (inl n)) s
        = (set_cachedMiddlewareList None s, Returned true))
     /\ (forall location,
           (addRelativeTo mw location o ;;; remove (inl n)) s
           = (set_cachedMiddlewareList None s, Returned true)))
  /\ ((forall e, e ∈ entriesOf s -> middleware e <> mw) ->
      (forall location,
         (add mw location o ;;; remove (inr mw)) s
         = (set_cachedMiddlewareList None s, Returned true))
      /\ (forall location,
            (addRelativeTo mw location o ;;; remove (inr mw)) s
            = (set_cachedMiddlewareList None s, Returned true))).
Proof.
  intros Hfree.
  assert (someInNameSet (getAllAliases (name o) (aliases o)) (entriesNameSet s) = false)
    as Hnone.
  { apply someInNameSet_false. intros a Ha. by apply Hfree. }
  split.
  - intros n Hn.
    assert (Forall (fun e => existsb (String.eqb n) (entry_aliases e) = false)
              (entriesOf s)) as Hmiss.
    { apply entriesOf_Forall. destruct (Hfree n Hn) as [_ [Ha Hr]].
      split; (eapply Forall_impl; [eassumption|]); intros e He;
        by apply existsb_eqb_false. }
    split; intros location; unfold bind.
    + rewrite add_fresh by assumption. simpl. unfold removeByName.
      apply (pushAbsolute_removeWhere _ s (makeAbsoluteEntry mw location o)).
      * exact Hmiss.
      * intros a Ha. by apply Hfree.
      * by apply existsb_eqb_elem_of.
    + rewrite addRelativeTo_fresh by assumption. simpl. unfold removeByName.
      apply (pushRelative_removeWhere _ s (makeRelativeEntry mw location o)).
      * exact Hmiss.
      * intros a Ha. by apply Hfree.
      * by apply existsb_eqb_elem_of.
  - intros Hother.
    assert (Forall (fun e => (middleware e =? mw) = false) (entriesOf s)) as Hmiss.
    { apply Forall_forall. intros e He. apply Nat.eqb_neq. by apply Hother. }
    split; intros location; unfold bind.
    + rewrite add_fresh by assumption. simpl. unfold removeByReference.
      apply (pushAbsolute_removeWhere _ s (makeAbsoluteEntry mw location o)).
      * exact Hmiss.
      * intros a Ha. by apply Hfree.
      * apply Nat.eqb_refl.
    + rewrite addRelativeTo_fresh by assumption. simpl. unfold removeByReference.
      apply (pushRelative_removeWhere _ s (makeRelativeEntry mw location o)).
      * exact Hmiss.
      * intros a Ha. by apply Hfree.
      * apply Nat.eqb_refl.
Qed.

(** ** Exact names *)

Lemma namesOf_split s :
  namesOf s
  = concat (map (fun e => entry_aliases (Absolute e)) (absoluteEntries s))
    ++ concat (map (fun e => entry_aliases (Relative e)) (relativeEntries s)).
Proof.
  unfold namesOf, entriesOf. by rewrite List.map_app, concat_app, !List.map_map.
Qed.

Lemma elem_of_namesOf a s :
  a ∈ namesOf s <-> exists e, e ∈ entriesOf s /\ a ∈ entry_aliases e.
Proof.
  unfold namesOf. rewrite list_elem_of_In, in_concat. split.
  - intros (l & Hl & Ha). apply in_map_iff in Hl as (e & <- & He).
    exists e. by rewrite !list_elem_of_In.
  - intros (e & He & Ha). exists (entry_aliases e).
    split; [apply in_map | ]; by apply list_elem_of_In.
Qed.

Lemma namesOf_pushAbsolute e s :
  namesOf (pushAbsolute e s) ≡ₚ namesOf s ++ entry_aliases (Absolute e).
Proof.
  rewrite !namesOf_split. simpl.
  rewrite List.map_app, concat_app. simpl. rewrite app_nil_r.
  rewrite <- !app_assoc. apply Permutation_app_head, Permutation_app_comm.
Qed.

Lemma namesOf_pushRelative e s :
  namesOf (pushRelative e s) = namesOf s ++ entry_aliases (Relative e).
Proof.
  rewrite !namesOf_split. simpl.
  rewrite List.map_app, concat_app. simpl. by rewrite app_nil_r, app_assoc.
Qed.

Lemma wellNamed_constructStack : wellNamed constructStack.
Proof. split; [constructor | reflexivity]. Qed.

Lemma wellNamed_cache c s : wellNamed (set_cachedMiddlewareList c s) <-> wellNamed s.
Proof. reflexivity. Qed.

(** Pushing an entry whose names are distinct and free keeps the names
    exact. *)
Lemma wellNamed_push (s s' : Stack) (names : list string) :
  wellNamed s -> NoDup names ->
  (forall a, a ∈ names -> a ∉ entriesNameSet s) ->
  namesOf s' ≡ₚ namesOf s ++ names ->
  entriesNameSet s' = addNames names (entriesNameSet s) ->
  wellNamed s'.
Proof.
  intros [Hnd Hset] Hnames Hfree Hperm Hset'. split.
  - rewrite Hperm. apply NoDup_app. repeat split; [assumption| |assumption].
    intros a Ha Hin. apply (Hfree a Hin). rewrite Hset. by apply elem_of_list_to_set.
  - rewrite Hset'. apply set_eq. intros a.
    rewrite elem_of_addNames, elem_of_list_to_set, Hperm, elem_of_app, Hset,
      elem_of_list_to_set. tauto.
Qed.

Lemma add_without_override mw location o s :
  truthy_flag (override o) = false ->
  add mw location o s
  = if someInNameSet (getAllAliases (name o) (aliases o)) (entriesNameSet s)
    then (s, Thrown (duplicateNameError o))
    else (pushAbsolute (makeAbsoluteEntry mw location o)
            (reserve (getAllAliases (name o) (aliases o)) s), Returned tt).
Proof.
  intros Hov.
  destruct (someInNameSet _ _) eqn:Hc; [|by apply add_fresh].
  rewrite add_cases. cbv zeta.
  by rewrite (someInNameSet_nonempty _ _ Hc), Hc, Hov.
Qed.

Lemma addRelativeTo_without_override mw location o s :
  truthy_flag (override o) = false ->
  addRelativeTo mw location o s
  = if someInNameSet (getAllAliases (name o) (aliases o)) (entriesNameSet s)
    then (s, Thrown (duplicateNameError o))
    else (pushRelative (makeRelativeEntry mw location o)
            (reserve (getAllAliases (name o) (aliases o)) s), Returned tt).
Proof.
  intros Hov.
  destruct (someInNameSet _ _) eqn:Hc; [|by apply addRelativeTo_fresh].
  rewrite addRelativeTo_cases. cbv zeta.
  by rewrite (someInNameSet_nonempty _ _ Hc), Hc, Hov.
Qed.

Lemma add_wellNamed mw location o s :
  wellNamed s -> truthy_flag (override o) = false ->
  NoDup (getAllAliases (name o) (aliases o)) ->
  wellNamed (fst (add mw location o s)).
Proof.
  intros Hs Hov Hnd. rewrite add_without_override by assumption.
  destruct (someInNameSet _ _) eqn:Hc; [assumption|]. simpl.
  eapply (wellNamed_push s); [assumption | exact Hnd | | | reflexivity].
  - by apply someInNameSet_false.
  - apply (namesOf_pushAbsolute (makeAbsoluteEntry mw location o)
             (reserve (getAllAliases (name o) (aliases o)) s)).
Qed.

Lemma addRelativeTo_wellNamed mw location o s :
  wellNamed s -> truthy_flag (override o) = false ->
  NoDup (getAllAliases (name o) (aliases o)) ->
  wellNamed (fst (addRelativeTo mw location o s)).
Proof.
  intros Hs Hov Hnd. rewrite addRelativeTo_without_override by assumption.
  destruct (someInNameSet _ _) eqn:Hc; [assumption|]. simpl.
  eapply (wellNamed_push s); [assumption | exact Hnd | | | reflexivity].
  - by apply someInNameSet_false.
  - by rewrite (namesOf_pushRelative (makeRelativeEntry mw location o)
                  (reserve (getAllAliases (name o) (aliases o)) s)).
Qed.

(** A name borne by an entry that stays is borne by no entry that goes. *)
Lemma names_kept_not_removed {E} (f : E -> list string) (hit : E -> bool)
    (l : list E) (a : string) :
  NoDup (concat (map f l)) ->
  forall e e1, e ∈ l -> hit e = false -> a ∈ f e ->
               e1 ∈ l -> hit e1 = true -> a ∉ f e1.
Proof.
  induction l as [|x l IH]; intros Hnd e e1 He Hhe Ha He1 Hh1 Ha1;
    [by apply elem_of_nil in He|].
  simpl in Hnd. apply NoDup_app in Hnd as (_ & Hdisj & Hnd).
  assert (forall y, y ∈ l -> a ∈ f y -> a ∈ concat (map f l)) as Hin.
  { intros y Hy Hay. apply list_elem_of_In, in_concat. exists (f y).
    split; [apply in_map|]; by apply list_elem_of_In. }
  apply elem_of_cons in He as [->|He]; apply elem_of_cons in He1 as [->|He1].
  - congruence.
  - apply (Hdisj a Ha). by apply (Hin e1).
  - apply (Hdisj a Ha1). by apply (Hin e).
  - by apply (IH Hnd e e1).
Qed.

Lemma concat_filter_sublist {E} (f : E -> list string) (P : E -> Prop)
    `{!forall x, Decision (P x)} (l : list E) :
  concat (map f (filter P l)) `sublist_of` concat (map f l).
Proof.
  induction l as [|x l IH]; [reflexivity|].
  rewrite filter_cons. simpl. case_decide; simpl.
  - by apply sublist_app.
  - by apply sublist_inserts_l.
Qed.

Lemma removeWhere_wellNamed hit s :
  wellNamed s -> wellNamed (fst (removeWhere hit s)).
Proof.
  intros [Hnd Hset].
  destruct (removeWhere_removes hit s) as (_ & Hentries & Hnames & _).
  split.
  - unfold namesOf. rewrite Hentries.
    eapply sublist_NoDup; [exact Hnd | apply concat_filter_sublist].
  - apply set_eq. intros a.
    rewrite Hnames, elem_of_list_to_set, Hset, elem_of_list_to_set, !elem_of_namesOf.
    rewrite Hentries. split.
    + intros [(e & He & Ha) Hrem]. exists e. split; [|assumption].
      apply list_elem_of_filter. split; [|assumption].
      destruct (hit e) eqn:Hh; [|reflexivity].
      exfalso. apply (Hrem e); [|assumption]. by apply list_elem_of_filter.
    + intros (e & [Hh He]%list_elem_of_filter & Ha). split; [eauto|].
      intros e1 [Hh1 He1]%list_elem_of_filter.
      by apply (names_kept_not_removed entry_aliases hit (entriesOf s) a Hnd e e1).
Qed.

(** A property of the state kept by every turn of a loop is kept by the
    loop, whether it runs to its end or stops at an exception. *)
Lemma forEach_preserves {A} (P : Stack -> Prop) (body : A -> M unit) (l : list A) :
  (forall x, x ∈ l -> forall s, P s -> P (fst (body x s))) ->
  forall s, P s -> P (fst (forEach body l s)).
Proof.
  induction l as [|x l IH]; intros Hbody s Hs; [assumption|].
  simpl. unfold bind.
  pose proof (Hbody x (list_elem_of_here _ _) s Hs) as Hx.
  destruct (body x s) as [s1 [[]|err]]; [|assumption].
  apply IH; [|assumption]. intros y Hy. apply Hbody. by right.
Qed.

Lemma bulkAbsolute_wellNamed e s :
  wellNamed s -> truthy_flag (override (abs_options e)) = false ->
  NoDup (entry_aliases (Absolute e)) ->
  wellNamed (fst (bulkAbsolute e s)).
Proof.
  intros Hs Hov Hnd. rewrite bulkAbsolute_step. cbv zeta.
  destruct (_ && _) eqn:Hc; [by apply add_wellNamed|].
  simpl.
  eapply (wellNamed_push s); [assumption | exact Hnd | | | reflexivity].
  - apply someInNameSet_false.
    destruct (someInNameSet _ _) eqn:Hsome; [|reflexivity].
    by rewrite (someInNameSet_nonempty _ _ Hsome) in Hc.
  - apply (namesOf_pushAbsolute e).
Qed.

Lemma bulkRelative_wellNamed e s :
  wellNamed s -> truthy_flag (override (rel_options e)) = false ->
  NoDup (entry_aliases (Relative e)) ->
  wellNamed (fst (bulkRelative e s)).
Proof.
  intros Hs Hov Hnd. rewrite bulkRelative_step. cbv zeta.
  destruct (_ && _) eqn:Hc; [by apply addRelativeTo_wellNamed|].
  simpl.
  eapply (wellNamed_push s); [assumption | exact Hnd | | | reflexivity].
  - apply someInNameSet_false.
    destruct (someInNameSet _ _) eqn:Hsome; [|reflexivity].
    by rewrite (someInNameSet_nonempty _ _ Hsome) in Hc.
  - by rewrite <- (namesOf_pushRelative e).
Qed.

Lemma _addBulk_wellNamed absEntries relEntries s :
  wellNamed s ->
  overrideFree (map Absolute absEntries ++ map Relative relEntries) ->
  Forall (fun e => NoDup (entry_aliases e))
    (map Absolute absEntries ++ map Relative relEntries) ->
  wellNamed (fst (_addBulk absEntries relEntries s)).
Proof.
  unfold overrideFree. rewrite !Forall_app, !Forall_map, !Forall_forall.
  intros Hs [Hoa Hor] [Hna Hnr].
  unfold _addBulk, bind.
  pose proof (forEach_preserves wellNamed bulkAbsolute absEntries) as Ha.
  specialize (Ha (fun x Hx t Ht => bulkAbsolute_wellNamed x t Ht (Hoa x Hx) (Hna x Hx)) s Hs).
  destruct (forEach bulkAbsolute absEntries s) as [s1 [[]|err]]; [|assumption].
  pose proof (forEach_preserves wellNamed bulkRelative relEntries) as Hr.
  specialize (Hr (fun x Hx t Ht => bulkRelative_wellNamed x t Ht (Hor x Hx) (Hnr x Hx)) s1 Ha).
  destruct (forEach bulkRelative relEntries s1) as [s2 [[]|err]]; assumption.
Qed.

(** X6: as long as no entry is registered with [override], the reserved
    names are exactly the names and aliases of the registered entries and no
    name is borne twice: [add], [addRelativeTo] and the bulk transfer of
    entries without [override] and without a repeated name or alias keep
    this, whether they return or throw, and so do the removals and a
    resolution. *)
Theorem names_stay_exact_without_override (s : Stack) :
  wellNamed s ->
  (forall mw o,
     truthy_flag (override o) = false ->
     NoDup (getAllAliases (name o) (aliases o)) ->
     (forall location, wellNamed (fst (add mw location o s)))
     /\ (forall location, wellNamed (fst (addRelativeTo mw location o s))))
  /\ (forall toRemove, wellNamed (fst (remove toRemove s)))
  /\ (forall toRemove, wellNamed (fst (removeByTag toRemove s)))
  /\ (forall absEntries relEntries,
        overrideFree (map Absolute absEntries ++ map Relative relEntries) ->
        Forall (fun e => NoDup (entry_aliases e))
          (map Absolute absEntries ++ map Relative relEntries) ->
        wellNamed (fst (_addBulk absEntries relEntries s)))
  /\ (forall debug, wellNamed (fst (getMiddlewareList debug s))).
Proof.
  intros Hs. split; [|split; [|split; [|split]]].
  - intros mw o Hov Hnd.
    split; intros location; [by apply add_wellNamed | by apply addRelativeTo_wellNamed].
  - intros [n|r]; by apply removeWhere_wellNamed.
  - intros toRemove. by apply removeWhere_wellNamed.
  - intros absEntries relEntries. by apply _addBulk_wellNamed.
  - intros debug. unfold getMiddlewareList.
    destruct (if debug then None else cachedMiddlewareList s); [assumption|].
    destruct (resolveEntries _ _ _ _); [|assumption].
    by destruct debug.
Qed.

(** X7: in a registry whose names are exact, a call without [override]
    fails if and only if a registered entry bears one of the names or
    aliases of the new entry; it then throws the duplicate-name error and
    leaves the registry as it was; otherwise it returns, having appended the
    entry, reserved its names and dropped the cache. *)
Theorem duplicate_name_exactly_when_a_name_is_borne (s : Stack) (mw : MiddlewareType)
    (o : HandlerOptions) :
  wellNamed s ->
  truthy_flag (override o) = false ->
  let names := getAllAliases (name o) (aliases o) in
  let borne := exists a e, a ∈ names /\ e ∈ entriesOf s /\ a ∈ entry_aliases e in
  (borne ->
     (forall location, add mw location o s = (s, Thrown (duplicateNameError o)))
     /\ (forall location, addRelativeTo mw location o s = (s, Thrown (duplicateNameError o))))
  /\ (~ borne ->
      (forall location,
         add mw location o s
         = (pushAbsolute (makeAbsoluteEntry mw location o) (reserve names s), Returned tt))
      /\ (forall location,
            addRelativeTo mw location o s
            = (pushRelative (makeRelativeEntry mw location o) (reserve names s),
               Returned tt))).
Proof.
  intros [_ Hset] Hov names borne.
  assert (someInNameSet names (entriesNameSet s) = true <-> borne) as Hiff.
  { rewrite someInNameSet_true. unfold borne. split.
    - intros (a & Ha & Hin). rewrite Hset, elem_of_list_to_set, elem_of_namesOf in Hin.
      destruct Hin as (e & He & Hae). eauto.
    - intros (a & e & Ha & He & Hae). exists a. split; [assumption|].
      rewrite Hset, elem_of_list_to_set, elem_of_namesOf. eauto. }
  split.
  - intros Hb%Hiff.
    split; intros location;
      [rewrite add_without_override by assumption
      |rewrite addRelativeTo_without_override by assumption];
      fold names; by rewrite Hb.
  - intros Hnb.
    assert (someInNameSet names (entriesNameSet s) = false) as Hfree.
    { apply not_true_iff_false. by rewrite Hiff. }
    split; intros location;
      [rewrite add_without_override by assumption
      |rewrite addRelativeTo_without_override by assumption];
      fold names; by rewrite Hfree.
Qed.

(** ** Names are never given back by a registration *)

Lemma keepsNames_refl s : keepsNames s s.
Proof. by split. Qed.

Lemma keepsNames_trans s1 s2 s3 : keepsNames s1 s2 -> keepsNames s2 s3 -> keepsNames s1 s3.
Proof. intros [H1 H1'] [H2 H2']. split; [intros a Ha; by apply H2, H1 | tauto]. Qed.

(** The alias loop only takes entries out. *)
Lemma overrideLoop_subset {E} (bears : string -> E -> bool) (mismatch : E -> bool)
    (names : list string) : forall l x,
  x ∈ fst (overrideLoop bears mismatch names l) -> x ∈ l.
Proof.
  induction names as [|a names IH]; intros l x; simpl; [done|].
  destruct (findIndex (bears a) l) as [[i t]|]; [|apply IH].
  destruct (mismatch t); [done|].
  intros Hx%IH. eapply elem_of_sublist; [exact Hx | apply sublist_delete].
Qed.

Lemma forEach_overrideAbsolute_keeps entry names s :
  let s1 := fst (forEach (overrideAbsolute entry) names s) in
  entriesNameSet s1 = entriesNameSet s
  /\ forall e, e ∈ entriesOf s1 -> e ∈ entriesOf s.
Proof.
  rewrite forEach_overrideAbsolute.
  destruct (overrideLoop _ _ names (absoluteEntries s)) as [l stopped] eqn:Hl.
  simpl. split; [reflexivity|]. unfold entriesOf. simpl.
  intros e [He|He]%elem_of_app; apply elem_of_app; [left|by right].
  apply list_elem_of_In, in_map_iff in He as (x & <- & Hx).
  apply list_elem_of_In, in_map, list_elem_of_In.
  match type of Hl with overrideLoop ?b ?m _ _ = _ =>
    pose proof (overrideLoop_subset b m names (absoluteEntries s) x) as Hsub end.
  rewrite Hl in Hsub. apply Hsub. by apply list_elem_of_In.
Qed.

Lemma forEach_overrideRelative_keeps entry names s :
  let s1 := fst (forEach (overrideRelative entry) names s) in
  entriesNameSet s1 = entriesNameSet s
  /\ forall e, e ∈ entriesOf s1 -> e ∈ entriesOf s.
Proof.
  rewrite forEach_overrideRelative.
  destruct (overrideLoop _ _ names (relativeEntries s)) as [l stopped] eqn:Hl.
  simpl. split; [reflexivity|]. unfold entriesOf. simpl.
  intros e [He|He]%elem_of_app; apply elem_of_app; [by left|right].
  apply list_elem_of_In, in_map_iff in He as (x & <- & Hx).
  apply list_elem_of_In, in_map, list_elem_of_In.
  match type of Hl with overrideLoop ?b ?m _ _ = _ =>
    pose proof (overrideLoop_subset b m names (relativeEntries s) x) as Hsub end.
  rewrite Hl in Hsub. apply Hsub. by apply list_elem_of_In.
Qed.

(** Taking entries out and then pushing one with its names reserved loses
    no reserved name and leaves no entry with a name that is not
    reserved. *)
Lemma push_keepsNames (s s1 s' : Stack) (e : MiddlewareEntry) :
  entriesNameSet s1 = entriesNameSet s ->
  (forall x, x ∈ entriesOf s1 -> x ∈ entriesOf s) ->
  entriesNameSet s' = addNames (entry_aliases e) (entriesNameSet s1) ->
  (forall x, x ∈ entriesOf s' -> x ∈ entriesOf s1 \/ x = e) ->
  keepsNames s s'.
Proof.
  intros Hn1 He1 Hn' He'. split.
  - intros a Ha. rewrite Hn', elem_of_addNames, Hn1. by right.
  - intros Hres x a [Hx| ->]%He' Ha; rewrite Hn', elem_of_addNames, Hn1.
    + right. apply (Hres x); [by apply He1 | assumption].
    + by left.
Qed.

Lemma entriesOf_pushAbsolute e s x :
  x ∈ entriesOf (pushAbsolute e s) -> x ∈ entriesOf s \/ x = Absolute e.
Proof.
  unfold entriesOf. simpl. rewrite List.map_app, !elem_of_app. simpl.
  rewrite list_elem_of_singleton. tauto.
Qed.

Lemma entriesOf_pushRelative e s x :
  x ∈ entriesOf (pushRelative e s) -> x ∈ entriesOf s \/ x = Relative e.
Proof.
  unfold entriesOf. simpl. rewrite List.map_app, !elem_of_app. simpl.
  rewrite list_elem_of_singleton. tauto.
Qed.

Lemma add_keepsNames mw location o s : keepsNames s (fst (add mw location o s)).
Proof.
  rewrite add_cases. cbv zeta.
  destruct (0 <? length _) eqn:Hlen.
  - destruct (someInNameSet _ _).
    + destruct (negb _); [apply keepsNames_refl|].
      destruct (forEach_overrideAbsolute_keeps (makeAbsoluteEntry mw location o)
                  (getAllAliases (name o) (aliases o)) s) as [Hn He].
      destruct (forEach _ _ s) as [s1 [[]|err]]; simpl in *.
      * eapply (push_keepsNames s s1 _ (Absolute (makeAbsoluteEntry mw location o)));
          [exact Hn | exact He | reflexivity |].
        intros x Hx. by apply entriesOf_pushAbsolute in Hx.
      * split; [intros a; by rewrite Hn|].
        intros Hres x a Hx Ha. rewrite Hn. apply (Hres x); [by apply He | assumption].
    + simpl.
      eapply (push_keepsNames s s _ (Absolute (makeAbsoluteEntry mw location o)));
        [reflexivity | tauto | reflexivity |].
      intros x Hx. by apply entriesOf_pushAbsolute in Hx.
  - simpl.
    eapply (push_keepsNames s s _ (Absolute (makeAbsoluteEntry mw location o)));
      [reflexivity | tauto | |].
    + unfold entry_aliases. simpl.
      destruct (getAllAliases (name o) (aliases o)); [reflexivity | discriminate].
    + intros x Hx. by apply entriesOf_pushAbsolute in Hx.
Qed.

Lemma addRelativeTo_keepsNames mw location o s :
  keepsNames s (fst (addRelativeTo mw location o s)).
Proof.
  rewrite addRelativeTo_cases. cbv zeta.
  destruct (0 <? length _) eqn:Hlen.
  - destruct (someInNameSet _ _).
    + destruct (negb _); [apply keepsNames_refl|].
      destruct (forEach_overrideRelative_keeps (makeRelativeEntry mw location o)
                  (getAllAliases (name o) (aliases o)) s) as [Hn He].
      destruct (forEach _ _ s) as [s1 [[]|err]]; simpl in *.
      * eapply (push_keepsNames s s1 _ (Relative (makeRelativeEntry mw location o)));
          [exact Hn | exact He | reflexivity |].
        intros x Hx. by apply entriesOf_pushRelative in Hx.
      * split; [intros a; by rewrite Hn|].
        intros Hres x a Hx Ha. rewrite Hn. apply (Hres x); [by apply He | assumption].
    + simpl.
      eapply (push_keepsNames s s _ (Relative (makeRelativeEntry mw location o)));
        [reflexivity | tauto | reflexivity |].
      intros x Hx. by apply entriesOf_pushRelative in Hx.
  - simpl.
    eapply (push_keepsNames s s _ (Relative (makeRelativeEntry mw location o)));
      [reflexivity | tauto | |].
    + unfold entry_aliases. simpl.
      destruct (getAllAliases (name o) (aliases o)); [reflexivity | discriminate].
    + intros x Hx. by apply entriesOf_pushRelative in Hx.
Qed.

Lemma forEach_keepsNames {A} (body : A -> M unit) (l : list A) :
  (forall x s, keepsNames s (fst (body x s))) ->
  forall s, keepsNames s (fst (forEach body l s)).
Proof.
  intros Hbody. induction l as [|x l IH]; intros s; [apply keepsNames_refl|].
  simpl. unfold bind. pose proof (Hbody x s) as Hx.
  destruct (body x s) as [s1 [[]|err]]; [|assumption].
  eapply keepsNames_trans; [exact Hx | apply IH].
Qed.

Lemma bulkAbsolute_keepsNames e s : keepsNames s (fst (bulkAbsolute e s)).
Proof.
  rewrite bulkAbsolute_step. cbv zeta.
  destruct (_ && _); [apply add_keepsNames|]. simpl.
  eapply (push_keepsNames s s _ (Absolute e)); [reflexivity | tauto | reflexivity |].
  intros x Hx. by apply (entriesOf_pushAbsolute e s).
Qed.

Lemma bulkRelative_keepsNames e s : keepsNames s (fst (bulkRelative e s)).
Proof.
  rewrite bulkRelative_step. cbv zeta.
  destruct (_ && _); [apply addRelativeTo_keepsNames|]. simpl.
  eapply (push_keepsNames s s _ (Relative e)); [reflexivity | tauto | reflexivity |].
  intros x Hx. by apply (entriesOf_pushRelative e s).
Qed.

Lemma bind_keepsNames {A B} (m : M A) (k : A -> M B) s :
  keepsNames s (fst (m s)) ->
  (forall a t, keepsNames t (fst (k a t))) ->
  keepsNames s (fst (bind m k s)).
Proof.
  intros Hm Hk. unfold bind. destruct (m s) as [s1 [a|err]]; [|assumption].
  eapply keepsNames_trans; [exact Hm | apply Hk].
Qed.

(** X8: [add], [addRelativeTo], the bulk transfer and [cloneTo] never
    give a reserved name back, whether they return or throw, with or without
    [override], and if the names and aliases of all registered entries were
    reserved before the call, they are after it.  So the names of an entry
    removed by an override stay reserved although no entry may bear them any
    more. *)
Theorem adding_never_frees_a_name (s : Stack) :
  (forall mw o,
     (forall location, keepsNames s (fst (add mw location o s)))
     /\ (forall location, keepsNames s (fst (addRelativeTo mw location o s))))
  /\ (forall absEntries relEntries,
        keepsNames s (fst (_addBulk absEntries relEntries s)))
  /\ (forall hasAddBulk source, keepsNames s (fst (cloneTo hasAddBulk source s))).
Proof.
  assert (forall absEntries relEntries t,
            keepsNames t (fst (_addBulk absEntries relEntries t))) as Hbulk.
  { intros absEntries relEntries t. unfold _addBulk.
    apply bind_keepsNames; [apply forEach_keepsNames, bulkAbsolute_keepsNames|].
    intros _ t1. apply bind_keepsNames; [apply forEach_keepsNames, bulkRelative_keepsNames|].
    intros _ t2. exact (keepsNames_refl t2). }
  split; [|split].
  - intros mw o. split; intros location;
      [apply add_keepsNames | apply addRelativeTo_keepsNames].
  - intros absEntries relEntries. apply Hbulk.
  - intros hasAddBulk source. unfold cloneTo.
    apply bind_keepsNames; [|intros _ t; exact (keepsNames_refl t)].
    destruct hasAddBulk; [apply Hbulk|]. unfold addEach.
    apply bind_keepsNames.
    + apply forEach_keepsNames. intros x t. apply add_keepsNames.
    + intros _ t. apply forEach_keepsNames. intros x t'. apply addRelativeTo_keepsNames.
Qed.

(** ** The bulk transfer of fresh names, [clone], [use] and [concat] *)

Lemma addNames_app l k n : addNames (l ++ k) n = addNames k (addNames l n).
Proof. unfold addNames. by rewrite foldl_app. Qed.

Lemma bulkAbsolute_fresh e t :
  (forall a, a ∈ entry_aliases (Absolute e) -> a ∉ entriesNameSet t) ->
  bulkAbsolute e t
  = (reserve (entry_aliases (Absolute e))
       (set_absoluteEntries (absoluteEntries t ++ [e]) t), Returned tt).
Proof.
  intros Hfree%someInNameSet_false. rewrite bulkAbsolute_step. cbv zeta.
  unfold entry_aliases in Hfree. simpl in Hfree. rewrite Hfree.
  by rewrite andb_false_r.
Qed.

Lemma bulkRelative_fresh e t :
  (forall a, a ∈ entry_aliases (Relative e) -> a ∉ entriesNameSet t) ->
  bulkRelative e t
  = (reserve (entry_aliases (Relative e))
       (set_relativeEntries (relativeEntries t ++ [e]) t), Returned tt).
Proof.
  intros Hfree%someInNameSet_false. rewrite bulkRelative_step. cbv zeta.
  unfold entry_aliases in Hfree. simpl in Hfree. rewrite Hfree.
  by rewrite andb_false_r.
Qed.

(** Entries whose names are distinct and free all take the fast path of
    the bulk transfer. *)
Lemma forEach_bulkAbsolute_fresh l : forall t,
  NoDup (concat (map (fun e => entry_aliases (Absolute e)) l)) ->
  (forall a, a ∈ concat (map (fun e => entry_aliases (Absolute e)) l) ->
             a ∉ entriesNameSet t) ->
  forEach bulkAbsolute l t
  = (reserve (concat (map (fun e => entry_aliases (Absolute e)) l))
       (set_absoluteEntries (absoluteEntries t ++ l) t), Returned tt).
Proof.
  induction l as [|e l IH]; intros t Hnd Hfree; simpl.
  - unfold ret. rewrite app_nil_r. by destruct t.
  - simpl in Hnd, Hfree. apply NoDup_app in Hnd as (_ & Hdisj & Hnd).
    unfold bind. rewrite bulkAbsolute_fresh
      by (intros a Ha; apply Hfree, elem_of_app; by left).
    rewrite IH; [|assumption|].
    + unfold reserve. simpl. rewrite addNames_app, <- app_assoc. reflexivity.
    + intros a Ha. simpl. rewrite elem_of_addNames. intros [Hin|Hin].
      * by apply (Hdisj a).
      * apply (Hfree a); [|assumption]. apply elem_of_app. by right.
Qed.

Lemma forEach_bulkRelative_fresh l : forall t,
  NoDup (concat (map (fun e => entry_aliases (Relative e)) l)) ->
  (forall a, a ∈ concat (map (fun e => entry_aliases (Relative e)) l) ->
             a ∉ entriesNameSet t) ->
  forEach bulkRelative l t
  = (reserve (concat (map (fun e => entry_aliases (Relative e)) l))
       (set_relativeEntries (relativeEntries t ++ l) t), Returned tt).
Proof.
  induction l as [|e l IH]; intros t Hnd Hfree; simpl.
  - unfold ret. rewrite app_nil_r. by destruct t.
  - simpl in Hnd, Hfree. apply NoDup_app in Hnd as (_ & Hdisj & Hnd).
    unfold bind. rewrite bulkRelative_fresh
      by (intros a Ha; apply Hfree, elem_of_app; by left).
    rewrite IH; [|assumption|].
    + unfold reserve. simpl. rewrite addNames_app, <- app_assoc. reflexivity.
    + intros a Ha. simpl. rewrite elem_of_addNames. intros [Hin|Hin].
      * by apply (Hdisj a).
      * apply (Hfree a); [|assumption]. apply elem_of_app. by right.
Qed.

(** The bulk transfer of a registry whose names are distinct and free in
    the target appends its entries and reserves their names. *)
Lemma _addBulk_fresh source t :
  NoDup (namesOf source) ->
  (forall a, a ∈ namesOf source -> a ∉ entriesNameSet t) ->
  _addBulk (absoluteEntries source) (relativeEntries source) t
  = ({| absoluteEntries := absoluteEntries t ++ absoluteEntries source;
        relativeEntries := relativeEntries t ++ relativeEntries source;
        identifyOnResolve := identifyOnResolve t;
        entriesNameSet := addNames (namesOf source) (entriesNameSet t);
        cachedMiddlewareList := None |}, Returned tt).
Proof.
  rewrite namesOf_split. intros (Hna & Hdisj & Hnr)%NoDup_app Hfree.
  unfold _addBulk, bind.
  rewrite forEach_bulkAbsolute_fresh;
    [|assumption | intros a Ha; apply Hfree, elem_of_app; by left].
  rewrite forEach_bulkRelative_fresh; [|assumption|].
  - unfold invalidateCache, modify, reserve. simpl. by rewrite addNames_app.
  - intros a Ha. simpl. rewrite elem_of_addNames. intros [Hin|Hin].
    + by apply (Hdisj a).
    + apply (Hfree a); [|assumption]. apply elem_of_app. by right.
Qed.

Lemma addNames_empty l : addNames l ∅ = list_to_set l.
Proof.
  apply set_eq. intros a.
  rewrite elem_of_addNames, elem_of_list_to_set, elem_of_empty. tauto.
Qed.

(** X9: the clone of a registry in which no name is borne twice holds the
    entries of the source in the same order, its flag, and as reserved names
    the names and aliases of these entries; its cache is empty and its names
    are exact; it resolves to what the entries of the source resolve to.
    When the names of the source are exact, the clone is the state of the
    source with the cache dropped. *)
Theorem clone_copies_the_registry (source : Stack) :
  NoDup (namesOf source) ->
  exists c,
    clone source = (c, Returned tt)
    /\ absoluteEntries c = absoluteEntries source
    /\ relativeEntries c = relativeEntries source
    /\ identifyOnResolve c = identifyOnResolve source
    /\ entriesNameSet c = list_to_set (namesOf source)
    /\ cachedMiddlewareList c = None
    /\ wellNamed c
    /\ (forall debug,
          snd (getMiddlewareList debug c)
          = snd (getMiddlewareList debug (set_cachedMiddlewareList None source)))
    /\ (wellNamed source -> c = set_cachedMiddlewareList None source).
Proof.
  intros Hnd. unfold clone, cloneTo, bind.
  rewrite _addBulk_fresh; [|assumption | intros a _; apply not_elem_of_empty].
  unfold modify. simpl. rewrite addNames_empty.
  eexists. split; [reflexivity|]. simpl.
  repeat split; try reflexivity.
  - exact Hnd.
  - intros debug. unfold getMiddlewareList, callDepth. simpl.
    destruct (if debug then None else None); [reflexivity|].
    by destruct (resolveEntries _ _ _ _).
  - intros [_ Hset]. unfold set_cachedMiddlewareList. rewrite <- Hset. by destruct source.
Qed.

Lemma namesOf_appended (self from c : Stack) :
  absoluteEntries c = absoluteEntries self ++ absoluteEntries from ->
  relativeEntries c = relativeEntries self ++ relativeEntries from ->
  namesOf c ≡ₚ namesOf self ++ namesOf from.
Proof.
  intros Ha Hr. rewrite !namesOf_split, Ha, Hr, !List.map_app, !concat_app.
  rewrite <- !app_assoc. apply Permutation_app_head.
  rewrite !app_assoc. apply Permutation_app_tail, Permutation_app_comm.
Qed.

(** X10: a stack used as a plugin of a target that reserves none of its
    names, and in which no name is borne twice, appends its absolute entries
    to the absolute entries of the target and its relative entries to the
    relative ones, reserves their names, drops the cache of the target and
    overwrites the flag of the target with its own; the names of the target
    stay exact if they were. *)
Theorem use_of_a_stack_appends_its_entries (target source : Stack) :
  NoDup (namesOf source) ->
  (forall a, a ∈ namesOf source -> a ∉ entriesNameSet target) ->
  use (applyToStack true source) target
  = ({| absoluteEntries := absoluteEntries target ++ absoluteEntries source;
        relativeEntries := relativeEntries target ++ relativeEntries source;
        identifyOnResolve := identifyOnResolve source;
        entriesNameSet := list_to_set (namesOf source) ∪ entriesNameSet target;
        cachedMiddlewareList := None |}, Returned tt)
  /\ (wellNamed target -> wellNamed (fst (use (applyToStack true source) target))).
Proof.
  intros Hnd Hfree.
  assert (use (applyToStack true source) target
          = ({| absoluteEntries := absoluteEntries target ++ absoluteEntries source;
                relativeEntries := relativeEntries target ++ relativeEntries source;
                identifyOnResolve := identifyOnResolve source;
                entriesNameSet := list_to_set (namesOf source) ∪ entriesNameSet target;
                cachedMiddlewareList := None |}, Returned tt)) as Huse.
  { unfold use, applyToStack, cloneTo, bind.
    rewrite _addBulk_fresh by assumption.
    unfold modify. simpl. by rewrite addNames_union. }
  split; [exact Huse|]. rewrite Huse. simpl. intros [Htnd Htset].
  match goal with |- wellNamed ?c =>
    pose proof (namesOf_appended target source c eq_refl eq_refl) as Hperm end.
  split.
  - rewrite Hperm. apply NoDup_app. repeat split; [assumption| |assumption].
    intros a Ha Hin. apply (Hfree a Hin). rewrite Htset. by apply elem_of_list_to_set.
  - simpl. apply set_eq. intros a.
    rewrite elem_of_union, !elem_of_list_to_set, Hperm, elem_of_app, Htset,
      elem_of_list_to_set. tauto.
Qed.

Lemma clone_fresh source :
  NoDup (namesOf source) ->
  cloneTo true source constructStack
  = ({| absoluteEntries := absoluteEntries source;
        relativeEntries := relativeEntries source;
        identifyOnResolve := identifyOnResolve source;
        entriesNameSet := list_to_set (namesOf source);
        cachedMiddlewareList := None |}, Returned tt).
Proof.
  intros Hnd. unfold cloneTo, bind.
  rewrite _addBulk_fresh; [|assumption | intros a _; apply not_elem_of_empty].
  unfold modify. simpl. by rewrite addNames_empty.
Qed.

(** X11: the concatenation of two registries that share no name, and in
    which no name is borne twice, returns a new registry holding the
    absolute entries of the first followed by those of the second, and the
    relative entries likewise; its reserved names are the names and aliases
    of all these entries, its cache is empty, and it logs on resolve if
    either of the two does. *)
Theorem concat_appends_the_registries (self from : Stack) :
  NoDup (namesOf self ++ namesOf from) ->
  exists c,
    concatStack self from = (c, Returned tt)
    /\ absoluteEntries c = absoluteEntries self ++ absoluteEntries from
    /\ relativeEntries c = relativeEntries self ++ relativeEntries from
    /\ identifyOnResolve c = identifyOnResolve self || identifyOnResolve from
    /\ entriesNameSet c = list_to_set (namesOf self ++ namesOf from)
    /\ cachedMiddlewareList c = None
    /\ wellNamed c.
Proof.
  intros (Hself & Hdisj & Hfrom)%NoDup_app.
  unfold concatStack, bind. rewrite clone_fresh by assumption.
  unfold use, applyToStack, cloneTo, bind.
  rewrite _addBulk_fresh; [|assumption|].
  - unfold modify, identifyOnResolveMethod, bind, ret, gets, modify. simpl.
    eexists. split; [reflexivity|]. simpl.
    assert (addNames (namesOf from) (list_to_set (namesOf self))
            = list_to_set (namesOf self ++ namesOf from)) as Hset.
    { apply set_eq. intros a.
      rewrite elem_of_addNames, !elem_of_list_to_set, elem_of_app. tauto. }
    match goal with |- context [wellNamed ?c] =>
      pose proof (namesOf_appended self from c eq_refl eq_refl) as Hperm end.
    repeat split; try reflexivity.
    + by destruct (identifyOnResolve self), (identifyOnResolve from).
    + exact Hset.
    + rewrite Hperm. apply NoDup_app. by repeat split.
    + simpl. rewrite Hset. apply set_eq. intros a.
      by rewrite !elem_of_list_to_set, Hperm.
  - simpl. intros a Ha Hin. apply elem_of_list_to_set in Hin. by apply (Hdisj a).
Qed.

Lemma bulkAbsolute_without_override e t :
  truthy_flag (override (abs_options e)) = false ->
  bulkAbsolute e t
  = if someInNameSet (entry_aliases (Absolute e)) (entriesNameSet t)
    then (t, Thrown (duplicateNameError (abs_options e)))
    else (reserve (entry_aliases (Absolute e))
            (set_absoluteEntries (absoluteEntries t ++ [e]) t), Returned tt).
Proof.
  intros Hov. destruct (someInNameSet _ _) eqn:Hc.
  - rewrite bulkAbsolute_step. cbv zeta. unfold entry_aliases in Hc. simpl in Hc.
    rewrite Hc, (someInNameSet_nonempty _ _ Hc). simpl.
    rewrite add_without_override by assumption. by rewrite Hc.
  - apply bulkAbsolute_fresh. by apply someInNameSet_false.
Qed.

Lemma bulkRelative_without_override e t :
  truthy_flag (override (rel_options e)) = false ->
  bulkRelative e t
  = if someInNameSet (entry_aliases (Relative e)) (entriesNameSet t)
    then (t, Thrown (duplicateNameError (rel_options e)))
    else (reserve (entry_aliases (Relative e))
            (set_relativeEntries (relativeEntries t ++ [e]) t), Returned tt).
Proof.
  intros Hov. destruct (someInNameSet _ _) eqn:Hc.
  - rewrite bulkRelative_step. cbv zeta. unfold entry_aliases in Hc. simpl in Hc.
    rewrite Hc, (someInNameSet_nonempty _ _ Hc). simpl.
    rewrite addRelativeTo_without_override by assumption. by rewrite Hc.
  - apply bulkRelative_fresh. by apply someInNameSet_false.
Qed.

(** A loop of the bulk transfer over entries without [override] either
    throws the duplicate-name error, or returns, and then none of their
    names was reserved and no reserved name has been lost. *)
Lemma forEach_bulk_without_override {E} (body : E -> M unit) (opts : E -> HandlerOptions)
    (names : E -> list string) (push : E -> Stack -> Stack) :
  (forall e t, entriesNameSet (push e t) = addNames (names e) (entriesNameSet t)) ->
  (forall e t, truthy_flag (override (opts e)) = false ->
     body e t = if someInNameSet (names e) (entriesNameSet t)
                then (t, Thrown (duplicateNameError (opts e)))
                else (push e t, Returned tt)) ->
  forall l t, Forall (fun e => truthy_flag (override (opts e)) = false) l ->
    (exists t', forEach body l t = (t', Returned tt)
       /\ (forall a, a ∈ entriesNameSet t -> a ∈ entriesNameSet t')
       /\ (forall a, a ∈ concat (map names l) -> a ∉ entriesNameSet t))
    \/ (exists t' err, forEach body l t = (t', Thrown err) /\ kind err = DuplicateName).
Proof.
  intros Hpush Hbody l. induction l as [|e l IH]; intros t Hov; simpl.
  - left. exists t. repeat split; [tauto|]. intros a Ha. by apply elem_of_nil in Ha.
  - apply Forall_cons in Hov as [He Hl]. unfold bind. rewrite Hbody by assumption.
    destruct (someInNameSet _ _) eqn:Hc; [right; eauto|].
    destruct (IH (push e t) Hl) as [(t' & -> & Hgrow & Hfree)|(t' & err & -> & Hk)];
      [left|right; eauto].
    exists t'. split; [reflexivity|]. split.
    + intros a Ha. apply Hgrow. rewrite Hpush, elem_of_addNames. by right.
    + intros a [Ha|Ha]%elem_of_app.
      * by apply (proj1 (someInNameSet_false _ _) Hc).
      * intros Hin. apply (Hfree a Ha). rewrite Hpush, elem_of_addNames. by right.
Qed.

(** X12: the concatenation fails with the duplicate-name error when the
    second registry, whose entries were registered without [override], holds
    a name or alias that the first one holds. *)
Theorem concat_fails_on_a_shared_name (self from : Stack) :
  NoDup (namesOf self) ->
  overrideFree (entriesOf from) ->
  (exists a, a ∈ namesOf self /\ a ∈ namesOf from) ->
  exists c err, concatStack self from = (c, Thrown err) /\ kind err = DuplicateName.
Proof.
  intros Hself [Hoa Hor]%entriesOf_Forall (a & Ha & Hfrom).
  unfold concatStack, bind. rewrite clone_fresh by assumption.
  unfold use, applyToStack, cloneTo, _addBulk, bind.
  match goal with |- context [forEach bulkAbsolute _ ?t] => set (c0 := t) end.
  assert (a ∈ entriesNameSet c0) as Hin by (by apply elem_of_list_to_set).
  destruct (forEach_bulk_without_override bulkAbsolute abs_options
              (fun e => entry_aliases (Absolute e))
              (fun e t => reserve (entry_aliases (Absolute e))
                            (set_absoluteEntries (absoluteEntries t ++ [e]) t))
              (fun e t => eq_refl) bulkAbsolute_without_override
              (absoluteEntries from) c0 Hoa)
    as [(c1 & -> & Hgrow & Hfree)|(c1 & err & -> & Hk)]; [|eauto].
  destruct (forEach_bulk_without_override bulkRelative rel_options
              (fun e => entry_aliases (Relative e))
              (fun e t => reserve (entry_aliases (Relative e))
                            (set_relativeEntries (relativeEntries t ++ [e]) t))
              (fun e t => eq_refl) bulkRelative_without_override
              (relativeEntries from) c1 Hor)
    as [(c2 & -> & _ & Hfree')|(c2 & err & -> & Hk)]; [|eauto].
  exfalso. rewrite namesOf_split in Hfrom.
  apply elem_of_app in Hfrom as [Hfrom|Hfrom].
  - by apply (Hfree a).
  - apply (Hfree' a); [assumption | by apply Hgrow].
Qed.

(** ** Anonymous entries *)

Lemma findIndex_delete_keeps {E} (p : E -> bool) (l : list E) x : forall i t,
  findIndex p l = Some (i, t) -> p x = false -> x ∈ l -> x ∈ delete i l.
Proof.
  induction l as [|y l IH]; intros i t; simpl; [discriminate|].
  destruct (p y) eqn:Hy.
  - intros [= <- <-] Hx [->|Hin]%elem_of_cons; [congruence | assumption].
  - destruct (findIndex p l) as [[j u]|]; [|discriminate].
    intros [= <- <-] Hx [->|Hin]%elem_of_cons; simpl; [left|].
    right. by apply (IH j u).
Qed.

(** The alias loop of [add] and of [addRelativeTo] splices out no entry
    that [entry.name === alias || entry.aliases?.some(...)] holds of for no
    alias. *)
Lemma overrideLoop_keeps {E} (bears : string -> E -> bool) (mismatch : E -> bool)
    (names : list string) x : forall l,
  (forall a, bears a x = false) -> x ∈ l ->
  x ∈ fst (overrideLoop bears mismatch names l).
Proof.
  induction names as [|a names IH]; intros l Hx Hin; simpl; [assumption|].
  destruct (findIndex (bears a) l) as [[i t]|] eqn:Hf; [|by apply IH].
  destruct (mismatch t); [assumption|].
  apply IH; [assumption|]. by eapply findIndex_delete_keeps.
Qed.

Lemma entriesOf_kept e s t :
  (forall x, e = Absolute x -> x ∈ absoluteEntries s -> x ∈ absoluteEntries t) ->
  (forall x, e = Relative x -> x ∈ relativeEntries s -> x ∈ relativeEntries t) ->
  e ∈ entriesOf s -> e ∈ entriesOf t.
Proof.
  unfold entriesOf. intros Habs Hrel.
  rewrite !elem_of_app, !list_elem_of_In, !in_map_iff.
  intros [(x & <- & Hx)|(x & <- & Hx)]; [left | right]; exists x;
    (split; [reflexivity|]); apply list_elem_of_In; apply list_elem_of_In in Hx; auto.
Qed.

Lemma add_keeps_nameless e mw location o s :
  (forall a, bearsAlias a (entry_options e) = false) ->
  e ∈ entriesOf s -> e ∈ entriesOf (fst (add mw location o s)).
Proof.
  intros Hn. rewrite add_cases. cbv zeta.
  assert (forall t, e ∈ entriesOf t ->
            e ∈ entriesOf (pushAbsolute (makeAbsoluteEntry mw location o)
                             (reserve (getAllAliases (name o) (aliases o)) t)))
    as Hpush.
  { intros t. apply entriesOf_kept; simpl; intros x _ Hx; [|assumption].
    apply elem_of_app. by left. }
  assert (forall t, e ∈ entriesOf t ->
            e ∈ entriesOf (pushAbsolute (makeAbsoluteEntry mw location o) t))
    as Hpush'.
  { intros t. apply entriesOf_kept; simpl; intros x _ Hx; [|assumption].
    apply elem_of_app. by left. }
  destruct (0 <? length _); [|apply Hpush'].
  destruct (someInNameSet _ _); [|apply Hpush].
  destruct (negb _); [done|].
  rewrite forEach_overrideAbsolute.
  pose proof (overrideLoop_keeps (fun a x => bearsAlias a (abs_options x))
                (fun t => negb (bool_decide (step t = step (makeAbsoluteEntry mw location o)))
                          || negb (bool_decide (priority (makeAbsoluteEntry mw location o)
                                                = priority t)))
                (getAllAliases (name o) (aliases o))) as Hkeep.
  destruct (overrideLoop _ _ _ _) as [l stopped] eqn:Hl. intros He.
  assert (e ∈ entriesOf (set_absoluteEntries l s)) as Hs1.
  { revert He. apply entriesOf_kept; simpl; [|auto].
    intros x -> Hx. specialize (Hkeep x (absoluteEntries s) Hn Hx).
    by rewrite Hl in Hkeep. }
  destruct stopped; [exact Hs1 | by apply Hpush].
Qed.

Lemma addRelativeTo_keeps_nameless e mw location o s :
  (forall a, bearsAlias a (entry_options e) = false) ->
  e ∈ entriesOf s -> e ∈ entriesOf (fst (addRelativeTo mw location o s)).
Proof.
  intros Hn. rewrite addRelativeTo_cases. cbv zeta.
  assert (forall t, e ∈ entriesOf t ->
            e ∈ entriesOf (pushRelative (makeRelativeEntry mw location o)
                             (reserve (getAllAliases (name o) (aliases o)) t)))
    as Hpush.
  { intros t. apply entriesOf_kept; simpl; intros x _ Hx; [assumption|].
    apply elem_of_app. by left. }
  assert (forall t, e ∈ entriesOf t ->
            e ∈ entriesOf (pushRelative (makeRelativeEntry mw location o) t))
    as Hpush'.
  { intros t. apply entriesOf_kept; simpl; intros x _ Hx; [assumption|].
    apply elem_of_app. by left. }
  destruct (0 <? length _); [|apply Hpush'].
  destruct (someInNameSet _ _); [|apply Hpush].
  destruct (negb _); [done|].
  rewrite forEach_overrideRelative.
  pose proof (overrideLoop_keeps (fun a x => bearsAlias a (rel_options x))
                (fun t => negb (String.eqb (toMiddleware (rel_location t))
                                  (toMiddleware (rel_location
                                     (makeRelativeEntry mw location o))))
                          || negb (bool_decide
                                     (relation (rel_location t)
                                      = relation (rel_location
                                          (makeRelativeEntry mw location o)))))
                (getAllAliases (name o) (aliases o))) as Hkeep.
  destruct (overrideLoop _ _ _ _) as [l stopped] eqn:Hl. intros He.
  assert (e ∈ entriesOf (set_relativeEntries l s)) as Hs1.
  { revert He. apply entriesOf_kept; simpl; [auto|].
    intros x -> Hx. specialize (Hkeep x (relativeEntries s) Hn Hx).
    by rewrite Hl in Hkeep. }
  destruct stopped; [exact Hs1 | by apply Hpush].
Qed.

Lemma _addBulk_keeps_nameless e absEntries relEntries s :
  (forall a, bearsAlias a (entry_options e) = false) ->
  e ∈ entriesOf s -> e ∈ entriesOf (fst (_addBulk absEntries relEntries s)).
Proof.
  intros Hn He. unfold _addBulk, bind.
  pose proof (forEach_preserves (fun t => e ∈ entriesOf t) bulkAbsolute absEntries) as H1.
  pose proof (forEach_preserves (fun t => e ∈ entriesOf t) bulkRelative relEntries) as H2.
  simpl in H1, H2.
  assert (e ∈ entriesOf (fst (forEach bulkAbsolute absEntries s))) as He1.
  { apply H1; [|assumption]. intros x _ t Ht. rewrite bulkAbsolute_step. cbv zeta.
    destruct (_ && _); [by apply add_keeps_nameless|].
    revert Ht. apply entriesOf_kept; simpl; intros y _ Hy; [|assumption].
    apply elem_of_app. by left. }
  destruct (forEach bulkAbsolute absEntries s) as [s1 [[]|err]]; [|exact He1].
  simpl in He1.
  assert (e ∈ entriesOf (fst (forEach bulkRelative relEntries s1))) as He2.
  { apply H2; [|assumption]. intros x _ t Ht. rewrite bulkRelative_step. cbv zeta.
    destruct (_ && _); [by apply addRelativeTo_keeps_nameless|].
    revert Ht. apply entriesOf_kept; simpl; intros y _ Hy; [assumption|].
    apply elem_of_app. by left. }
  destruct (forEach bulkRelative relEntries s1) as [s2 [[]|err]]; exact He2.
Qed.

(** C10, as amended: an entry with no aliases whose name is absent or the
    empty string is always accepted by [add] and by [addRelativeTo],
    whatever the registry and the override flag: the call returns, appends
    the entry made of the caller's middleware, location and options (step
    and priority defaulting to initialize and normal), removes nothing,
    leaves the set of names as it was and drops the cached chain.  No
    removal by name removes such an entry; a removal by reference removes it
    exactly when the reference is its middleware, a removal by tag exactly
    when the tag is one of its tags.  If its name is absent, no later call
    of [add], [addRelativeTo] or [_addBulk] removes it either, whether that
    call returns or throws. *)
Theorem anonymous_entries_always_added (s : Stack) (mw : MiddlewareType)
    (o : HandlerOptions) :
  name o = None \/ name o = Some EmptyString ->
  aliases o = None \/ aliases o = Some [] ->
  (forall location,
      add mw location o s
      = ({| absoluteEntries :=
              absoluteEntries s
              ++ [{| step := default initialize (o_step location);
                     priority := default normal (o_priority location);
                     abs_middleware := mw;
                     abs_options := o |}];
            relativeEntries := relativeEntries s;
            identifyOnResolve := identifyOnResolve s;
            entriesNameSet := entriesNameSet s;
            cachedMiddlewareList := None |},
         Returned tt))
  /\ (forall location,
        addRelativeTo mw location o s
        = ({| absoluteEntries := absoluteEntries s;
              relativeEntries :=
                relativeEntries s
                ++ [{| rel_location := location;
                       rel_middleware := mw;
                       rel_options := o |}];
              identifyOnResolve := identifyOnResolve s;
              entriesNameSet := entriesNameSet s;
              cachedMiddlewareList := None |},
           Returned tt))
  /\ (forall (s0 : Stack) (e : MiddlewareEntry),
        e ∈ entriesOf s0 -> entry_options e = o ->
        (forall toRemove, e ∈ entriesOf (fst (removeByName toRemove s0)))
        /\ (forall toRemove,
              e ∈ entriesOf (fst (removeByReference toRemove s0))
              <-> middleware e <> toRemove)
        /\ (forall toRemove,
              e ∈ entriesOf (fst (removeByTag toRemove s0))
              <-> toRemove ∉ default [] (tags o))
        /\ (name o = None ->
            forall mw' o',
              (forall location, e ∈ entriesOf (fst (add mw' location o' s0)))
              /\ (forall location,
                    e ∈ entriesOf (fst (addRelativeTo mw' location o' s0)))
              /\ (forall absEntries relEntries,
                    e ∈ entriesOf (fst (_addBulk absEntries relEntries s0))))).
Proof.
  intros Hn Ha. pose proof (anonymous_no_names o Hn Ha) as Hnone.
  split; [|split].
  - intros location. rewrite add_cases. simpl. by rewrite Hnone.
  - intros location. rewrite addRelativeTo_cases. simpl. by rewrite Hnone.
  - intros s0 e He Ho. split; [|split; [|split]].
    + intros toRemove. unfold removeByName. rewrite removeWhere_entries.
      apply list_elem_of_filter. split; [|assumption].
      unfold entry_aliases. by rewrite Ho, Hnone.
    + intros toRemove. unfold removeByReference. rewrite removeWhere_entries.
      rewrite list_elem_of_filter, Nat.eqb_neq. tauto.
    + intros toRemove. unfold removeByTag. rewrite removeWhere_entries.
      rewrite list_elem_of_filter, Ho.
      destruct (tags o) as [l|]; simpl.
      * split.
        -- intros [Hhit _] Hin. by rewrite existsb_eqb_elem_of in Hhit.
        -- intros Hin. split; [|assumption].
           destruct (existsb _ l) eqn:Hex; [|reflexivity].
           apply existsb_exists in Hex as (t & Ht & ->%String.eqb_eq).
           by apply list_elem_of_In in Ht.
      * split; [intros _; apply not_elem_of_nil | by intros _].
    + intros Hname mw' o'.
      assert (forall a, bearsAlias a (entry_options e) = false) as Hnameless.
      { intros a. unfold bearsAlias. rewrite Ho, Hname.
        by destruct Ha as [->| ->]. }
      split; [|split].
      * intros location. by apply add_keeps_nameless.
      * intros location. by apply addRelativeTo_keeps_nameless.
      * intros absEntries relEntries. by apply _addBulk_keeps_nameless.
Qed.

(** ** Inspection and execution *)

(** X13: when an execution-mode resolution of a registry with a consistent
    cache returns a chain, inspection mode returns the same chain, so
    [identify] describes the entries of that chain in its order, before and
    after the resolution; and [resolve] returns the handler composed from
    that chain and, when the flag is set, logs the description of exactly
    the chain it composed. *)
Theorem inspection_lists_the_chain_executed (s s1 : Stack)
    (chain : list MiddlewareEntry) :
  cacheConsistent s ->
  getMiddlewareList false s = (s1, Returned chain) ->
  getMiddlewareList true s = (s, Returned chain)
  /\ identify s = (s, Returned (map describe chain))
  /\ identify s1 = (s1, Returned (map describe chain))
  /\ forall (Handler Context : Type)
       (invoke : MiddlewareType -> Handler -> Context -> Handler)
       (handler : Handler) (context : Context),
       resolve Handler Context invoke handler context s
       = (s1, Returned (composeHandlers Handler Context invoke chain handler context,
                        if identifyOnResolve s
                        then Some (map describe chain) else None)).
Proof.
  intros Hs Hg.
  assert (exists nodes,
            resolveEntries (callDepth s) false (absoluteEntries s) (relativeEntries s)
            = Returned nodes /\ chain = map entry nodes) as (nodes & Hn & ->).
  { unfold getMiddlewareList in Hg. simpl in Hg.
    destruct (cachedMiddlewareList s) as [cached|] eqn:Hc.
    - inversion Hg; subst. by apply Hs.
    - destruct (resolveEntries _ _ _ _) as [nodes|err]; [|discriminate].
      inversion Hg; subst. eauto. }
  apply resolveEntries_inspection in Hn.
  assert (absoluteEntries s1 = absoluteEntries s
          /\ relativeEntries s1 = relativeEntries s
          /\ identifyOnResolve s1 = identifyOnResolve s) as (Ha & Hr & Hi).
  { unfold getMiddlewareList in Hg. simpl in Hg.
    destruct (cachedMiddlewareList s); [by inversion Hg|].
    destruct (resolveEntries _ false _ _); inversion Hg; by subst. }
  assert (getMiddlewareList true s = (s, Returned (map entry nodes))) as Hd.
  { rewrite getMiddlewareList_fresh by reflexivity. by rewrite Hn. }
  assert (getMiddlewareList true s1 = (s1, Returned (map entry nodes))) as Hd1.
  { rewrite getMiddlewareList_fresh by reflexivity.
    unfold callDepth. rewrite Ha, Hr. fold (callDepth s). by rewrite Hn. }
  repeat split.
  - exact Hd.
  - unfold identify, bind, ret. by rewrite Hd.
  - unfold identify, bind, ret. by rewrite Hd1.
  - intros Handler Context invoke handler context.
    unfold resolve, bind, gets, ret. rewrite Hg, Hi.
    destruct (identifyOnResolve s); [|reflexivity].
    unfold identify, bind, ret. by rewrite Hd1.
Qed.

(** ** The names anchors are looked up under *)

(** A name is looked up to the last entry registered under it. *)
Lemma foldl_registerNames_last a A l : forall m,
  foldl registerNames m l !! a = Some A
  <-> (exists front back,
         l = front ++ A :: back
         /\ a ∈ entry_aliases (entry A)
         /\ Forall (fun y => a ∉ entry_aliases (entry y)) back)
      \/ (m !! a = Some A /\ Forall (fun y => a ∉ entry_aliases (entry y)) l).
Proof.
  induction l as [|x l IH]; intros m; simpl.
  - split; [intros H; right; by split|].
    intros [(front & back & E & _)|[H _]]; [|assumption].
    by destruct front.
  - rewrite IH, registerNames_lookup. split.
    + intros [(front & back & -> & Ha & Hback)|[Hm Hl]].
      * left. exists (x :: front), back. by repeat split.
      * destruct (decide (a ∈ entry_aliases (entry x))) as [Hx|Hx].
        -- inversion Hm; subst. left. exists [], l. by repeat split.
        -- right. split; [assumption | by constructor].
    + intros [(front & back & E & Ha & Hback)|[Hm Hl]].
      * destruct front as [|y front]; simpl in E; inversion E; subst.
        -- right. destruct (decide (a ∈ entry_aliases (entry A))); [by split | contradiction].
        -- left. exists front, back. by repeat split.
      * apply Forall_cons in Hl as [Hx Hl]. right.
        destruct (decide (a ∈ entry_aliases (entry x))); [contradiction | by split].
Qed.

(** X14: what an anchor name is looked up to.  The name map of a
    resolution sends a name that some entry bears to the normalized copy of
    the last entry registered that bears it as name or alias, the relative
    entries counting as registered after all absolute ones.  A name that no
    entry bears is looked up along the prototype chain of the map: it finds
    a value that is no normalized entry when it is an inherited name (a
    property of [Object.prototype], or of the entry registered last under
    [__proto__]), and nothing otherwise.  So when an absolute and a relative
    entry bear the same name, entries anchored to that name are attached to
    the relative one. *)
Theorem anchor_names_the_last_bearer (absEntries : list AbsoluteMiddlewareEntry)
    (relEntries : list RelativeMiddlewareEntry) (a : string) :
  let nm := buildNameMap (normalizeAbsolute absEntries)
              (normalizeRelative (length absEntries) relEntries) in
  (forall A,
     getProperty nm a = Registered A
     <-> exists front back,
           normalizedEntries absEntries relEntries = front ++ A :: back
           /\ a ∈ entry_aliases (entry A)
           /\ Forall (fun y => a ∉ entry_aliases (entry y)) back)
  /\ (getProperty nm a = Inherited
      <-> unnamed absEntries relEntries a /\ inheritedName absEntries relEntries a)
  /\ (getProperty nm a = Undefined
      <-> unnamed absEntries relEntries a /\ ~ inheritedName absEntries relEntries a).
Proof.
  intros nm.
  assert (forall A,
            nm !! a = Some A
            <-> exists front back,
                  normalizedEntries absEntries relEntries = front ++ A :: back
                  /\ a ∈ entry_aliases (entry A)
                  /\ Forall (fun y => a ∉ entry_aliases (entry y)) back) as Hsome.
  { intros A. subst nm. unfold buildNameMap, normalizedEntries.
    rewrite <- foldl_app, foldl_registerNames_last, lookup_empty.
    split; [intros [H|[H _]]; [assumption | discriminate] | by left]. }
  pose proof (buildNameMap_None absEntries relEntries (length absEntries) a) as Hnone.
  pose proof (inherits_inheritedName absEntries relEntries (length absEntries) a) as Hinh.
  fold nm in Hnone, Hinh. unfold getProperty.
  destruct (nm !! a) as [B|] eqn:Hl.
  - split; [|split].
    + intros A. rewrite <- Hsome. split; intros H; by inversion H.
    + split; [discriminate|]. intros [Hu _]. apply Hnone in Hu. discriminate.
    + split; [discriminate|]. intros [Hu _]. apply Hnone in Hu. discriminate.
  - assert (unnamed absEntries relEntries a) as Hu by (by apply Hnone).
    split; [|split].
    + intros A. rewrite <- Hsome. split; [by destruct (inherits nm a) | discriminate].
    + destruct (inherits nm a).
      * split; [intros _; split; [assumption | by apply Hinh] | reflexivity].
      * split; [discriminate|]. intros [_ Hi]. apply Hinh in Hi. discriminate.
    + destruct (inherits nm a).
      * split; [discriminate|]. intros [_ Hi]. exfalso. apply Hi. by apply Hinh.
      * split; [|reflexivity]. intros _. split; [assumption|].
        intros Hi. apply Hinh in Hi. discriminate.
Qed.

(** ** The entries of the chain *)

Section Members.
Variable n : nat.
Variable rel : list RelativeMiddlewareEntry.
Variable nm : gmap string NormalizedEntry.

Lemma ancestor_snoc k : forall y c r,
  ancestor n rel nm k y = Some c -> parentRef n rel nm c = Some r ->
  ancestor n rel nm (S k) y = Some r.
Proof.
  induction k as [|k IH]; intros y c r Hk Hp.
  - simpl in Hk. inversion Hk; subst. simpl. by rewrite Hp.
  - simpl in Hk. destruct (parentRef n rel nm y) as [q|] eqn:Hq; [|discriminate].
    change (ancestor n rel nm (S (S k)) y)
      with (match parentRef n rel nm y with
            | Some p => ancestor n rel nm (S k) p
            | None => None
            end).
    rewrite Hq. by apply (IH q c r).
Qed.

Lemma ancestor_add k d : forall y c,
  ancestor n rel nm k y = Some c ->
  ancestor n rel nm (k + d) y = ancestor n rel nm d c.
Proof.
  induction k as [|k IH]; intros y c Hk; simpl in *.
  - by inversion Hk.
  - destruct (parentRef n rel nm y) as [q|]; [by apply IH | discriminate].
Qed.

(** Two entries anchored to the same entry, itself linked to an absolute
    entry, have no descendant in common. *)
Lemma no_common_descendant r p c1 c2 k1 k2 y :
  Lineage n rel nm (r :: p) ->
  parentRef n rel nm c1 = Some r -> parentRef n rel nm c2 = Some r ->
  ancestor n rel nm k1 y = Some c1 -> ancestor n rel nm k2 y = Some c2 ->
  c1 = c2.
Proof.
  intros Hl.
  assert (forall c1 c2 k1 d,
            parentRef n rel nm c1 = Some r -> parentRef n rel nm c2 = Some r ->
            ancestor n rel nm k1 y = Some c1 ->
            ancestor n rel nm (k1 + d) y = Some c2 -> c1 = c2) as Hle.
  { clear c1 c2 k1 k2. intros c1 c2 k1 d Hp1 Hp2 H1 H2.
    rewrite (ancestor_add _ _ _ _ H1) in H2.
    destruct d as [|d]; [simpl in H2; congruence|].
    exfalso. simpl in H2. rewrite Hp1 in H2.
    apply (Lineage_acyclic _ _ _ _ _ Hl (S d)); [lia|].
    by apply (ancestor_snoc d r c2 r). }
  intros Hp1 Hp2 H1 H2.
  destruct (Nat.le_ge_cases k1 k2) as [Hk|Hk].
  - apply (Hle c1 c2 k1 (k2 - k1)); try assumption.
    by replace (k1 + (k2 - k1)) with k2 by lia.
  - symmetry. apply (Hle c2 c1 k2 (k1 - k2)); try assumption.
    by replace (k2 + (k1 - k2)) with k1 by lia.
Qed.

(** Two absolute entries have no descendant in common. *)
Lemma no_common_root a1 a2 k1 k2 y :
  a1 < n -> a2 < n ->
  ancestor n rel nm k1 y = Some a1 -> ancestor n rel nm k2 y = Some a2 ->
  a1 = a2.
Proof.
  assert (forall a1 a2 k1 d, a1 < n ->
            ancestor n rel nm k1 y = Some a1 ->
            ancestor n rel nm (k1 + d) y = Some a2 -> a1 = a2) as Hle.
  { clear a1 a2 k1 k2. intros a1 a2 k1 d Ha H1 H2.
    rewrite (ancestor_add _ _ _ _ H1) in H2.
    destruct d as [|d]; [simpl in H2; congruence|].
    simpl in H2. unfold parentRef in H2.
    destruct (Nat.ltb_spec a1 n); [discriminate | lia]. }
  intros Ha1 Ha2 H1 H2.
  destruct (Nat.le_ge_cases k1 k2) as [Hk|Hk].
  - apply (Hle a1 a2 k1 (k2 - k1)); try assumption.
    by replace (k1 + (k2 - k1)) with k2 by lia.
  - symmetry. apply (Hle a2 a1 k2 (k1 - k2)); try assumption.
    by replace (k2 + (k1 - k2)) with k1 by lia.
Qed.

(** The entries of an expansion descend from its entry. *)
Lemma Expansion_descendants x l :
  Expansion n rel nm x l ->
  forall y, y ∈ l -> exists k, ancestor n rel nm k (ref y) = Some (ref x).
Proof.
  revert x l.
  apply (Expansion_mut n rel nm
    (fun x l => forall y, y ∈ l -> exists k, ancestor n rel nm k (ref y) = Some (ref x))
    (fun cs l => forall y, y ∈ l ->
       exists c k, c ∈ cs /\ ancestor n rel nm k (ref y) = Some (ref c))).
  - intros x bs afs _ Hb _ Ha y Hy.
    rewrite !elem_of_app, list_elem_of_singleton in Hy.
    destruct Hy as [Hy|[->|Hy]]; [|by exists 0|].
    + destruct (Hb y Hy) as (c & k & Hc & Hk).
      destruct (childrenOf_parent _ _ _ _ _ _ Hc) as (_ & Hp & _).
      exists (S k). by apply (ancestor_snoc k _ (ref c)).
    + destruct (Ha y Hy) as (c & k & Hc & Hk). rewrite elem_of_rev in Hc.
      destruct (childrenOf_parent _ _ _ _ _ _ Hc) as (_ & Hp & _).
      exists (S k). by apply (ancestor_snoc k _ (ref c)).
  - intros y Hy. by apply elem_of_nil in Hy.
  - intros c cs l ls _ Hl _ Hls y Hy.
    apply elem_of_app in Hy as [Hy|Hy].
    + destruct (Hl y Hy) as [k Hk]. exists c, k. split; [left | assumption].
    + destruct (Hls y Hy) as (c' & k & Hc' & Hk). exists c', k.
      split; [by right | assumption].
Qed.

Lemma Expansions_descendants cs l :
  Expansions n rel nm cs l ->
  forall y, y ∈ l -> exists c k, c ∈ cs /\ ancestor n rel nm k (ref y) = Some (ref c).
Proof.
  induction 1 as [|c cs l ls Hl _ IH]; intros y Hy; [by apply elem_of_nil in Hy|].
  apply elem_of_app in Hy as [Hy|Hy].
  - destruct (Expansion_descendants _ _ Hl y Hy) as [k Hk].
    exists c, k. split; [left | assumption].
  - destruct (IH y Hy) as (c' & k & Hc' & Hk). exists c', k.
    split; [by right | assumption].
Qed.

Lemma normalizeRelative_ref_lookup c :
  c ∈ normalizeRelative n rel ->
  n <= ref c /\ normalizeRelative n rel !! (ref c - n) = Some c.
Proof.
  intros [i Hi]%list_elem_of_lookup. pose proof Hi as Hi'.
  rewrite normalizeRelative_lookup in Hi.
  destruct (rel !! i) as [x|]; simpl in Hi; [|discriminate].
  inversion Hi; subst c; simpl. split; [lia|].
  by replace (n + i - n) with i by lia.
Qed.

Lemma normalizeRelative_ref_inj c1 c2 :
  c1 ∈ normalizeRelative n rel -> c2 ∈ normalizeRelative n rel ->
  ref c1 = ref c2 -> c1 = c2.
Proof.
  intros [_ H1]%normalizeRelative_ref_lookup [_ H2]%normalizeRelative_ref_lookup Hr.
  rewrite Hr in H1. congruence.
Qed.

Lemma NoDup_normalizeRelative : NoDup (normalizeRelative n rel).
Proof.
  apply NoDup_alt. intros i j x Hi Hj.
  rewrite normalizeRelative_lookup in Hi, Hj.
  destruct (rel !! i) as [xi|]; simpl in Hi; [|discriminate].
  destruct (rel !! j) as [xj|]; simpl in Hj; [|discriminate].
  inversion Hi; subst x. inversion Hj. lia.
Qed.

Lemma NoDup_ref_children (cs : list (Normalized RelativeMiddlewareEntry)) :
  cs `sublist_of` normalizeRelative n rel -> NoDup (map ref cs).
Proof.
  intros Hsub. apply (NoDup_fmap_2_strong ref).
  - intros x y Hx Hy. apply normalizeRelative_ref_inj.
    + by eapply elem_of_sublist.
    + by eapply elem_of_sublist.
  - eapply sublist_NoDup; [apply NoDup_normalizeRelative | exact Hsub].
Qed.

Lemma NoDup_ref_childrenOf rl r :
  NoDup (map ref (childrenOf nm (normalizeRelative n rel) rl r)).
Proof. apply NoDup_ref_children, sublist_filter. Qed.

Lemma elem_of_map_ref {T} (z : nat) (l : list (Normalized T)) :
  z ∈ map ref l <-> exists y, y ∈ l /\ ref y = z.
Proof.
  rewrite list_elem_of_In, in_map_iff. split; intros (y & H1 & H2); exists y.
  - split; [by apply list_elem_of_In | assumption].
  - split; [assumption | by apply list_elem_of_In].
Qed.

(** No entry occurs twice in the expansion of an entry that is linked to
    an absolute entry. *)
Lemma Expansion_NoDup x l :
  Expansion n rel nm x l ->
  forall p, Lineage n rel nm (ref x :: p) -> NoDup (map ref l).
Proof.
  revert x l.
  apply (Expansion_mut n rel nm
    (fun x l => forall p, Lineage n rel nm (ref x :: p) -> NoDup (map ref l))
    (fun cs l => forall r p, Lineage n rel nm (r :: p) ->
       NoDup (map ref cs) ->
       (forall c, c ∈ cs -> n <= ref c /\ parentRef n rel nm (ref c) = Some r) ->
       NoDup (map ref l))).
  - intros x bs afs Hbs Hb Hafs Ha p Hp.
    assert (forall c, c ∈ childrenOf nm (normalizeRelative n rel) Before (ref x) ->
              n <= ref c /\ parentRef n rel nm (ref c) = Some (ref x)) as Hcb.
    { intros c Hc. by destruct (childrenOf_parent _ _ _ _ _ _ Hc) as (? & ? & _). }
    assert (forall c, c ∈ rev (childrenOf nm (normalizeRelative n rel) After (ref x)) ->
              n <= ref c /\ parentRef n rel nm (ref c) = Some (ref x)) as Hca.
    { intros c Hc. rewrite elem_of_rev in Hc.
      by destruct (childrenOf_parent _ _ _ _ _ _ Hc) as (? & ? & _). }
    assert (forall cs l y, Expansions n rel nm cs l ->
              (forall c, c ∈ cs -> n <= ref c /\ parentRef n rel nm (ref c) = Some (ref x)) ->
              y ∈ l -> ref y <> ref x) as Hproper.
    { intros cs l y Hl Hcs Hy Heq.
      destruct (Expansions_descendants _ _ Hl y Hy) as (c & k & Hc & Hk).
      destruct (Hcs c Hc) as [_ Hpc].
      apply (Lineage_acyclic _ _ _ _ _ Hp (S k)); [lia|].
      rewrite <- Heq at 1. by apply (ancestor_snoc k _ (ref c)). }
    rewrite !List.map_app. simpl.
    apply NoDup_app. split; [|split].
    + apply (Hb (ref x) p Hp); [apply NoDup_ref_childrenOf | exact Hcb].
    + intros z [y1 [Hy1 <-]]%elem_of_map_ref [Hz|Hz]%elem_of_cons.
      * by apply (Hproper _ _ y1 Hbs Hcb).
      * apply elem_of_map_ref in Hz as (y2 & Hy2 & Heq).
        destruct (Expansions_descendants _ _ Hbs y1 Hy1) as (c1 & k1 & Hc1 & Hk1).
        destruct (Expansions_descendants _ _ Hafs y2 Hy2) as (c2 & k2 & Hc2 & Hk2).
        rewrite Heq in Hk2.
        assert (ref c1 = ref c2) as Hcc.
        { apply (no_common_descendant (ref x) p _ _ k1 k2 (ref y1)); try assumption.
          - by apply Hcb.
          - by apply Hca. }
        rewrite elem_of_rev in Hc2.
        unfold childrenOf in Hc1, Hc2.
        apply list_elem_of_filter in Hc1 as [[_ Hr1] Hin1].
        apply list_elem_of_filter in Hc2 as [[_ Hr2] Hin2].
        assert (c1 = c2) by (by apply normalizeRelative_ref_inj).
        subst c2. congruence.
    + apply NoDup_cons. split.
      * intros (y2 & Hy2 & Heq)%elem_of_map_ref. by apply (Hproper _ _ y2 Hafs Hca).
      * apply (Ha (ref x) p Hp); [|exact Hca].
        rewrite map_rev, <- Permutation_rev. apply NoDup_ref_childrenOf.
  - intros r p _ _ _. constructor.
  - intros c cs l ls Hl IHl Hls IHls r p Hp Hnd Hcs.
    simpl in Hnd. apply NoDup_cons in Hnd as [Hc Hnd].
    destruct (Hcs c) as [Hn Hpc]; [left|].
    rewrite List.map_app. apply NoDup_app. split; [|split].
    + apply (IHl (r :: p)). simpl. by constructor.
    + intros z [y1 [Hy1 <-]]%elem_of_map_ref (y2 & Hy2 & Heq)%elem_of_map_ref.
      destruct (Expansion_descendants _ _ Hl y1 Hy1) as [k1 Hk1].
      destruct (Expansions_descendants _ _ Hls y2 Hy2) as (c2 & k2 & Hc2 & Hk2).
      rewrite Heq in Hk2. simpl in Hk1.
      apply Hc. apply elem_of_map_ref. exists c2. split; [assumption|].
      symmetry.
      apply (no_common_descendant r p _ _ k1 k2 (ref y1)); try assumption.
      apply Hcs. by right.
    + apply (IHls r p Hp Hnd). intros c' Hc'. apply Hcs. by right.
Qed.
End Members.

Lemma normalizeAbsolute_ref_inj l a1 a2 :
  a1 ∈ normalizeAbsolute l -> a2 ∈ normalizeAbsolute l -> ref a1 = ref a2 -> a1 = a2.
Proof.
  intros [i Hi]%list_elem_of_lookup [j Hj]%list_elem_of_lookup Hr.
  rewrite normalizeAbsolute_lookup in Hi, Hj.
  destruct (l !! i) as [x|] eqn:Hx; simpl in Hi; [|discriminate].
  destruct (l !! j) as [y|] eqn:Hy; simpl in Hj; [|discriminate].
  inversion Hi; subst a1. inversion Hj; subst a2. simpl in Hr. subst j. congruence.
Qed.

Lemma NoDup_normalizeAbsolute l : NoDup (normalizeAbsolute l).
Proof.
  apply NoDup_alt. intros i j x Hi Hj.
  rewrite normalizeAbsolute_lookup in Hi, Hj.
  destruct (l !! i) as [xi|]; simpl in Hi; [|discriminate].
  destruct (l !! j) as [xj|]; simpl in Hj; [|discriminate].
  inversion Hi; subst x. by inversion Hj.
Qed.

(** The blocks of a chain: one expansion for each absolute entry. *)
Lemma parts_NoDup n rel nm roots parts :
  Forall2 (fun a l => Expansion n rel nm (asAbsolute a) l) roots parts ->
  Forall (fun a => ref a < n) roots ->
  NoDup (map ref roots) ->
  NoDup (map ref (concat parts))
  /\ forall y, y ∈ concat parts ->
       exists a k, a ∈ roots /\ ancestor n rel nm k (ref y) = Some (ref a).
Proof.
  induction 1 as [|a l roots parts Ha _ IH]; intros Hroots Hnd.
  - split; [constructor|]. intros y Hy. by apply elem_of_nil in Hy.
  - apply Forall_cons in Hroots as [Hroot Hroots].
    simpl in Hnd. apply NoDup_cons in Hnd as [Hfresh Hnd].
    destruct (IH Hroots Hnd) as [IHnd IHanc].
    change (concat (l :: parts)) with (l ++ concat parts). split.
    + rewrite List.map_app. apply NoDup_app. split; [|split; [|assumption]].
      * apply (Expansion_NoDup _ _ _ _ _ Ha []). simpl. by constructor.
      * intros z [y1 [Hy1 <-]]%elem_of_map_ref (y2 & Hy2 & Heq)%elem_of_map_ref.
        destruct (Expansion_descendants _ _ _ _ _ Ha y1 Hy1) as [k1 Hk1].
        destruct (IHanc y2 Hy2) as (a2 & k2 & Ha2 & Hk2).
        rewrite Heq in Hk2. simpl in Hk1.
        apply Hfresh. apply elem_of_map_ref. exists a2. split; [assumption|].
        symmetry. apply (no_common_root n rel nm _ _ k1 k2 (ref y1)); try assumption.
        rewrite Forall_forall in Hroots. by apply Hroots.
    + intros y [Hy|Hy]%elem_of_app.
      * destruct (Expansion_descendants _ _ _ _ _ Ha y Hy) as [k Hk].
        exists a, k. split; [left | assumption].
      * destruct (IHanc y Hy) as (a2 & k & Ha2 & Hk). exists a2, k.
        split; [by right | assumption].
Qed.

Lemma resolveEntries_NoDup fuel debug absEntries relEntries nodes :
  resolveEntries fuel debug absEntries relEntries = Returned nodes ->
  NoDup (map ref nodes).
Proof.
  intros (parts & -> & Hparts)%resolveEntries_Returned.
  apply (parts_NoDup _ _ _ _ _ Hparts).
  - apply Forall_forall. intros a Ha. apply normalizeAbsolute_ref. by apply sort_elem_of.
  - apply (NoDup_fmap_2_strong ref).
    + intros x y Hx Hy. apply (normalizeAbsolute_ref_inj absEntries); by apply sort_elem_of.
    + rewrite sort_Permutation. apply NoDup_normalizeAbsolute.
Qed.

Lemma registerNames_Some m x k A :
  registerNames m x !! k = Some A -> A = x \/ m !! k = Some A.
Proof.
  unfold registerNames. generalize (entry_aliases (entry x)) as l. intros l.
  revert m. induction l as [|b l IH]; intros m; simpl; [by right|].
  intros [->|H]%IH; [by left|].
  apply lookup_insert_Some in H as [[_ <-]|[_ H]]; [by left | by right].
Qed.

Lemma foldl_registerNames_Some l : forall m k A,
  foldl registerNames m l !! k = Some A -> A ∈ l \/ m !! k = Some A.
Proof.
  induction l as [|x l IH]; intros m k A; simpl; [by right|].
  intros [H|H]%IH; [left; by right|].
  apply registerNames_Some in H as [->|H]; [left; left | by right].
Qed.

(** The name map holds normalized entries of the resolution only. *)
Lemma buildNameMap_Some absEntries relEntries k A :
  buildNameMap (normalizeAbsolute absEntries)
    (normalizeRelative (length absEntries) relEntries) !! k = Some A ->
  A ∈ normalizedEntries absEntries relEntries.
Proof.
  unfold buildNameMap, normalizedEntries.
  intros [H|H]%foldl_registerNames_Some; [apply elem_of_app; by right|].
  apply foldl_registerNames_Some in H as [H|H]; [apply elem_of_app; by left|].
  by rewrite lookup_empty in H.
Qed.

Section Complete.
Variable n : nat.
Variable rel : list RelativeMiddlewareEntry.
Variable nm : gmap string NormalizedEntry.

Lemma Expansion_self x l : Expansion n rel nm x l -> x ∈ l.
Proof.
  intros H. inversion H; subst. apply elem_of_app. right. left.
Qed.

Lemma Expansions_heads cs l :
  Expansions n rel nm cs l -> forall c, c ∈ cs -> asRelative c ∈ l.
Proof.
  induction 1 as [|c cs l ls Hl _ IH]; intros c' Hc'; [by apply elem_of_nil in Hc'|].
  apply elem_of_app. apply elem_of_cons in Hc' as [->|Hc'].
  - left. by apply Expansion_self.
  - right. by apply IH.
Qed.

Lemma parts_block roots parts A :
  Forall2 (fun a l => Expansion n rel nm (asAbsolute a) l) roots parts ->
  A ∈ concat parts ->
  exists la, Expansion n rel nm A la /\ forall y, y ∈ la -> y ∈ concat parts.
Proof.
  induction 1 as [|a l roots parts Ha _ IH]; intros HA; [by apply elem_of_nil in HA|].
  change (concat (l :: parts)) with (l ++ concat parts) in *.
  apply elem_of_app in HA as [HA|HA].
  - destruct (Expansion_block _ _ _ _ _ Ha A HA) as (pre & la & post & -> & Hla).
    exists la. split; [assumption|]. intros y Hy.
    rewrite !elem_of_app. left. right. by left.
  - destruct (IH HA) as (la & Hla & Hsub). exists la. split; [assumption|].
    intros y Hy. apply elem_of_app. right. by apply Hsub.
Qed.

Lemma parts_roots roots parts a :
  Forall2 (fun a l => Expansion n rel nm (asAbsolute a) l) roots parts ->
  a ∈ roots -> asAbsolute a ∈ concat parts.
Proof.
  induction 1 as [|a' l roots parts Ha _ IH]; intros Hin; [by apply elem_of_nil in Hin|].
  change (concat (l :: parts)) with (l ++ concat parts).
  apply elem_of_app. apply elem_of_cons in Hin as [->|Hin].
  - left. by apply Expansion_self.
  - right. by apply IH.
Qed.
End Complete.

Lemma elem_of_normalizedEntries absEntries relEntries y :
  y ∈ normalizedEntries absEntries relEntries
  <-> (exists a, a ∈ normalizeAbsolute absEntries /\ y = asAbsolute a)
      \/ (exists c, c ∈ normalizeRelative (length absEntries) relEntries
                    /\ y = asRelative c).
Proof.
  unfold normalizedEntries. rewrite elem_of_app, !list_elem_of_In, !in_map_iff.
  split; (intros [(x & H1 & H2)|(x & H1 & H2)]; [left|right]; exists x).
  - split; [by apply list_elem_of_In | done].
  - split; [by apply list_elem_of_In | done].
  - split; [done | by apply list_elem_of_In].
  - split; [done | by apply list_elem_of_In].
Qed.

(** Every entry linked by anchors to an absolute entry is in the chain. *)
Lemma resolveEntries_complete fuel debug absEntries relEntries nodes :
  resolveEntries fuel debug absEntries relEntries = Returned nodes ->
  forall path,
    Lineage (length absEntries) relEntries
      (buildNameMap (normalizeAbsolute absEntries)
         (normalizeRelative (length absEntries) relEntries)) path ->
    forall y, y ∈ normalizedEntries absEntries relEntries ->
      head path = Some (ref y) -> y ∈ nodes.
Proof.
  intros (parts & -> & Hparts)%resolveEntries_Returned.
  induction 1 as [a Ha|c p path Hc Hp Hl IH]; intros y Hy Hhead;
    simpl in Hhead; inversion Hhead; subst; clear Hhead;
    apply elem_of_normalizedEntries in Hy as [(a' & Ha' & ->)|(c' & Hc' & ->)].
  - apply (parts_roots _ _ _ _ _ _ Hparts). by apply sort_elem_of.
  - simpl in Ha.
    destruct (normalizeRelative_ref_lookup _ _ _ Hc'). lia.
  - simpl in Hc. apply normalizeAbsolute_ref in Ha'. lia.
  - simpl in Hp, Hc.
    destruct (normalizeRelative_ref_lookup _ _ _ Hc') as [_ Hlook].
    unfold parentRef in Hp.
    destruct (Nat.ltb_spec (ref c') (length absEntries)) as [?|_]; [lia|].
    rewrite Hlook in Hp.
    destruct (anchorOf _ c') as [A|] eqn:HA; [|discriminate].
    simpl in Hp. inversion Hp; subst p.
    assert (A ∈ normalizedEntries absEntries relEntries) as HAin.
    { unfold anchorOf in HA. destruct (truthy _); [|discriminate].
      by eapply buildNameMap_Some. }
    specialize (IH A HAin eq_refl).
    destruct (parts_block _ _ _ _ _ _ Hparts IH) as (la & Hla & Hsub).
    apply Hsub. inversion Hla as [x bs afs Hbs Hafs]; subst.
    assert (c' ∈ childrenOf
              (buildNameMap (normalizeAbsolute absEntries)
                 (normalizeRelative (length absEntries) relEntries))
              (normalizeRelative (length absEntries) relEntries)
              (relation (rel_location (entry c'))) (ref A)) as Hchild.
    { unfold childrenOf. apply list_elem_of_filter. rewrite HA. by repeat split. }
    rewrite !elem_of_app.
    destruct (relation (rel_location (entry c'))).
    + left. by apply (Expansions_heads _ _ _ _ _ Hbs).
    + right. right. apply (Expansions_heads _ _ _ _ _ Hafs). by apply elem_of_rev.
Qed.

Lemma normalizedEntries_refs absEntries relEntries :
  map ref (normalizedEntries absEntries relEntries)
  = seq 0 (length absEntries + length relEntries).
Proof.
  unfold normalizedEntries. rewrite List.map_app, !List.map_map, seq_app. simpl.
  f_equal; apply list_eq; intros i.
  - change (map (fun x => ref x) (normalizeAbsolute absEntries))
      with (ref <$> normalizeAbsolute absEntries).
    rewrite list_lookup_fmap, normalizeAbsolute_lookup.
    destruct (absEntries !! i) as [x|] eqn:Hx; simpl.
    + symmetry. apply lookup_seq. split; [reflexivity | by eapply lookup_lt_Some].
    + symmetry. apply lookup_seq_ge. by apply lookup_ge_None.
  - change (map (fun x => ref x) (normalizeRelative (length absEntries) relEntries))
      with (ref <$> normalizeRelative (length absEntries) relEntries).
    rewrite list_lookup_fmap, normalizeRelative_lookup.
    destruct (relEntries !! i) as [x|] eqn:Hx; simpl.
    + symmetry. apply lookup_seq. split; [reflexivity | by eapply lookup_lt_Some].
    + symmetry. apply lookup_seq_ge. by apply lookup_ge_None.
Qed.

(** The entries of a chain are normalized copies of registered entries. *)
Lemma resolveEntries_normalized fuel debug absEntries relEntries nodes y :
  resolveEntries fuel debug absEntries relEntries = Returned nodes ->
  y ∈ nodes -> y ∈ normalizedEntries absEntries relEntries.
Proof.
  intros (parts & -> & Hparts)%resolveEntries_Returned Hy.
  apply elem_of_normalizedEntries.
  assert (Forall (fun a => a ∈ normalizeAbsolute absEntries)
            (sort (normalizeAbsolute absEntries))) as Hroots.
  { apply Forall_forall. intros a. apply sort_elem_of. }
  induction Hparts as [|a l roots parts Ha _ IH]; [by apply elem_of_nil in Hy|].
  apply Forall_cons in Hroots as [Hroot Hroots].
  change (concat (l :: parts)) with (l ++ concat parts) in Hy.
  apply elem_of_app in Hy as [Hy|Hy]; [|by apply IH].
  destruct (Expansion_members _ _ _ _ _ Ha y Hy) as [->|(c & -> & Hc & _)];
    [left|right]; eauto.
Qed.

(** X15: in the chain a resolution returns, in either mode, no normalized
    entry occurs twice, and the entries that occur are exactly the copies of
    the registered entries that anchors link, step by step, to an absolute
    entry (an absolute entry is linked to itself).  So the chain is never
    longer than the registry, and it is a rearrangement of all the
    registered entries when every one of them is so linked. *)
Theorem chain_holds_each_linked_entry_once (fuel : nat) (debug : bool)
    (absEntries : list AbsoluteMiddlewareEntry)
    (relEntries : list RelativeMiddlewareEntry) (nodes : list NormalizedEntry) :
  resolveEntries fuel debug absEntries relEntries = Returned nodes ->
  let nm := buildNameMap (normalizeAbsolute absEntries)
              (normalizeRelative (length absEntries) relEntries) in
  let linked y := exists p, Lineage (length absEntries) relEntries nm (ref y :: p) in
  NoDup (map ref nodes)
  /\ (forall y, y ∈ nodes
                <-> y ∈ normalizedEntries absEntries relEntries /\ linked y)
  /\ length nodes <= length absEntries + length relEntries
  /\ ((forall y, y ∈ normalizedEntries absEntries relEntries -> linked y) ->
      nodes ≡ₚ normalizedEntries absEntries relEntries).
Proof.
  intros Hr nm linked.
  pose proof (resolveEntries_NoDup _ _ _ _ _ Hr) as Hnd.
  assert (forall y, y ∈ nodes
            <-> y ∈ normalizedEntries absEntries relEntries /\ linked y) as Hiff.
  { intros y. split.
    - intros Hy. split; [by eapply resolveEntries_normalized
                         |by eapply resolveEntries_lineage].
    - intros [Hy [p Hp]].
      by apply (resolveEntries_complete _ _ _ _ _ Hr (ref y :: p) Hp). }
  split; [assumption|]. split; [assumption|]. split.
  - rewrite <- (length_map ref nodes).
    rewrite <- (length_seq (length absEntries + length relEntries) 0).
    apply submseteq_length, NoDup_submseteq; [assumption|].
    intros z (y & Hy & <-)%elem_of_map_ref.
    rewrite <- normalizedEntries_refs. apply elem_of_map_ref.
    exists y. split; [by apply Hiff | reflexivity].
  - intros Hall. apply NoDup_Permutation.
    + by apply (NoDup_fmap_1 ref).
    + apply (NoDup_fmap_1 ref).
      change (ref <$> normalizedEntries absEntries relEntries)
        with (map ref (normalizedEntries absEntries relEntries)).
      rewrite normalizedEntries_refs. apply NoDup_seq.
    + intros y. rewrite Hiff. split; [tauto|]. intros Hy. split; [assumption|].
      by apply Hall.
Qed.

(** ** A resolution after a call *)

Lemma normalizedEntries_entries absEntries relEntries :
  map entry (normalizedEntries absEntries relEntries)
  = map Absolute absEntries ++ map Relative relEntries.
Proof.
  unfold normalizedEntries. rewrite List.map_app, !List.map_map. simpl.
  rewrite <- (List.map_map entry Absolute), <- (List.map_map entry Relative).
  by rewrite normalizeAbsolute_entries, normalizeRelative_entries.
Qed.

(** A chain returned by a registry with a consistent cache holds
    registered entries only. *)
Lemma getMiddlewareList_registered (debug : bool) (s s' : Stack) chain :
  cacheConsistent s ->
  getMiddlewareList debug s = (s', Returned chain) ->
  forall e, e ∈ chain -> e ∈ entriesOf s.
Proof.
  intros Hs Hg e He.
  destruct (getMiddlewareList_Returned _ _ _ _ Hs Hg) as (d & nodes & Hr & ->).
  apply list_elem_of_In, in_map_iff in He as (y & <- & Hy).
  apply list_elem_of_In in Hy.
  pose proof (resolveEntries_normalized _ _ _ _ _ _ Hr Hy) as Hin.
  unfold entriesOf. rewrite <- normalizedEntries_entries.
  by apply list_elem_of_In, in_map, list_elem_of_In.
Qed.

Lemma absolutePart_elem_of a chain : a ∈ absolutePart chain -> Absolute a ∈ chain.
Proof.
  unfold absolutePart. intros (e & He & Ha)%list_elem_of_omap.
  destruct e; [|discriminate]. by inversion Ha; subst.
Qed.

Lemma add_Returned_last mw location o s s' :
  add mw location o s = (s', Returned tt) ->
  exists l, absoluteEntries s' = l ++ [makeAbsoluteEntry mw location o].
Proof.
  rewrite add_cases. cbv zeta.
  destruct (0 <? length _); [|intros H; inversion H; subst; simpl; eauto].
  destruct (someInNameSet _ _); [|intros H; inversion H; subst; simpl; eauto].
  destruct (negb _); [discriminate|].
  destruct (forEach _ _ s) as [s1 [[]|e]]; [|discriminate].
  intros H; inversion H; subst; simpl; eauto.
Qed.

(** X16: a resolution that follows a call reflects the call.  After an
    [add] that returned, every chain the registry resolves to, in either
    mode, holds the entry added; and in a registry whose cache was
    consistent, no chain resolved after a removal holds an entry bearing
    the name, holding the reference or carrying the tag removed. *)
Theorem resolution_reflects_the_last_call (s : Stack) :
  cacheConsistent s ->
  (forall mw location o s',
     add mw location o s = (s', Returned tt) ->
     forall debug s'' chain,
       getMiddlewareList debug s' = (s'', Returned chain) ->
       Absolute (makeAbsoluteEntry mw location o) ∈ chain)
  /\ (forall toRemove debug s'' chain,
        getMiddlewareList debug (fst (remove (inl toRemove) s)) = (s'', Returned chain) ->
        forall e, e ∈ chain -> toRemove ∉ entry_aliases e)
  /\ (forall toRemove debug s'' chain,
        getMiddlewareList debug (fst (remove (inr toRemove) s)) = (s'', Returned chain) ->
        forall e, e ∈ chain -> middleware e <> toRemove)
  /\ (forall toRemove debug s'' chain,
        getMiddlewareList debug (fst (removeByTag toRemove s)) = (s'', Returned chain) ->
        forall e, e ∈ chain -> toRemove ∉ default [] (tags (entry_options e))).
Proof.
  intros Hs. split; [|split; [|split]].
  - intros mw location o s' Hadd debug s'' chain Hg.
    pose proof (cacheConsistent_None _ (add_Returned_cache _ _ _ _ _ Hadd)) as Hs'.
    destruct (add_Returned_last _ _ _ _ _ Hadd) as [l Hl].
    apply absolutePart_elem_of.
    rewrite (getMiddlewareList_absolutePart _ _ _ _ Hs' Hg).
    apply list_elem_of_In, in_map_iff.
    assert (makeAbsoluteEntry mw location o
            ∈ map entry (normalizeAbsolute (absoluteEntries s'))) as Hin.
    { rewrite normalizeAbsolute_entries, Hl. apply elem_of_app. right. left. }
    apply list_elem_of_In, in_map_iff in Hin as (x & Hx & Hin).
    exists x. split; [assumption|].
    by apply list_elem_of_In, sort_elem_of, list_elem_of_In.
  - intros toRemove debug s'' chain Hg e He.
    pose proof (removeWhere_consistent
                  (fun e => existsb (String.eqb toRemove) (entry_aliases e)) s Hs) as Hs'.
    pose proof (getMiddlewareList_registered _ _ _ _ Hs' Hg e He) as Hin.
    rewrite removeWhere_entries in Hin.
    apply list_elem_of_filter in Hin as [Hhit _].
    intros Hbears. by rewrite existsb_eqb_elem_of in Hhit.
  - intros toRemove debug s'' chain Hg e He.
    pose proof (removeWhere_consistent (fun e => Nat.eqb (middleware e) toRemove) s Hs)
      as Hs'.
    pose proof (getMiddlewareList_registered _ _ _ _ Hs' Hg e He) as Hin.
    rewrite removeWhere_entries in Hin.
    apply list_elem_of_filter in Hin as [Hhit _].
    by apply Nat.eqb_neq.
  - intros toRemove debug s'' chain Hg e He.
    pose proof (removeWhere_consistent
                  (fun e => match tags (entry_options e) with
                            | Some l => existsb (String.eqb toRemove) l
                            | None => false
                            end) s Hs) as Hs'.
    pose proof (getMiddlewareList_registered _ _ _ _ Hs' Hg e He) as Hin.
    rewrite removeWhere_entries in Hin.
    apply list_elem_of_filter in Hin as [Hhit _].
    destruct (tags (entry_options e)) as [l|]; simpl; [|apply not_elem_of_nil].
    intros Hbears. by rewrite existsb_eqb_elem_of in Hhit.
Qed.

(** ** Calls without [override] and the cache *)

Lemma plainCall_consistent s s' :
  plainCall s s' -> cacheConsistent s -> cacheConsistent s'.
Proof.
  intros Hcall Hs. destruct Hcall as
    [mw location o s Hov|mw location o s Hov|toRemove s|toRemove s|s|toggle s
    |Handler Context invoke handler context s].
  - rewrite add_without_override by assumption.
    destruct (someInNameSet _ _); [assumption | by apply cacheConsistent_None].
  - rewrite addRelativeTo_without_override by assumption.
    destruct (someInNameSet _ _); [assumption | by apply cacheConsistent_None].
  - destruct toRemove; by apply removeWhere_consistent.
  - by apply removeWhere_consistent.
  - by rewrite identify_state.
  - destruct toggle as [b|]; exact Hs.
  - unfold resolve, bind, gets, ret.
    pose proof (getMiddlewareList_consistent false s Hs) as Hs1.
    destruct (getMiddlewareList false s) as [s1 [chain|err]]; [|assumption].
    simpl in Hs1. destruct (identifyOnResolve s1); [|assumption].
    pose proof (identify_state s1) as Hid.
    destruct (identify s1) as [s2 [listing|err]]; simpl in Hid; by subst s2.
Qed.

(** X17: as long as no call sets [override] and no entries are transferred
    in bulk, the cache is never stale: in every state a fresh stack reaches
    by [add] and [addRelativeTo] without [override], [remove],
    [removeByTag], [identify], [identifyOnResolve] and [resolve], whether
    these calls return or throw, the cached chain, if any, is the chain the
    registered entries resolve to; so an execution-mode resolution returns
    what a resolution of the entries from scratch returns. *)
Theorem plain_calls_never_leave_a_stale_cache (s : Stack) :
  plainlyReachable s ->
  cacheConsistent s
  /\ snd (getMiddlewareList false s)
     = snd (getMiddlewareList false (set_cachedMiddlewareList None s)).
Proof.
  intros Hreach.
  assert (cacheConsistent s) as Hs.
  { revert s Hreach. apply (rtc_ind_r cacheConsistent).
    - by apply cacheConsistent_None.
    - intros s1 s2 _ Hcall IH. by eapply plainCall_consistent. }
  split; [exact Hs|].
  unfold getMiddlewareList at 1. simpl.
  destruct (cachedMiddlewareList s) as [cached|] eqn:Hc.
  - destruct (Hs cached Hc) as (nodes & Hn & ->).
    unfold getMiddlewareList, callDepth. simpl. fold (callDepth s). by rewrite Hn.
  - unfold getMiddlewareList, callDepth. simpl. fold (callDepth s).
    by destruct (resolveEntries _ _ _ _).
Qed.

(** ** The claims on the worked registries *)

(** C1: [add] with override, name [A] and alias [B], on the registry
    holding [A] (initialize) and [B] (serialize): the loop removes [A], which
    matches, then meets [B], which does not, and throws; the call has failed
    and the registry has lost [A]. *)
Lemma failed_override_has_removed_an_entry :
  exists err,
    snd (overrideAB stackAB) = Thrown err
    /\ kind err = OverrideMismatch
    /\ absoluteEntries stackAB = [entryA; entryB]
    /\ absoluteEntries (fst (overrideAB stackAB)) = [entryB]
    /\ entriesNameSet (fst (overrideAB stackAB)) = entriesNameSet stackAB
    /\ fst (overrideAB stackAB) <> stackAB.
Proof.
  eexists. split; [vm_compute; reflexivity|].
  repeat split; try (vm_compute; reflexivity).
  intros H. apply (f_equal absoluteEntries) in H. vm_compute in H. discriminate.
Qed.

(** C3: after that failed call the cached chain is still [A; B], and an
    execution-mode resolution returns it, while the registry now resolves to
    [B]. *)
Lemma failed_override_leaves_a_stale_cache :
  let s := fst (overrideAB stackAB) in
  cachedMiddlewareList s = Some [Absolute entryA; Absolute entryB]
  /\ snd (getMiddlewareList false s) = Returned [Absolute entryA; Absolute entryB]
  /\ snd (getMiddlewareList false (set_cachedMiddlewareList None s))
     = Returned [Absolute entryB].
Proof. repeat split; vm_compute; reflexivity. Qed.

(** C8: transferring [B; A] onto the registry holding [A], resolved: both
    the bulk transfer and the loop of single calls add [B] and fail on [A]
    with the same error, but the bulk transfer has not dropped the cache, so
    the next resolution returns [A] where the loop's returns [A; B]. *)
Lemma bulk_transfer_differs_from_single_calls :
  (exists err,
     snd (_addBulk [entryB; entryA] [] stackA) = Thrown err
     /\ snd (addEach [entryB; entryA] [] stackA) = Thrown err
     /\ kind err = DuplicateName)
  /\ absoluteEntries (fst (_addBulk [entryB; entryA] [] stackA)) = [entryA; entryB]
  /\ absoluteEntries (fst (addEach [entryB; entryA] [] stackA)) = [entryA; entryB]
  /\ snd (getMiddlewareList false (fst (_addBulk [entryB; entryA] [] stackA)))
     = Returned [Absolute entryA]
  /\ snd (getMiddlewareList false (fst (addEach [entryB; entryA] [] stackA)))
     = Returned [Absolute entryA; Absolute entryB].
Proof.
  split; [eexists; repeat split; vm_compute; reflexivity|].
  repeat split; vm_compute; reflexivity.
Qed.

(** C2, refuted as stated: with [A] and [A'] both in step initialize at
    normal priority, overriding [A] with a matching entry moves it behind
    [A'] in the chain; and overriding the name of the relative entry [X] by
    [add] neither compares with [X] nor removes it. *)
Lemma override_does_not_keep_the_position :
  let replacement := makeAbsoluteEntry 11 (inStep initialize) (overriding "A" []) in
  snd (getMiddlewareList false stackAA') = Returned [Absolute entryA; Absolute entryA']
  /\ snd ((add 11 (inStep initialize) (overriding "A" []) ;;;
           getMiddlewareList false) stackAA')
     = Returned [Absolute entryA'; Absolute replacement]
  /\ snd ((add 11 (inStep initialize) (overriding "A" []) ;;;
           getMiddlewareList false) stackAA')
     <> Returned [Absolute replacement; Absolute entryA']
  /\ snd (add 12 (inStep build) (overriding "X" []) stackAX) = Returned tt
  /\ relativeEntries (fst (add 12 (inStep build) (overriding "X" []) stackAX))
     = [entryX].
Proof.
  repeat split; try (vm_compute; reflexivity).
  vm_compute. discriminate.
Qed.

(** C4, refuted as stated: the anchor of [W] resolves to a normalized entry,
    [W] itself, and the anchor of [Y] to [Z]; neither [W] nor [Y] appears in
    the resolved chain. *)
Lemma entries_anchored_in_a_cycle_are_not_placed :
  let absEntries := absoluteEntries cyclicStack in
  let relEntries := relativeEntries cyclicStack in
  let nrel := normalizeRelative (length absEntries) relEntries in
  let nm := buildNameMap (normalizeAbsolute absEntries) nrel in
  let W := {| ref := 3; entry := entryW |} in
  let Y := {| ref := 1; entry := entryY |} in
  let Z := {| ref := 2; entry := entryZ |} in
  nrel = [Y; Z; W]
  /\ anchorOf nm W = Some (asRelative W)
  /\ anchorOf nm Y = Some (asRelative Z)
  /\ exists nodes,
       resolveEntries (callDepth cyclicStack) false absEntries relEntries = Returned nodes
       /\ (asRelative W ∉ nodes) /\ (asRelative Y ∉ nodes).
Proof.
  repeat split; try (vm_compute; reflexivity).
  eexists. split; [vm_compute; reflexivity|].
  split; intros H; apply list_elem_of_singleton in H; discriminate H.
Qed.

(** C9, refuted as stated: with [W] anchored to itself and [Y], [Z]
    anchored to each other, execution-mode and inspection-mode resolution
    both return, with the chain [A]. *)
Lemma cyclic_anchoring_does_not_recurse :
  let n := length (absoluteEntries cyclicStack) in
  let nm := buildNameMap (normalizeAbsolute (absoluteEntries cyclicStack))
              (normalizeRelative n (relativeEntries cyclicStack)) in
  ancestor n (relativeEntries cyclicStack) nm 1 3 = Some 3
  /\ ancestor n (relativeEntries cyclicStack) nm 2 1 = Some 1
  /\ snd (getMiddlewareList false cyclicStack) = Returned [Absolute entryA]
  /\ snd (getMiddlewareList true cyclicStack) = Returned [Absolute entryA]
  /\ snd (identify cyclicStack) = Returned ["A - initialize"].
Proof. repeat split; vm_compute; reflexivity. Qed.


(** C7, refuted as stated: no entry bears the name [toString], the anchor
    of [T], and resolution throws a TypeError in execution mode and in
    inspection mode alike, and so does [identify]. *)
Lemma inherited_anchor_throws_in_both_modes :
  entryT ∈ relativeEntries inheritedAnchorStack
  /\ unnamed (absoluteEntries inheritedAnchorStack) (relativeEntries inheritedAnchorStack)
       (toMiddleware (rel_location entryT))
  /\ getMiddlewareList false inheritedAnchorStack = (inheritedAnchorStack, Thrown typeError)
  /\ getMiddlewareList true inheritedAnchorStack = (inheritedAnchorStack, Thrown typeError)
  /\ identify inheritedAnchorStack = (inheritedAnchorStack, Thrown typeError).
Proof.
  split; [vm_compute; left|].
  split; [refine (bool_decide_unpack _ _); vm_compute; exact I|].
  repeat split; vm_compute; reflexivity.
Qed.

(** C10, refuted as stated: [E], whose name is the empty string and which
    has no aliases, is registered as an anonymous entry (no name is
    reserved, no removal by name removes it), and the later [add] of an
    entry named [A] with the empty string for an alias and [override] set
    splices it out together with [A]. *)
Lemma empty_name_entry_is_removed_by_override :
  getAllAliases (name emptyNameOptions) (aliases emptyNameOptions) = []
  /\ add 16 (inStep initialize) emptyNameOptions
       (fst (add 1 (inStep initialize) (named "A") constructStack))
     = (stackAE, Returned tt)
  /\ absoluteEntries stackAE = [entryA; entryE]
  /\ entriesNameSet stackAE
     = entriesNameSet (fst (add 1 (inStep initialize) (named "A") constructStack))
  /\ absoluteEntries (fst (remove (inl EmptyString) stackAE)) = [entryA; entryE]
  /\ snd (add 17 (inStep initialize) (overriding "A" [EmptyString]) stackAE) = Returned tt
  /\ absoluteEntries (fst (add 17 (inStep initialize) (overriding "A" [EmptyString]) stackAE))
     = [makeAbsoluteEntry 17 (inStep initialize) (overriding "A" [EmptyString])].
Proof. repeat split; vm_compute; reflexivity. Qed.


(** ** The theorems at work *)

Lemma absolute_subsequence_sorted_stable_witness :
  cacheConsistent stackCAA'BX
  /\ getMiddlewareList false stackCAA'BX
     = (set_cachedMiddlewareList (Some (map entry resolvedNodes)) stackCAA'BX,
        Returned (map entry resolvedNodes))
  /\ StronglySorted precedes (absolutePart (map entry resolvedNodes))
  /\ absolutePart (map entry resolvedNodes) ≡ₚ [entryC; entryA; entryA'; entryB]
  /\ filter (sameKey initialize normal) (absolutePart (map entry resolvedNodes))
     = [entryA; entryA'].
Proof.
  assert (cacheConsistent stackCAA'BX) as Hs
    by (apply cacheConsistent_None; reflexivity).
  split; [exact Hs|]. split; [vm_compute; reflexivity|].
  destruct (absolute_subsequence_sorted_stable stackCAA'BX
              (set_cachedMiddlewareList (Some (map entry resolvedNodes)) stackCAA'BX)
              false (map entry resolvedNodes) Hs)
    as (Hsorted & Hperm & Hstable & _); [vm_compute; reflexivity|].
  split; [exact Hsorted|]. split; [exact Hperm|].
  rewrite Hstable. vm_compute. reflexivity.
Defined.

Lemma relative_entries_placed_around_anchor_witness :
  let A := {| ref := 1; entry := Absolute entryA |} in
  resolveEntries 2 false [entryC; entryA; entryA'; entryB] [entryX] = Returned resolvedNodes
  /\ A ∈ resolvedNodes
  /\ exists pre bs afs post, resolvedNodes = pre ++ (bs ++ [A] ++ afs) ++ post.
Proof.
  intros A.
  assert (resolveEntries 2 false [entryC; entryA; entryA'; entryB] [entryX]
          = Returned resolvedNodes) as Hr by (vm_compute; reflexivity).
  assert (A ∈ resolvedNodes) as HA by (right; left).
  split; [exact Hr|]. split; [exact HA|].
  destruct (relative_entries_placed_around_anchor 2 false
              [entryC; entryA; entryA'; entryB] [entryX] resolvedNodes Hr A HA)
    as [(pre & bs & afs & post & E & _) _].
  exists pre, bs, afs, post. exact E.
Defined.


Lemma expansion_terminates_for_every_registry_witness :
  length (relativeEntries cyclicStack) < 4
  /\ resolveEntries 4 false (absoluteEntries cyclicStack) (relativeEntries cyclicStack)
     = resolveEntries (callDepth cyclicStack) false (absoluteEntries cyclicStack)
         (relativeEntries cyclicStack).
Proof.
  assert (length (relativeEntries cyclicStack) < 4) as H by (vm_compute; lia).
  split; [exact H|].
  exact (proj1 (expansion_terminates_for_every_registry cyclicStack false 4 H)).
Defined.

Lemma anonymous_entries_always_added_witness :
  (name anonymousOptions = None \/ name anonymousOptions = Some EmptyString)
  /\ (aliases anonymousOptions = None \/ aliases anonymousOptions = Some [])
  /\ add 13 (inStep build) anonymousOptions stackAB
     = ({| absoluteEntries :=
             absoluteEntries stackAB
             ++ [{| step := build;
                    priority := normal;
                    abs_middleware := 13;
                    abs_options := anonymousOptions |}];
           relativeEntries := relativeEntries stackAB;
           identifyOnResolve := identifyOnResolve stackAB;
           entriesNameSet := entriesNameSet stackAB;
           cachedMiddlewareList := None |},
        Returned tt).
Proof.
  assert (name anonymousOptions = None \/ name anonymousOptions = Some EmptyString)
    as Hn by (left; reflexivity).
  assert (aliases anonymousOptions = None \/ aliases anonymousOptions = Some [])
    as Ha by (right; reflexivity).
  split; [exact Hn|]. split; [exact Ha|].
  exact (proj1 (anonymous_entries_always_added stackAB 13 anonymousOptions Hn Ha)
           (inStep build)).
Defined.

Lemma override_replaces_entries_of_same_kind_witness :
  truthy_flag (override (overriding "A" [])) = true
  /\ someInNameSet (getAllAliases (name (overriding "A" [])) (aliases (overriding "A" [])))
       (entriesNameSet stackAA') = true
  /\ exists s',
       add 11 (inStep initialize) (overriding "A" []) stackAA' = (s', Returned tt)
       /\ absoluteEntries s'
          = [entryA'; makeAbsoluteEntry 11 (inStep initialize) (overriding "A" [])].
Proof.
  assert (someInNameSet
            (getAllAliases (name (overriding "A" [])) (aliases (overriding "A" [])))
            (entriesNameSet stackAA') = true) as Hc by (vm_compute; reflexivity).
  split; [reflexivity|]. split; [exact Hc|].
  destruct (proj1 (override_replaces_entries_of_same_kind stackAA' 11
                     (overriding "A" []) eq_refl Hc) (inStep initialize))
    as [Hall _].
  - intros a Ha. apply list_elem_of_singleton in Ha. subst a. vm_compute. lia.
  - destruct Hall as (s' & Hadd & Habs & _).
    + repeat constructor.
    + exists s'. split; [exact Hadd | exact Habs].
Defined.

(** A decidable statement about a worked registry, settled by evaluation. *)
Ltac by_computation := refine (bool_decide_unpack _ _); vm_compute; exact I.

Lemma add_then_remove_gives_the_registry_back_witness :
  (forall a, a ∈ getAllAliases (name (named "B")) (aliases (named "B")) ->
     (a ∉ entriesNameSet stackA)
     /\ unnamed (absoluteEntries stackA) (relativeEntries stackA) a)
  /\ (add 2 (inStep serialize) (named "B") ;;; remove (inl "B")) stackA
     = (set_cachedMiddlewareList None stackA, Returned true).
Proof.
  assert (forall a, a ∈ getAllAliases (name (named "B")) (aliases (named "B")) ->
            (a ∉ entriesNameSet stackA)
            /\ unnamed (absoluteEntries stackA) (relativeEntries stackA) a) as Hfree.
  { intros a Ha. apply list_elem_of_singleton in Ha. subst a.
    split; by_computation. }
  split; [exact Hfree|].
  apply (proj1 (add_then_remove_gives_the_registry_back stackA 2 (named "B") Hfree)
           "B" (list_elem_of_here _ _)).
Defined.

Lemma names_stay_exact_without_override_witness :
  wellNamed stackAX /\ wellNamed (fst (remove (inl "A") stackAX)).
Proof.
  assert (wellNamed stackAX) as Hs by (split; by_computation).
  split; [exact Hs|].
  apply (proj1 (proj2 (names_stay_exact_without_override stackAX Hs))).
Defined.

Lemma duplicate_name_exactly_when_a_name_is_borne_witness :
  wellNamed stackA
  /\ truthy_flag (override (named "A")) = false
  /\ add 4 (inStep build) (named "A") stackA
     = (stackA, Thrown (duplicateNameError (named "A"))).
Proof.
  assert (wellNamed stackA) as Hs by (split; by_computation).
  split; [exact Hs|]. split; [reflexivity|].
  apply (proj1 (duplicate_name_exactly_when_a_name_is_borne stackA 4 (named "A")
                  Hs eq_refl)).
  exists "A", (Absolute entryA). repeat split; by_computation.
Defined.

Lemma duplicate_name_leaves_registry_unchanged_witness :
  kind (duplicateNameError (named "A")) = DuplicateName
  /\ add 4 (inStep build) (named "A") stackAB
     = (fst (add 4 (inStep build) (named "A") stackAB),
        Thrown (duplicateNameError (named "A")))
  /\ fst (add 4 (inStep build) (named "A") stackAB) = stackAB.
Proof.
  assert (add 4 (inStep build) (named "A") stackAB
          = (fst (add 4 (inStep build) (named "A") stackAB),
             Thrown (duplicateNameError (named "A")))) as Hadd
    by (vm_compute; reflexivity).
  split; [reflexivity|]. split; [exact Hadd|].
  apply (duplicate_name_leaves_registry_unchanged 4 (named "A") stackAB _
           (duplicateNameError (named "A")) eq_refl).
  left. exists (inStep build). exact Hadd.
Defined.

Lemma cache_consistent_when_calls_return_witness :
  cacheConsistent stackAB
  /\ cacheConsistent (fst (remove (inl "A") stackAB))
  /\ getMiddlewareList false stackAB
     = (stackAB, Returned [Absolute entryA; Absolute entryB]).
Proof.
  assert (cacheConsistent stackAB) as Hs.
  { intros cached Hc.
    exists [ {| ref := 0; entry := Absolute entryA |};
             {| ref := 1; entry := Absolute entryB |} ].
    split; [vm_compute; reflexivity|].
    vm_compute in Hc. inversion Hc. reflexivity. }
  split; [exact Hs|].
  destruct (cache_consistent_when_calls_return stackAB Hs)
    as (_ & _ & Hremove & _ & _ & _ & Htwice).
  split; [apply Hremove|].
  apply Htwice. vm_compute. reflexivity.
Defined.

Lemma resolution_reflects_the_last_call_witness :
  cacheConsistent stackAX
  /\ forall debug s'' chain,
       getMiddlewareList debug (fst (remove (inl "X") stackAX)) = (s'', Returned chain) ->
       forall e, e ∈ chain -> "X" ∉ entry_aliases e.
Proof.
  assert (cacheConsistent stackAX) as Hs by (apply cacheConsistent_None; reflexivity).
  split; [exact Hs|].
  apply (proj1 (proj2 (resolution_reflects_the_last_call stackAX Hs)) "X").
Defined.

Lemma inspection_lists_the_chain_executed_witness :
  cacheConsistent stackCAA'BX
  /\ getMiddlewareList false stackCAA'BX
     = (set_cachedMiddlewareList (Some (map entry resolvedNodes)) stackCAA'BX,
        Returned (map entry resolvedNodes))
  /\ identify stackCAA'BX
     = (stackCAA'BX, Returned (map describe (map entry resolvedNodes))).
Proof.
  assert (cacheConsistent stackCAA'BX) as Hs
    by (apply cacheConsistent_None; reflexivity).
  assert (getMiddlewareList false stackCAA'BX
          = (set_cachedMiddlewareList (Some (map entry resolvedNodes)) stackCAA'BX,
             Returned (map entry resolvedNodes))) as Hg by (vm_compute; reflexivity).
  split; [exact Hs|]. split; [exact Hg|].
  apply (proj1 (proj2 (inspection_lists_the_chain_executed _ _ _ Hs Hg))).
Defined.

Lemma chain_holds_each_linked_entry_once_witness :
  resolveEntries 4 false (absoluteEntries cyclicStack) (relativeEntries cyclicStack)
  = Returned [ {| ref := 0; entry := Absolute entryA |} ]
  /\ NoDup (map ref [ {| ref := 0; entry := Absolute entryA |} ])
  /\ length [ {| ref := 0; entry := Absolute entryA |} ]
     <= length (absoluteEntries cyclicStack) + length (relativeEntries cyclicStack).
Proof.
  assert (resolveEntries 4 false (absoluteEntries cyclicStack) (relativeEntries cyclicStack)
          = Returned [ {| ref := 0; entry := Absolute entryA |} ]) as Hr
    by (vm_compute; reflexivity).
  split; [exact Hr|].
  destruct (chain_holds_each_linked_entry_once _ _ _ _ _ Hr) as (Hnd & _ & Hlen & _).
  split; [exact Hnd | exact Hlen].
Defined.

Lemma clone_copies_the_registry_witness :
  NoDup (namesOf stackAX)
  /\ exists c,
       clone stackAX = (c, Returned tt)
       /\ absoluteEntries c = absoluteEntries stackAX
       /\ relativeEntries c = relativeEntries stackAX.
Proof.
  assert (NoDup (namesOf stackAX)) as Hnd by by_computation.
  split; [exact Hnd|].
  destruct (clone_copies_the_registry stackAX Hnd) as (c & Hc & Ha & Hr & _).
  exists c. repeat split; assumption.
Defined.

Lemma use_of_a_stack_appends_its_entries_witness :
  NoDup (namesOf stackB)
  /\ (forall a, a ∈ namesOf stackB -> a ∉ entriesNameSet stackAX)
  /\ absoluteEntries (fst (use (applyToStack true stackB) stackAX)) = [entryA; entryB].
Proof.
  assert (NoDup (namesOf stackB)) as Hnd by by_computation.
  assert (forall a, a ∈ namesOf stackB -> a ∉ entriesNameSet stackAX) as Hfree.
  { intros a Ha. apply list_elem_of_singleton in Ha. subst a. by_computation. }
  split; [exact Hnd|]. split; [exact Hfree|].
  rewrite (proj1 (use_of_a_stack_appends_its_entries stackAX stackB Hnd Hfree)).
  reflexivity.
Defined.

Lemma concat_appends_the_registries_witness :
  NoDup (namesOf stackAX ++ namesOf stackB)
  /\ exists c,
       concatStack stackAX stackB = (c, Returned tt)
       /\ absoluteEntries c = absoluteEntries stackAX ++ absoluteEntries stackB
       /\ relativeEntries c = relativeEntries stackAX ++ relativeEntries stackB.
Proof.
  assert (NoDup (namesOf stackAX ++ namesOf stackB)) as Hnd by by_computation.
  split; [exact Hnd|].
  destruct (concat_appends_the_registries stackAX stackB Hnd) as (c & Hc & Ha & Hr & _).
  exists c. repeat split; assumption.
Defined.

Lemma concat_fails_on_a_shared_name_witness :
  NoDup (namesOf stackAX)
  /\ overrideFree (entriesOf stackA)
  /\ (exists a, a ∈ namesOf stackAX /\ a ∈ namesOf stackA)
  /\ exists c err, concatStack stackAX stackA = (c, Thrown err)
                   /\ kind err = DuplicateName.
Proof.
  assert (NoDup (namesOf stackAX)) as Hnd by by_computation.
  assert (overrideFree (entriesOf stackA)) as Hov by (repeat constructor).
  assert (exists a, a ∈ namesOf stackAX /\ a ∈ namesOf stackA) as Hshared.
  { exists "A". split; by_computation. }
  split; [exact Hnd|]. split; [exact Hov|]. split; [exact Hshared|].
  exact (concat_fails_on_a_shared_name stackAX stackA Hnd Hov Hshared).
Defined.

Lemma plain_calls_never_leave_a_stale_cache_witness :
  plainlyReachable stackAB
  /\ cacheConsistent stackAB
  /\ snd (getMiddlewareList false stackAB)
     = snd (getMiddlewareList false (set_cachedMiddlewareList None stackAB)).
Proof.
  assert (plainlyReachable stackAB) as Hreach.
  { unfold plainlyReachable.
    eapply rtc_l;
      [exact (call_add 1 (inStep initialize) (named "A") constructStack eq_refl)|].
    eapply rtc_l;
      [exact (call_add 2 (inStep serialize) (named "B") _ eq_refl)|].
    eapply rtc_l;
      [exact (call_resolve nat unit (fun _ h _ => h) 0 tt _)|].
    match goal with |- rtc _ ?s _ =>
      assert (s = stackAB) as -> by (vm_compute; reflexivity) end.
    apply rtc_refl. }
  split; [exact Hreach|].
  exact (plain_calls_never_leave_a_stale_cache stackAB Hreach).
Defined.
